(** * AI_CHATBOT backend: a model of [backend/app.py]

    The conversation core of the chat backend: the tone registry, the
    [Conversation] class with its memory extractor, the GIF fetcher and the
    [/chat/] and [/chat/new/] endpoints.

    Text is modelled by [string] (a sequence of bytes, UTF-8 for what lies
    outside ASCII).  [str.lower], [str.strip], [str.capitalize], the slices
    and the classes [\w], [\s], [\b] of [re] are modelled on the ASCII range:
    a byte above 127 has no case, is no white space and is no word character,
    and a slice counts bytes.  On a text that is ASCII ([Text.is_ascii]) they
    are the functions of Python; a statement that evaluates one of them on a
    text it does not build itself takes that text to be ASCII.

    Mutable objects are states of a small state-and-exception monad: a method
    of [Conversation] is a computation over the object, an endpoint is a
    computation over the [World], the process-wide registry together with the
    record of the calls made to the outside (Tenor, the sentiment pipeline,
    Groq, the random generator).  What the outside answers is given by an
    environment [Env]. *)

From Stdlib Require Import ZArith Ascii String.
From stdpp Require Import base strings list gmap.

Open Scope string_scope.
Open Scope list_scope.

(** ** Text *)

Module Text.

Definition code (c : ascii) : N := Ascii.N_of_ascii c.

Definition is_upper (c : ascii) : bool := (65 <=? code c)%N && (code c <=? 90)%N.
Definition is_lower (c : ascii) : bool := (97 <=? code c)%N && (code c <=? 122)%N.
Definition is_digit (c : ascii) : bool := (48 <=? code c)%N && (code c <=? 57)%N.

(** [str.isspace] on the ASCII range: tab, line feed, vertical tab, form feed,
    carriage return, the four separators 0x1c..0x1f and the space. *)
Definition is_space (c : ascii) : bool :=
  ((9 <=? code c)%N && (code c <=? 13)%N)
  || ((28 <=? code c)%N && (code c <=? 31)%N)
  || (code c =? 32)%N.

(** [\w]: letters, digits and the underscore. *)
Definition is_word (c : ascii) : bool :=
  is_upper c || is_lower c || is_digit c || (code c =? 95)%N.

Definition lower_char (c : ascii) : ascii :=
  if is_upper c then Ascii.ascii_of_N (code c + 32) else c.
Definition upper_char (c : ascii) : ascii :=
  if is_lower c then Ascii.ascii_of_N (code c - 32) else c.

(** [s.isascii()]: every character is below 128. *)
Fixpoint is_ascii (s : string) : bool :=
  match s with
  | EmptyString => true
  | String c s' => (code c <? 128)%N && is_ascii s'
  end.

(** [s.lower()] *)
Fixpoint lower (s : string) : string :=
  match s with
  | EmptyString => EmptyString
  | String c s' => String (lower_char c) (lower s')
  end.

(** [s.capitalize()]: first character upper case, the rest lower case. *)
Definition capitalize (s : string) : string :=
  match s with
  | EmptyString => EmptyString
  | String c s' => String (upper_char c) (lower s')
  end.

(** [s.lstrip()] *)
Fixpoint lstrip (s : string) : string :=
  match s with
  | EmptyString => EmptyString
  | String c s' => if is_space c then lstrip s' else s
  end.

(** [s.rstrip()] *)
Fixpoint rstrip (s : string) : string :=
  match s with
  | EmptyString => EmptyString
  | String c s' =>
      match rstrip s' with
      | EmptyString => if is_space c then EmptyString else String c EmptyString
      | t => String c t
      end
  end.

(** [s.strip()] *)
Definition strip (s : string) : string := rstrip (lstrip s).

(** [s.startswith(p)] *)
Fixpoint startswith (p s : string) : bool :=
  match p, s with
  | EmptyString, _ => true
  | String a p', String b s' => Ascii.eqb a b && startswith p' s'
  | String _ _, EmptyString => false
  end.

(** [sub in s] *)
Fixpoint contains (sub s : string) : bool :=
  startswith sub s ||
  match s with
  | EmptyString => false
  | String _ s' => contains sub s'
  end.

(** [s[n:]] *)
Fixpoint slice_from (n : nat) (s : string) : string :=
  match n, s with
  | O, _ => s
  | S n', String _ s' => slice_from n' s'
  | S _, EmptyString => EmptyString
  end.

(** [s[:n]] *)
Fixpoint slice_to (n : nat) (s : string) : string :=
  match n, s with
  | S n', String c s' => String c (slice_to n' s')
  | _, _ => EmptyString
  end.

(** [sep.join(parts)] *)
Fixpoint join (sep : string) (parts : list string) : string :=
  match parts with
  | [] => ""
  | [p] => p
  | p :: rest => p +:+ sep +:+ join sep rest
  end.

Definition hex_digit (n : N) : ascii :=
  if (n <? 10)%N then Ascii.ascii_of_N (48 + n) else Ascii.ascii_of_N (55 + n).

(** The characters [urllib.parse.quote] never escapes, with its default
    [safe='/']: letters, digits, [_.-~] and the slash. *)
Definition is_unreserved (c : ascii) : bool :=
  is_upper c || is_lower c || is_digit c
  || (code c =? 95)%N || (code c =? 46)%N || (code c =? 45)%N
  || (code c =? 126)%N || (code c =? 47)%N.

(** [urllib.parse.quote(s)]: every other byte becomes [%XX]. *)
Fixpoint quote (s : string) : string :=
  match s with
  | EmptyString => EmptyString
  | String c s' =>
      if is_unreserved c then String c (quote s')
      else String "%"%char (String (hex_digit (code c / 16))
                         (String (hex_digit (code c mod 16)) (quote s')))
  end.

End Text.

(** ** Regular expressions

    The fragment of [re] the two patterns of [Conversation.remember] use,
    matched the way [re] does: by backtracking, alternatives in order,
    quantifiers greedy, and [search] taking the leftmost start.  Every
    pattern is compiled with [re.IGNORECASE], so a literal matches both
    cases. *)

Module Re.

Inductive regex : Type :=
| Eps                        (* the empty pattern *)
| Chr (c : ascii)            (* a literal character *)
| Word                       (* \w *)
| White                      (* \s *)
| Bound                      (* \b *)
| Cat (r1 r2 : regex)        (* r1 r2 *)
| Or (r1 r2 : regex)         (* r1|r2 *)
| Opt (r : regex)            (* r? *)
| Star (r : regex)           (* r* *)
| Plus (r : regex)           (* r+ *)
| Group (r : regex).         (* (r), the pattern's group 1 *)

(** A literal run of characters. *)
Fixpoint Lit (s : string) : regex :=
  match s with
  | EmptyString => Eps
  | String c s' => Cat (Chr c) (Lit s')
  end.

(** Where the matcher stands: the character before the position ([None] at
    the start of the text), the position, and the text still ahead. *)
Record cursor : Type := Cursor {
  before : option ascii;
  pos : nat;
  rest : string
}.

Definition step_over (c : ascii) (cur : cursor) (s' : string) : cursor :=
  Cursor (Some c) (S (pos cur)) s'.

Definition word_before (cur : cursor) : bool :=
  match before cur with Some c => Text.is_word c | None => false end.
Definition word_ahead (cur : cursor) : bool :=
  match rest cur with String c _ => Text.is_word c | EmptyString => false end.

(** A continuation receives the cursor and the text of group 1 so far, and
    answers with the groups of the whole match, or [None] to backtrack. *)
Definition cont : Type := cursor → option string → option (option string).

Definition one_char (ok : ascii → bool) (k : cont) : cont :=
  fun cur cap =>
    match rest cur with
    | String c s' => if ok c then k (step_over c cur s') cap else None
    | EmptyString => None
    end.

(** Greedy repetition: one more round of [step] if it matches and moves the
    cursor, else the continuation.  A round consumes a character, so the
    length of the text ahead bounds the number of rounds. *)
Fixpoint repeat_greedy (rounds : nat) (step : cont → cont) (k : cont) : cont :=
  fun cur cap =>
    match rounds with
    | O => k cur cap
    | S n =>
        match step (fun cur' cap' =>
                      if (pos cur <? pos cur')%nat
                      then repeat_greedy n step k cur' cap' else None) cur cap with
        | Some res => Some res
        | None => k cur cap
        end
    end.

Fixpoint run (r : regex) (k : cont) : cont :=
  match r with
  | Eps => k
  | Chr c =>
      one_char (fun d => Ascii.eqb (Text.lower_char c) (Text.lower_char d)) k
  | Word => one_char Text.is_word k
  | White => one_char Text.is_space k
  | Bound =>
      fun cur cap =>
        if xorb (word_before cur) (word_ahead cur) then k cur cap else None
  | Cat r1 r2 => run r1 (run r2 k)
  | Or r1 r2 =>
      fun cur cap =>
        match run r1 k cur cap with
        | Some res => Some res
        | None => run r2 k cur cap
        end
  | Opt r1 =>
      fun cur cap =>
        match run r1 k cur cap with
        | Some res => Some res
        | None => k cur cap
        end
  | Star r1 =>
      fun cur cap => repeat_greedy (String.length (rest cur)) (run r1) k cur cap
  | Plus r1 =>
      run r1 (fun cur cap =>
                repeat_greedy (String.length (rest cur)) (run r1) k cur cap)
  | Group r1 =>
      fun cur cap =>
        run r1 (fun cur' _ =>
                  k cur' (Some (Text.slice_to (pos cur' - pos cur) (rest cur))))
            cur cap
  end.

(** The match at one start position. *)
Definition match_here (r : regex) (cur : cursor) : option (option string) :=
  run r (fun _ cap => Some cap) cur None.

(** Start positions from left to right; the first that matches wins. *)
Fixpoint search_from (r : regex) (cur : cursor) (ahead : string)
  : option (option string) :=
  match match_here r cur with
  | Some groups => Some groups
  | None =>
      match ahead with
      | EmptyString => None
      | String c s' => search_from r (step_over c cur s') s'
      end
  end.

(** [re.search(r, s, re.IGNORECASE)]: [Some g] is a match object whose
    [group(1)] is [g]. *)
Definition search (r : regex) (s : string) : option (option string) :=
  search_from r (Cursor None 0 s) s.

(** The final answer of the matcher is an answer of its continuation. *)
Definition from_cont (step : cont → cont) : Prop :=
  ∀ k cur cap res, step k cur cap = Some res →
    ∃ cur' cap', k cur' cap' = Some res.

(** The same, with a group that is set whenever it was set on entry. *)
Definition keeps_group (step : cont → cont) : Prop :=
  ∀ k cur g res, step k cur (Some g) = Some res →
    ∃ cur' g', k cur' (Some g') = Some res.

(** Patterns whose every match goes through group 1. *)
Fixpoint crosses_group (r : regex) : bool :=
  match r with
  | Group _ => true
  | Cat r1 r2 => crosses_group r1 || crosses_group r2
  | Or r1 r2 => crosses_group r1 && crosses_group r2
  | Plus r1 => crosses_group r1
  | _ => false
  end.

End Re.

(** [r"\bmy name is (\w+)"] *)
Definition name_pattern : Re.regex :=
  Re.Cat Re.Bound (Re.Cat (Re.Lit "my name is ") (Re.Group (Re.Plus Re.Word))).

(** [r"\bI(?:'m| am) (?:feeling|a bit)?\s*(\w+)"] *)
Definition mood_pattern : Re.regex :=
  Re.Cat Re.Bound
    (Re.Cat (Re.Chr "I"%char)
       (Re.Cat (Re.Or (Re.Lit "'m") (Re.Lit " am"))
          (Re.Cat (Re.Chr " "%char)
             (Re.Cat (Re.Opt (Re.Or (Re.Lit "feeling") (Re.Lit "a bit")))
                (Re.Cat (Re.Star Re.White) (Re.Group (Re.Plus Re.Word))))))).

(** ** Exceptions and the state-and-exception monad *)

(** The exception classes the program raises or catches.  All of them derive
    from [Exception]; the three of [requests] are listed from the most
    specific, [RequestException] standing for those that are neither an
    [HTTPError] nor a [ConnectionError] (time-outs, exhausted retries, a body
    that is no JSON). *)
Inductive exn : Type :=
| HTTPError (status_code : Z)
| ConnectionError
| RequestException
| ValueError (msg : string)
| HTTPException (status_code : Z) (detail : string)
| OtherException (what : string).   (* KeyError, TypeError, AttributeError, ... *)

Inductive outcome (A : Type) : Type :=
| Returns (a : A)
| Raises (e : exn).
Arguments Returns {A} a.
Arguments Raises {A} e.

(** A computation over a mutable state [S]: the state it leaves and what it
    returns or raises.  A raise keeps the mutations made before it. *)
Definition M (S A : Type) : Type := S → S * outcome A.

Definition ret {S A} (a : A) : M S A := fun s => (s, Returns a).
Definition raise {S A} (e : exn) : M S A := fun s => (s, Raises e).
Definition bind {S A B} (m : M S A) (f : A → M S B) : M S B :=
  fun s =>
    match m s with
    | (s', Returns a) => f a s'
    | (s', Raises e) => (s', Raises e)
    end.
Definition get {S} : M S S := fun s => (s, Returns s).
Definition modify {S} (f : S → S) : M S unit := fun s => (f s, Returns tt).

(** [try: body except Exception as e: handler e] *)
Definition try_except {S A} (body : M S A) (handler : exn → M S A) : M S A :=
  fun s =>
    match body s with
    | (s', Returns a) => (s', Returns a)
    | (s', Raises e) => handler e s'
    end.

Notation "'let*' x ':=' m 'in' k" := (bind m (fun x => k))
  (at level 10, x pattern, m at level 100, k at level 200).
Notation "m ';;' k" := (bind m (fun _ => k))
  (at level 100, k at level 200, right associativity).

(** ** Tone prompts *)

Definition TONE_PROMPTS : gmap string string :=
  list_to_map [
    ("serious", "You are a serious and professional assistant. 📘");
    ("funny", "You are a funny and witty assistant 😂✨");
    ("poetic", "You are a poetic AI who speaks in rhymes 🌸🎵");
    ("dark_humor", "You are a dark-humored assistant 🖤💀🦃")
  ].

Definition FALLBACK_GIF : string :=
  "https://media.tenor.com/4zFMa2onE44AAAAC/funny-cat.gif".
Definition FALLBACK_MESSAGE : string :=
  "Couldn’t fetch a GIF due to network issues. Here’s a funny cat instead!".

(** ** The [Conversation] class *)

(** One entry of the transcript: [{"role": ..., "content": ...}]. *)
Record Message : Type := Msg {
  role : string;
  content : string
}.

Record Conversation : Type := Conv {
  messages : list Message;
  active : bool;
  tone_set : bool;
  current_tone : string;
  memory : gmap string string;
  title : string
}.

Definition set_messages (l : list Message) (c : Conversation) : Conversation :=
  Conv l (active c) (tone_set c) (current_tone c) (memory c) (title c).
Definition set_tone_set (b : bool) (c : Conversation) : Conversation :=
  Conv (messages c) (active c) b (current_tone c) (memory c) (title c).
Definition set_current_tone (t : string) (c : Conversation) : Conversation :=
  Conv (messages c) (active c) (tone_set c) t (memory c) (title c).
Definition set_memory (m : gmap string string) (c : Conversation) : Conversation :=
  Conv (messages c) (active c) (tone_set c) (current_tone c) m (title c).

(** [self.messages.append(m)] *)
Definition append_message (m : Message) (c : Conversation) : Conversation :=
  set_messages (messages c ++ [m]) c.

(** [l.insert(i, x)]: past the end, the element goes last. *)
Definition list_insert_at {A} (i : nat) (x : A) (l : list A) : list A :=
  take i l ++ x :: drop i l.

Definition invalid_tone : exn :=
  ValueError "Invalid tone. Options: funny, serious, poetic, dark_humor".

(** [Conversation.set_tone] *)
Definition set_tone (tone : string) : M Conversation unit :=
  let tone_key := Text.strip (Text.lower tone) in
  match TONE_PROMPTS !! tone_key with
  | None | Some "" => raise invalid_tone
  | Some prompt =>
      modify (set_messages [Msg "system" prompt]) ;;
      modify (set_current_tone tone_key) ;;
      modify (set_tone_set true)
  end.

(** The fields as [__init__] leaves them before it calls [set_tone]. *)
Definition blank_conversation (title : string) : Conversation :=
  Conv [] true false "" ∅ title.

(** [Conversation(tone, title)]: the new object, unless [__init__] raises. *)
Definition Conversation_init (tone title : string) : outcome Conversation :=
  match set_tone tone (blank_conversation title) with
  | (self, Returns _) => Returns self
  | (_, Raises e) => Raises e
  end.

(** [Conversation.remember].  A match object whose group 1 took no part in
    the match would give [None] for [group(1)], and the method call on it
    would raise; [remember_returns] shows that the two patterns leave no such
    match. *)
Definition remember (message : string) : M Conversation unit :=
  let name_match := Re.search name_pattern message in
  let mood_match := Re.search mood_pattern message in
  (match name_match with
   | Some (Some g) =>
       modify (fun c => set_memory (<["name" := Text.capitalize g]> (memory c)) c)
   | Some None => raise (OtherException "AttributeError")
   | None => ret tt
   end) ;;
  match mood_match with
  | Some (Some g) =>
      let mood := Text.lower g in
      if bool_decide (mood ∈ ["a"; "bit"; "feeling"]) then ret tt
      else modify (fun c => set_memory (<["mood" := mood]> (memory c)) c)
  | Some None => raise (OtherException "AttributeError")
  | None => ret tt
  end.

(** The sentences [inject_memory_context] builds from the memory. *)
Definition memory_facts (mem : gmap string string) : list string :=
  (match mem !! "name" with
   | Some n => ["The user's name is " +:+ n +:+ "."]
   | None => []
   end) ++
  (match mem !! "mood" with
   | Some m => ["The user mentioned they were feeling " +:+ m +:+ " earlier."]
   | None => []
   end).

(** [Conversation.inject_memory_context] *)
Definition inject_memory_context : M Conversation unit :=
  let* self := get in
  let facts := memory_facts (memory self) in
  match facts with
  | [] => ret tt
  | _ =>
      let context := Text.join " " facts in
      modify (fun c => set_messages
                         (list_insert_at 1 (Msg "system" context) (messages c)) c)
  end.

(** ** What the outside answers *)

(** A decoded JSON document.  An object is the parsed [dict], its keys
    distinct; a number is an integer, the program only tests numbers for
    truth. *)
#[warnings="-register-all"]
Inductive json : Type :=
| JNull
| JBool (b : bool)
| JNum (n : Z)
| JStr (s : string)
| JArr (items : list json)
| JObj (members : list (string * json)).

(** Python's truth value of a decoded document. *)
Definition truthy (v : json) : bool :=
  match v with
  | JNull => false
  | JBool b => b
  | JNum n => negb (n =? 0)%Z
  | JStr s => negb (String.eqb s "")
  | JArr items => match items with [] => false | _ => true end
  | JObj members => match members with [] => false | _ => true end
  end.

(** [v == s] for a string [s]: only an equal string is equal to it. *)
Definition equals_str (v : json) (s : string) : bool :=
  match v with
  | JStr t => String.eqb t s
  | _ => false
  end.

Fixpoint assoc (key : string) (members : list (string * json)) : option json :=
  match members with
  | [] => None
  | (k, v) :: rest => if String.eqb k key then Some v else assoc key rest
  end.

(** What [session.get(url, timeout=5)] comes back with once the adapter's
    retries are over: an exception, or a response with its status and its body
    ([None] when the body is no JSON, so that [response.json()] raises). *)
Record Response : Type := Resp {
  status_code : Z;
  body : option json
}.

Inductive reply : Type :=
| Fails (e : exn)
| Answers (r : Response).

(** The calls made to the outside, in order. *)
Inductive Event : Type :=
| TenorGet (url : string)
| SentimentCall (text : string)
| GroqCall (prompt : list Message)
| RandomDraw
| RandomChoice (len : nat).

(** The environment: the Tenor key and the answer of each outside service.
    The first argument of a service is the number of calls made before this
    one, so that two calls with the same request may differ.
    - [tenor]: the search backend behind [session.get];
    - [sentiment]: [sentiment_analyzer(text)[0]['label']];
    - [groq]: [client.chat.completions.create(...)], either [inl] the text of
      the exception it raises or [inr] the content of the first choice;
    - [draw]: [random.random()], as the numerator [k] of [k / 2^53];
    - [pick]: the index [random.choice] takes, read modulo the length;
    - [py_str]: the built-in [str] on a value that is no string, for the
      f-strings. *)
Record Env : Type := {
  TENOR_API_KEY : string;
  tenor : nat → string → reply;
  sentiment : nat → string → outcome string;
  groq : nat → list Message → string + string;
  draw : nat → Z;
  pick : nat → nat → nat;
  py_str : json → string
}.

(** ** The process state *)

Record World : Type := Wld {
  conversations : gmap string Conversation;
  events : list Event
}.

Definition now (w : World) : nat := length (events w).
Definition log (e : Event) (w : World) : World :=
  Wld (conversations w) (events w ++ [e]).
Definition set_conversations (m : gmap string Conversation) (w : World) : World :=
  Wld m (events w).

(** A method call on the registered object [conversations[cid]]. *)
Definition on_conversation {A} (cid : string) (m : M Conversation A) : M World A :=
  fun w =>
    match conversations w !! cid with
    | Some c =>
        let '(c', r) := m c in
        (set_conversations (<[cid := c']> (conversations w)) w, r)
    | None => (w, Raises (OtherException "KeyError"))
    end.

(** Reading an attribute of [conversations[cid]]. *)
Definition attr {A} (cid : string) (f : Conversation → A) : M World A :=
  on_conversation cid (let* self := get in ret (f self)).

Definition lift_outcome {S A} (o : outcome A) : M S A :=
  match o with
  | Returns a => ret a
  | Raises e => raise e
  end.

Definition nl : string := String (Ascii.ascii_of_N 10) "".

(** ** The requests and the reply of [chat] *)

Module UserInput.
Record t : Type := Build {
  message : string;
  role : string;
  conversation_id : string
}.
End UserInput.

Module NewChatRequest.
Record t : Type := Build {
  conversation_id : string;
  tone : string;
  title : string
}.
End NewChatRequest.

(** [{"response": ..., "conversation_id": ..., "gif": ...}]; [gif] is [None]
    when the reply has no such key, and [Some JNull] when the key holds
    Python's [None]. *)
Module ChatResponse.
Record t : Type := Build {
  response : string;
  conversation_id : string;
  gif : option json
}.
End ChatResponse.

(** ** The endpoints *)

Section Backend.

Variable env : Env.

(** [get_or_create_conversation]; the object is then [conversations[cid]]. *)
Definition get_or_create_conversation (conversation_id : string) : M World unit :=
  let* w := get in
  match conversations w !! conversation_id with
  | Some _ => ret tt
  | None =>
      let* c := lift_outcome (Conversation_init "funny" "New Chat") in
      modify (fun w => set_conversations (<[conversation_id := c]> (conversations w)) w)
  end.

(** [query_groq_api] *)
Definition query_groq_api (cid : string) : M World string :=
  let* prompt := attr cid messages in
  let* w := get in
  modify (log (GroqCall prompt)) ;;
  match groq env (now w) prompt with
  | inr text => ret text
  | inl err => raise (HTTPException 500 ("Groq API failed: " +:+ err))
  end.

(** [session.get(url, timeout=5)] *)
Definition session_get (url : string) : M World Response :=
  let* w := get in
  modify (log (TenorGet url)) ;;
  match tenor env (now w) url with
  | Fails e => raise e
  | Answers r => ret r
  end.

(** [response.raise_for_status()] *)
Definition raise_for_status (r : Response) : M World unit :=
  if ((400 <=? status_code r) && (status_code r <? 600))%Z
  then raise (HTTPError (status_code r)) else ret tt.

(** [response.json()] *)
Definition response_json (r : Response) : M World json :=
  match body r with
  | Some data => ret data
  | None => raise RequestException
  end.

(** [data.get(key, default)] *)
Definition dict_get (data : json) (key : string) (default : json) : M World json :=
  match data with
  | JObj members => ret (match assoc key members with Some v => v | None => default end)
  | _ => raise (OtherException "AttributeError")
  end.

(** [v[key]] for a string key *)
Definition subscript (v : json) (key : string) : M World json :=
  match v with
  | JObj members =>
      match assoc key members with
      | Some x => ret x
      | None => raise (OtherException "KeyError")
      end
  | _ => raise (OtherException "TypeError")
  end.

(** [random.choice(seq)] for a [seq] that is true: [seq[randbelow(len(seq))]] *)
Definition random_choice (seq : json) : M World json :=
  match seq with
  | JArr items =>
      let* w := get in
      modify (log (RandomChoice (length items))) ;;
      match items !! (pick env (now w) (length items) `mod` length items) with
      | Some x => ret x
      | None => raise (OtherException "IndexError")
      end
  | JStr s =>
      let* w := get in
      modify (log (RandomChoice (String.length s))) ;;
      let i := pick env (now w) (String.length s) `mod` String.length s in
      ret (JStr (Text.slice_to 1 (Text.slice_from i s)))
  | JObj members =>
      modify (log (RandomChoice (length members))) ;;
      raise (OtherException "KeyError")
  | _ => raise (OtherException "TypeError")
  end.

Definition search_url (encoded_query : string) : string :=
  "https://api.tenor.com/v2/search?key=" +:+ TENOR_API_KEY env +:+ "&q="
    +:+ encoded_query +:+ "&limit=5&contentfilter=medium".

(** The body of the [try] of [get_gif_url]. *)
Definition get_gif_url_try (query : string) : M World json :=
  let query := Text.strip (Text.lower query) in
  let query := if String.eqb query "peple" then "people" else query in
  let encoded_query := Text.quote query in
  let url := search_url encoded_query in
  let* response := session_get url in
  raise_for_status response ;;
  let* data := response_json response in
  let* gifs := dict_get data "results" (JArr []) in
  let* gifs :=
    (if negb (truthy gifs) then
       let url := search_url "funny" in
       let* response := session_get url in
       raise_for_status response ;;
       let* data := response_json response in
       dict_get data "results" (JArr [])
     else ret gifs) in
  if truthy gifs then
    let* gif := random_choice gifs in
    let* formats := subscript gif "media_formats" in
    let* format := subscript formats "gif" in
    let* gif_url := subscript format "url" in
    ret gif_url
  else ret (JStr FALLBACK_GIF).

(** [get_gif_url]: the four [except] clauses, in order. *)
Definition get_gif_url (query : string) : M World json :=
  try_except (get_gif_url_try query)
    (fun e =>
       match e with
       | HTTPError _ => ret (JStr FALLBACK_GIF)
       | ConnectionError => ret (JStr FALLBACK_GIF)
       | RequestException => ret (JStr FALLBACK_GIF)
       | _ => ret (JStr FALLBACK_GIF)
       end).

(** The value as an f-string prints it. *)
Definition fmt (v : json) : string :=
  match v with
  | JStr s => s
  | _ => py_str env v
  end.

(** [v if v else None] *)
Definition or_none (v : json) : json := if truthy v then v else JNull.

Definition gif_markdown (gif_url : json) : string :=
  nl +:+ "![GIF](" +:+ fmt gif_url +:+ ")".

Definition onboarding : string :=
  "👋 Hi! Choose your tone: `/tone funny`, `/tone serious`, `/tone poetic`, `/tone dark_humor`"
    +:+ nl +:+ "Request a GIF with: `/gif <topic>`".

Definition mood_note_for (sentiment : string) : string :=
  if String.eqb sentiment "positive" then
    "The user seems happy. Be playful and joyful in your response. 😄"
  else if String.eqb sentiment "negative" then
    "The user seems sad. Be empathetic and comforting in your response. 🥺"
  else "The user is neutral. Respond normally.".

(** The guard of the memory injection: the memory is not empty and no entry
    of the transcript contains ["user's name"]. *)
Definition wants_memory_context (c : Conversation) : bool :=
  negb (bool_decide (memory c = ∅))
  && negb (existsb (fun m => Text.contains "user's name" (content m)) (messages c)).

(** The [/gif] command of [chat]. *)
Definition chat_gif (cid user_msg : string) : M World ChatResponse.t :=
  let topic := Text.strip (Text.slice_from 5 user_msg) in
  if String.eqb topic "" then
    ret (ChatResponse.Build "Please specify a topic after /gif" cid None)
  else
    let* gif_url := get_gif_url topic in
    let response :=
      if equals_str gif_url FALLBACK_GIF then
        FALLBACK_MESSAGE +:+ gif_markdown gif_url
      else if truthy gif_url then "Here's a GIF for you!" +:+ gif_markdown gif_url
      else "Sorry, couldn't find a suitable GIF for that topic. Try another topic!" in
    on_conversation cid (modify (append_message (Msg "user" ("/gif " +:+ topic)))) ;;
    on_conversation cid (modify (append_message (Msg "assistant" response))) ;;
    ret (ChatResponse.Build response cid (Some (or_none gif_url))).

(** The [/tone] command of [chat]. *)
Definition chat_tone (cid user_msg : string) : M World ChatResponse.t :=
  let tone := Text.strip (Text.slice_from 5 user_msg) in
  if String.eqb tone "" then
    ret (ChatResponse.Build "Please specify a tone after /tone" cid None)
  else
    try_except
      (on_conversation cid (set_tone tone) ;;
       let* gif_url :=
         (if String.eqb tone "funny" then get_gif_url "celebrate" else ret (JStr "")) in
       let response :=
         if equals_str gif_url FALLBACK_GIF then
           "Tone changed to '" +:+ tone +:+ "'" +:+ nl +:+ FALLBACK_MESSAGE
             +:+ gif_markdown gif_url
         else
           "Tone changed to '" +:+ tone +:+ "'"
             +:+ (if truthy gif_url then gif_markdown gif_url else "") in
       on_conversation cid (modify (append_message (Msg "assistant" response))) ;;
       ret (ChatResponse.Build response cid (Some (or_none gif_url))))
      (fun e =>
         match e with
         | ValueError _ =>
             ret (ChatResponse.Build
                    "Invalid tone. Options: funny, serious, poetic, dark_humor." cid None)
         | _ => raise e
         end).

(** The media decoration of a reply: the reply, decorated or not, and the
    value of [gif_url]. *)
Definition decorate (cid sentiment response : string) : M World (string * json) :=
  let* tone := attr cid current_tone in
  let* below :=
    (if String.eqb sentiment "positive" || String.eqb tone "funny" then
       let* w := get in
       modify (log RandomDraw) ;;
       ret (10 * draw env (now w) <? 3 * 2 ^ 53)%Z
     else ret false) in
  if below : bool then
    let gif_query := if String.eqb sentiment "positive" then "happy" else "funny" in
    let* gif_url := get_gif_url gif_query in
    if equals_str gif_url FALLBACK_GIF then
      ret (response +:+ nl +:+ FALLBACK_MESSAGE +:+ gif_markdown gif_url, gif_url)
    else if truthy gif_url then ret (response +:+ gif_markdown gif_url, gif_url)
    else ret (response, gif_url)
  else ret (response, JNull).

(** The pipeline of [chat] for a message that is no command, from
    [conversation.remember] on. *)
Definition chat_reply (input : UserInput.t) (user_msg : string)
  : M World ChatResponse.t :=
  let cid := UserInput.conversation_id input in
  on_conversation cid (remember user_msg) ;;
  let* w := get in
  modify (log (SentimentCall user_msg)) ;;
  let* label := lift_outcome (sentiment env (now w) user_msg) in
  let sentiment := Text.lower label in
  let mood_note := mood_note_for sentiment in
  let* wanted := attr cid wants_memory_context in
  (if wanted : bool then on_conversation cid inject_memory_context else ret tt) ;;
  on_conversation cid (modify (append_message (Msg "system" mood_note))) ;;
  on_conversation cid
    (modify (append_message (Msg (UserInput.role input) (UserInput.message input)))) ;;
  let* response := query_groq_api cid in
  let* (response, gif_url) := decorate cid sentiment response in
  on_conversation cid (modify (append_message (Msg "assistant" response))) ;;
  ret (ChatResponse.Build response cid (Some (or_none gif_url))).

(** [chat], the handler of [POST /chat/]. *)
Definition chat (input : UserInput.t) : M World ChatResponse.t :=
  let cid := UserInput.conversation_id input in
  get_or_create_conversation cid ;;
  let* is_active := attr cid active in
  if negb is_active then raise (HTTPException 400 "Chat session ended.")
  else
    let user_msg := Text.strip (UserInput.message input) in
    if Text.startswith "/gif" (Text.lower user_msg) then chat_gif cid user_msg
    else if Text.startswith "/tone" (Text.lower user_msg) then chat_tone cid user_msg
    else
      let* has_tone := attr cid tone_set in
      if negb has_tone then ret (ChatResponse.Build onboarding cid None)
      else chat_reply input user_msg.

(** [new_chat], the handler of [POST /chat/new/]: the message it returns. *)
Definition new_chat (data : NewChatRequest.t) : M World string :=
  let* w := get in
  if bool_decide (is_Some (conversations w !! NewChatRequest.conversation_id data)) then
    raise (HTTPException 400 "Chat ID already exists.")
  else
    let* c := lift_outcome
                (Conversation_init (NewChatRequest.tone data) (NewChatRequest.title data)) in
    modify (fun w => set_conversations
                       (<[NewChatRequest.conversation_id data := c]> (conversations w)) w) ;;
    ret ("Chat '" +:+ NewChatRequest.title data +:+ "' created.").

End Backend.

(** [get_chat_history]: the entries of the user and of the assistant, as
    [(sender, text)]. *)
Definition get_chat_history (conversation_id : string) : M World (list (string * string)) :=
  let* w := get in
  match conversations w !! conversation_id with
  | None => raise (HTTPException 404 "Chat not found.")
  | Some conversation =>
      ret (map (fun msg => (role msg, content msg))
             (filter (fun msg => role msg ∈ ["user"; "assistant"]) (messages conversation)))
  end.

(** ** Sample environments *)

Definition no_events : World := Wld ∅ [].

(** Tenor unreachable, a neutral classifier, a completion that answers
    ["ok"], a draw above the 0.3 threshold. *)
Definition offline_env : Env := {|
  TENOR_API_KEY := "KEY";
  tenor := fun _ _ => Fails ConnectionError;
  sentiment := fun _ _ => Returns "NEUTRAL";
  groq := fun _ _ => inr "ok";
  draw := fun _ => (2 ^ 53 - 1)%Z;
  pick := fun _ _ => 0;
  py_str := fun _ => "?"
|}.

Definition say (cid text : string) : UserInput.t := UserInput.Build text "user" cid.

(** ** Notions the statements use *)

(** What a successful [set_tone] leaves: the transcript is the one prompt,
    the tone is recorded, the other fields are kept. *)
Definition retoned (key prompt : string) (c : Conversation) : Conversation :=
  Conv [Msg "system" prompt] (active c) true key (memory c) (title c).

(** A conversation as [get_or_create_conversation] makes it. *)
Definition fresh_conversation : Conversation :=
  Conv [Msg "system" "You are a funny and witty assistant 😂✨"] true true "funny" ∅
    "New Chat".

(** The query as [get_gif_url] sends it: lower-cased, stripped, the one
    misspelling corrected. *)
Definition normalize_query (query : string) : string :=
  let query := Text.strip (Text.lower query) in
  if String.eqb query "peple" then "people" else query.

(** The value of [data.get("results", [])] for a response that passes
    [raise_for_status] and whose body is a JSON object. *)
Definition results_of (r : Response) : option json :=
  if ((400 <=? status_code r) && (status_code r <? 600))%Z then None
  else match body r with
       | Some (JObj members) =>
           Some (match assoc "results" members with Some v => v | None => JArr [] end)
       | _ => None
       end.

(** The value of [gif["media_formats"]["gif"]["url"]], when the three
    subscripts succeed. *)
Definition gif_url_of (gif : json) : option json :=
  match gif with
  | JObj members =>
      match assoc "media_formats" members with
      | Some (JObj formats) =>
          match assoc "gif" formats with
          | Some (JObj format) => assoc "url" format
          | _ => None
          end
      | _ => None
      end
  | _ => None
  end.

(** The four steps [get_gif_url] runs for each of its two queries: the
    request, the status check, the decoding, the [results] member. *)
Definition fetch_results (env : Env) (url : string) : M World json :=
  let* response := session_get env url in
  raise_for_status response ;;
  let* data := response_json response in
  dict_get data "results" (JArr []).

(** The three subscripts that take the URL out of a result. *)
Definition url_of_result (gif : json) : M World json :=
  let* formats := subscript gif "media_formats" in
  let* format := subscript formats "gif" in
  let* gif_url := subscript format "url" in
  ret gif_url.

(** The world with [conversations[cid]] bound to [c]. *)
Definition upd (cid : string) (c : Conversation) (w : World) : World :=
  set_conversations (<[cid := c]> (conversations w)) w.

(** The object [get_or_create_conversation] leaves under [cid]. *)
Definition conversation_for (cid : string) (w : World) : Conversation :=
  match conversations w !! cid with
  | Some c => c
  | None => fresh_conversation
  end.

(** The guarded injection of [chat]. *)
Definition with_memory_context (c : Conversation) : Conversation :=
  if wants_memory_context c then fst (inject_memory_context c) else c.

(** The conversation as [chat] has it when it calls the completion: the
    message remembered, the memory context injected if the guard asks for it,
    the mood note and the message appended. *)
Definition prompt_assembled (input : UserInput.t) (label : string) (c : Conversation)
  : Conversation :=
  append_message (Msg (UserInput.role input) (UserInput.message input))
    (append_message (Msg "system" (mood_note_for (Text.lower label)))
       (with_memory_context (fst (remember (Text.strip (UserInput.message input)) c)))).

(** Whether [chat] takes the message for one of its two commands. *)
Definition is_command (message : string) : bool :=
  Text.startswith "/gif" (Text.lower (Text.strip message))
  || Text.startswith "/tone" (Text.lower (Text.strip message)).

(** What [chat] does once the prompt is assembled: the completion, the
    decoration, the commit. *)
Definition chat_complete (env : Env) (input : UserInput.t) (sentiment : string)
  : M World ChatResponse.t :=
  let cid := UserInput.conversation_id input in
  let* response := query_groq_api env cid in
  let* (response, gif_url) := decorate env cid sentiment response in
  on_conversation cid (modify (append_message (Msg "assistant" response))) ;;
  ret (ChatResponse.Build response cid (Some (or_none gif_url))).

(** A computation that only adds to the record of outside calls. *)
Definition grows_log {A} (m : M World A) : Prop :=
  ∀ w, ∃ more, events (fst (m w)) = events w ++ more.

(** Every registered conversation is active and has its tone set. *)
Definition all_toned (w : World) : Prop :=
  ∀ cid c, conversations w !! cid = Some c → tone_set c = true ∧ active c = true.

(** A computation over the world that keeps [all_toned]. *)
Definition keeps_toned {A} (m : M World A) : Prop :=
  ∀ w, all_toned w → all_toned (fst (m w)).

(** A method that leaves an active, toned conversation so. *)
Definition keeps_flags {A} (m : M Conversation A) : Prop :=
  ∀ c, tone_set c = true ∧ active c = true →
       tone_set (fst (m c)) = true ∧ active (fst (m c)) = true.

(** The test of the injection guard on one entry. *)
Definition has_marker (m : Message) : bool := Text.contains "user's name" (content m).

(** The argument of a [/tone] command. *)
Definition tone_argument (message : string) : string :=
  Text.strip (Text.slice_from 5 (Text.strip message)).

(** A computation that leaves the registry alone. *)
Definition keeps_registry {A} (m : M World A) : Prop :=
  ∀ w, conversations (fst (m w)) = conversations w.

(** ** More sample environments *)

(** A search backend with nothing for the query asked and, for the fallback
    query, one result that has no [gif] format. *)
Definition no_gif_format_env : Env := {|
  TENOR_API_KEY := "KEY";
  tenor := fun n _ =>
    match n with
    | O => Answers (Resp 200 (Some (JObj [("results", JArr [])])))
    | _ => Answers (Resp 200 (Some (JObj [("results",
             JArr [JObj [("id", JStr "1"); ("media_formats", JObj [])]])])))
    end;
  sentiment := fun _ _ => Returns "NEUTRAL";
  groq := fun _ _ => inr "ok";
  draw := fun _ => (2 ^ 53 - 1)%Z;
  pick := fun _ _ => 0;
  py_str := fun _ => "?"
|}.

(** A search backend with nothing for the query asked and two results for
    the fallback query; the generator picks the second. *)
Definition fallback_results_env : Env := {|
  TENOR_API_KEY := "KEY";
  tenor := fun n _ =>
    match n with
    | O => Answers (Resp 200 (Some (JObj [("results", JArr [])])))
    | _ => Answers (Resp 200 (Some (JObj [("results",
             JArr [JObj [("media_formats", JObj [("gif", JObj [("url", JStr "https://t/1.gif")])])];
                   JObj [("media_formats", JObj [("gif", JObj [("url", JStr "https://t/2.gif")])])]])])))
    end;
  sentiment := fun _ _ => Returns "NEUTRAL";
  groq := fun _ _ => inr "ok";
  draw := fun _ => (2 ^ 53 - 1)%Z;
  pick := fun _ _ => 1;
  py_str := fun _ => "?"
|}.

(** A search backend with nothing for the query asked and, for the fallback
    query, one result whose URL is the very string of the fixed asset. *)
Definition same_url_env : Env := {|
  TENOR_API_KEY := "KEY";
  tenor := fun n _ =>
    match n with
    | O => Answers (Resp 200 (Some (JObj [("results", JArr [])])))
    | _ => Answers (Resp 200 (Some (JObj [("results",
             JArr [JObj [("media_formats",
                          JObj [("gif", JObj [("url", JStr FALLBACK_GIF)])])]])])))
    end;
  sentiment := fun _ _ => Returns "NEUTRAL";
  groq := fun _ _ => inr "ok";
  draw := fun _ => (2 ^ 53 - 1)%Z;
  pick := fun _ _ => 0;
  py_str := fun _ => "?"
|}.

(** A search backend that answers every query with an empty result list. *)
Definition empty_results_env : Env := {|
  TENOR_API_KEY := "KEY";
  tenor := fun _ _ => Answers (Resp 200 (Some (JObj [("results", JArr [])])));
  sentiment := fun _ _ => Returns "NEUTRAL";
  groq := fun _ _ => inr "ok";
  draw := fun _ => (2 ^ 53 - 1)%Z;
  pick := fun _ _ => 0;
  py_str := fun _ => "?"
|}.

(** ** The other endpoints *)

Module RenameChatRequest.
Record t : Type := Build {
  conversation_id : string;
  new_title : string
}.
End RenameChatRequest.

(** [{"topic": ..., "gif_url": ..., "message": ...}]; [message] is [None]
    when the reply has no such key. *)
Module GifResponse.
Record t : Type := Build {
  topic : string;
  gif_url : json;
  message : option string
}.
End GifResponse.

Definition set_title (t : string) (c : Conversation) : Conversation :=
  Conv (messages c) (active c) (tone_set c) (current_tone c) (memory c) t.

(** [get_gif], the handler of [GET /gifs/{topic}].  [unquote] stands for
    [urllib.parse.unquote]. *)
Definition get_gif (env : Env) (unquote : string → string) (topic : string)
  : M World GifResponse.t :=
  let topic := unquote topic in
  let* gif_url := get_gif_url env topic in
  if equals_str gif_url FALLBACK_GIF then
    ret (GifResponse.Build topic gif_url (Some FALLBACK_MESSAGE))
  else if negb (truthy gif_url) then
    raise (HTTPException 404
             ("No GIF found for '" +:+ topic +:+ "'. Try another topic!"))
  else ret (GifResponse.Build topic gif_url None).

(** [delete_chat], the handler of [DELETE /chat/delete/{conversation_id}]. *)
Definition delete_chat (conversation_id : string) : M World string :=
  let* w := get in
  match conversations w !! conversation_id with
  | None => raise (HTTPException 404 "Chat not found.")
  | Some _ =>
      modify (fun w => set_conversations (delete conversation_id (conversations w)) w) ;;
      ret ("Chat '" +:+ conversation_id +:+ "' deleted.")
  end.

(** [rename_chat], the handler of [PUT /chat/rename/]. *)
Definition rename_chat (data : RenameChatRequest.t) : M World string :=
  let* w := get in
  match conversations w !! RenameChatRequest.conversation_id data with
  | None => raise (HTTPException 404 "Chat not found.")
  | Some _ =>
      on_conversation (RenameChatRequest.conversation_id data)
        (modify (set_title (RenameChatRequest.new_title data))) ;;
      ret ("Chat renamed to '" +:+ RenameChatRequest.new_title data +:+ "'.")
  end.

(** ** Invariants of the registry *)

(** Every registered conversation satisfies [P]. *)
Definition all_conv (P : Conversation → Prop) (w : World) : Prop :=
  ∀ cid c, conversations w !! cid = Some c → P c.

(** A method that keeps [P]. *)
Definition keeps_conv (P : Conversation → Prop) {A} (m : M Conversation A) : Prop :=
  ∀ c, P c → P (fst (m c)).

(** A computation over the world that keeps [I], whether it returns or
    raises. *)
Definition preserves (I : World → Prop) {A} (m : M World A) : Prop :=
  ∀ w, I w → I (fst (m w)).

(** A property of the world that only reads the registry. *)
Definition registry_only (I : World → Prop) : Prop :=
  ∀ w w', conversations w = conversations w' → I w → I w'.

(** The three words the mood filter drops. *)
Definition fillers : list string := ["a"; "bit"; "feeling"].

(** The first entry of the transcript is the system prompt of the current
    tone, one of the four registered. *)
Definition head_prompt (c : Conversation) : Prop :=
  ∃ prompt, TONE_PROMPTS !! current_tone c = Some prompt
            ∧ head (messages c) = Some (Msg "system" prompt).

(** The memory holds no key but [name] and [mood], and no filler as mood. *)
Definition memory_shape (c : Conversation) : Prop :=
  (∀ key, is_Some (memory c !! key) → key = "name" ∨ key = "mood")
  ∧ (∀ mood, memory c !! "mood" = Some mood → mood ∉ fillers).

(** The history view of a transcript. *)
Definition history_of (l : list Message) : list (string * string) :=
  map (fun msg => (role msg, content msg))
    (filter (fun msg => role msg ∈ ["user"; "assistant"]) l).

(** The first half of the test for a decorated reply. *)
Definition wants_gif (sentiment tone : string) : bool :=
  String.eqb sentiment "positive" || String.eqb tone "funny".

(** The second half: the draw is below 0.3. *)
Definition below_threshold (k : Z) : bool := (10 * k <? 3 * 2 ^ 53)%Z.

(** The reply with the GIF that came back. *)
Definition decorated (env : Env) (response : string) (gif_url : json) : string :=
  if equals_str gif_url FALLBACK_GIF then
    response +:+ nl +:+ FALLBACK_MESSAGE +:+ gif_markdown env gif_url
  else if truthy gif_url then response +:+ gif_markdown env gif_url
  else response.

(** The classifier raises. *)
Definition classifier_down_env : Env := {|
  TENOR_API_KEY := "KEY";
  tenor := fun _ _ => Fails ConnectionError;
  sentiment := fun _ _ => Raises (OtherException "RuntimeError");
  groq := fun _ _ => inr "ok";
  draw := fun _ => (2 ^ 53 - 1)%Z;
  pick := fun _ _ => 0;
  py_str := fun _ => "?"
|}.

(** The completion raises. *)
Definition groq_down_env : Env := {|
  TENOR_API_KEY := "KEY";
  tenor := fun _ _ => Fails ConnectionError;
  sentiment := fun _ _ => Returns "NEGATIVE";
  groq := fun _ _ => inl "rate limit";
  draw := fun _ => (2 ^ 53 - 1)%Z;
  pick := fun _ _ => 0;
  py_str := fun _ => "?"
|}.

(** A positive classifier, a draw of zero, and a search backend with one
    result for every query. *)
Definition happy_env : Env := {|
  TENOR_API_KEY := "KEY";
  tenor := fun _ _ =>
    Answers (Resp 200 (Some (JObj [("results",
      JArr [JObj [("media_formats", JObj [("gif", JObj [("url", JStr "https://t/1.gif")])])]])])));
  sentiment := fun _ _ => Returns "POSITIVE";
  groq := fun _ _ => inr "ok";
  draw := fun _ => 0%Z;
  pick := fun _ _ => 0;
  py_str := fun _ => "?"
|}.

(** The argument of a [/gif] command. *)
Definition gif_argument (message : string) : string :=
  Text.strip (Text.slice_from 5 (Text.strip message)).

(** The reply of the [/gif] command for the value that came back. *)
Definition gif_reply (env : Env) (gif_url : json) : string :=
  if equals_str gif_url FALLBACK_GIF then FALLBACK_MESSAGE +:+ gif_markdown env gif_url
  else if truthy gif_url then "Here's a GIF for you!" +:+ gif_markdown env gif_url
  else "Sorry, couldn't find a suitable GIF for that topic. Try another topic!".

(** The reply of a successful [/tone] command for the value that came
    back. *)
Definition tone_reply (env : Env) (tone : string) (gif_url : json) : string :=
  if equals_str gif_url FALLBACK_GIF then
    "Tone changed to '" +:+ tone +:+ "'" +:+ nl +:+ FALLBACK_MESSAGE
      +:+ gif_markdown env gif_url
  else
    "Tone changed to '" +:+ tone +:+ "'"
      +:+ (if truthy gif_url then gif_markdown env gif_url else "").

(** The celebration of the [/tone] command. *)
Definition celebration (env : Env) (tone : string) : M World json :=
  if String.eqb tone "funny" then get_gif_url env "celebrate" else ret (JStr "").

(** A search backend with one result for the query asked; the fallback
    query is never needed. *)
Definition one_result_env : Env := {|
  TENOR_API_KEY := "KEY";
  tenor := fun n _ =>
    match n with
    | O => Answers (Resp 200 (Some (JObj [("results",
             JArr [JObj [("media_formats", JObj [("gif", JObj [("url", JStr "https://t/1.gif")])])]])])))
    | _ => Fails ConnectionError
    end;
  sentiment := fun _ _ => Returns "NEUTRAL";
  groq := fun _ _ => inr "ok";
  draw := fun _ => (2 ^ 53 - 1)%Z;
  pick := fun _ _ => 0;
  py_str := fun _ => "?"
|}.

(** ** Words *)

(** Every character of the text passes the test. *)
Fixpoint all_chars (ok : ascii → bool) (s : string) : bool :=
  match s with
  | EmptyString => true
  | String c s' => ok c && all_chars ok s'
  end.




(** The conversation registered under [cid] satisfies [P]. *)
Definition conv_at (cid : string) (P : Conversation → Prop) (w : World) : Prop :=
  ∃ c, conversations w !! cid = Some c ∧ P c.

(** ** Tone names as the user may write them *)

(** [c] is [d], or [d] is a lower-case letter and [c] the same letter in
    upper case. *)
Definition case_variant_char (c d : ascii) : bool :=
  Ascii.eqb c d || (Text.is_lower d && (Text.code c + 32 =? Text.code d)%N).

(** [t] spells [name], in any mix of cases. *)
Fixpoint case_variant (t name : string) : bool :=
  match t, name with
  | EmptyString, EmptyString => true
  | String c t', String d name' => case_variant_char c d && case_variant t' name'
  | _, _ => false
  end.

(** A run of ASCII white space. *)
Definition padding (s : string) : Prop := all_chars Text.is_space s = true.

(** [tone] is [name] in some mix of cases, between two runs of white
    space. *)
Definition tone_matches (tone name : string) : Prop :=
  ∃ l t r, tone = l +:+ t +:+ r ∧ padding l ∧ padding r ∧ case_variant t name = true.

(** ** What the search backend sent *)

(** The result list of the answer to the request made at time [n] for [url]:
    [None] when the request raises, when the status is an error status or
    when the body is no JSON object. *)
Definition fetched (env : Env) (n : nat) (url : string) : option json :=
  match tenor env n url with
  | Answers r => results_of r
  | Fails _ => None
  end.

(** The request made at time [n] for [url] gives no result list: it raises
    (a connection error, a time-out, anything), or it is answered with an
    error status, or with a body that is no JSON object. *)
Definition request_fails (env : Env) (n : nat) (url : string) : Prop :=
  (∃ e, tenor env n url = Fails e)
  ∨ (∃ r, tenor env n url = Answers r ∧ (400 ≤ status_code r < 600)%Z)
  ∨ (∃ r, tenor env n url = Answers r ∧ ∀ members, body r ≠ Some (JObj members)).

(** The request made at time [n] for [url] is answered, with nothing under
    [results]. *)
Definition no_results (env : Env) (n : nat) (url : string) : Prop :=
  ∃ g, fetched env n url = Some g ∧ truthy g = false.

(** A search backend that answers every request with status 503. *)
Definition server_error_env : Env := {|
  TENOR_API_KEY := "KEY";
  tenor := fun _ _ => Answers (Resp 503 (Some (JObj [("error", JStr "unavailable")])));
  sentiment := fun _ _ => Returns "NEUTRAL";
  groq := fun _ _ => inr "ok";
  draw := fun _ => (2 ^ 53 - 1)%Z;
  pick := fun _ _ => 0;
  py_str := fun _ => "?"
|}.

(** A result that carries an animated-image URL: a string that is not
    empty. *)
Definition has_gif_url (gif : json) : Prop :=
  ∃ url, gif_url_of gif = Some (JStr url) ∧ url ≠ "".

(** The search backend keeps to its contract: every entry of every result
    list it sends carries an animated-image URL. *)
Definition provider_contract (env : Env) : Prop :=
  ∀ n url items gif,
    fetched env n url = Some (JArr items) → gif ∈ items → has_gif_url gif.

(** [v] is the animated-image URL of an entry of a result list the search
    backend sent. *)
Definition sent_by_backend (env : Env) (v : json) : Prop :=
  ∃ n url items gif,
    fetched env n url = Some (JArr items) ∧ gif ∈ items ∧ gif_url_of gif = Some v.

(** * Properties *)

(** ** The monad *)

Lemma bind_returns {S A B} (m : M S A) (f : A → M S B) s s' a :
  m s = (s', Returns a) → bind m f s = f a s'.
Proof. intros H. unfold bind. by rewrite H. Qed.

Lemma bind_raises {S A B} (m : M S A) (f : A → M S B) s s' e :
  m s = (s', Raises e) → bind m f s = (s', Raises e).
Proof. intros H. unfold bind. by rewrite H. Qed.

Lemma bind_get {S B} (f : S → M S B) s : bind get f s = f s s.
Proof. done. Qed.

Lemma bind_modify {S B} (g : S → S) (f : unit → M S B) s :
  bind (modify g) f s = f tt (g s).
Proof. done. Qed.

Lemma bind_ret {S A B} (a : A) (f : A → M S B) s : bind (ret a) f s = f a s.
Proof. done. Qed.

(** ** Text *)

Lemma app_nil (b : string) : "" +:+ b = b.
Proof. reflexivity. Qed.

Lemma app_cons (x : ascii) (a b : string) : String x a +:+ b = String x (a +:+ b).
Proof. reflexivity. Qed.

Lemma append_assoc (a b c : string) : (a +:+ b) +:+ c = a +:+ (b +:+ c).
Proof. induction a as [| x a IH]; [done |]. by rewrite !app_cons, IH. Qed.

Lemma lower_char_space c : Text.is_space c = true → Text.lower_char c = c.
Proof. by destruct c as [[] [] [] [] [] [] [] []]. Qed.

Lemma is_space_lower_char c : Text.is_space (Text.lower_char c) = Text.is_space c.
Proof. by destruct c as [[] [] [] [] [] [] [] []]. Qed.

Lemma case_variant_char_lower c : case_variant_char c (Text.lower_char c) = true.
Proof. by destruct c as [[] [] [] [] [] [] [] []]. Qed.

Lemma upper_of_lower d :
  Text.is_lower d = true →
  Text.lower_char (Ascii.ascii_of_N (Text.code d - 32)) = d.
Proof. by destruct d as [[] [] [] [] [] [] [] []]. Qed.

Lemma case_variant_char_sound c d :
  case_variant_char c d = true → Text.lower_char d = d → Text.lower_char c = d.
Proof.
  unfold case_variant_char. intros H Hd.
  apply orb_true_iff in H as [H | H].
  - apply Ascii.eqb_eq in H. by subst.
  - apply andb_true_iff in H as [Hlow H]. apply N.eqb_eq in H.
    assert (c = Ascii.ascii_of_N (Text.code d - 32)) as ->.
    { rewrite <- (Ascii.ascii_N_embedding c). f_equal. unfold Text.code in *. lia. }
    by apply upper_of_lower.
Qed.

Lemma lower_app a b : Text.lower (a +:+ b) = Text.lower a +:+ Text.lower b.
Proof.
  induction a as [| x a IH]; [done |].
  rewrite app_cons. simpl. by rewrite IH, app_cons.
Qed.

Lemma lower_padding l : padding l → Text.lower l = l.
Proof.
  unfold padding. induction l as [| x l IH]; [done |]. simpl.
  intros [Hx Hl]%andb_true_iff. by rewrite lower_char_space, IH.
Qed.

Lemma padding_lower l : padding (Text.lower l) → padding l.
Proof.
  unfold padding. induction l as [| x l IH]; [done |]. simpl.
  rewrite is_space_lower_char. intros [Hx Hl]%andb_true_iff.
  rewrite Hx. by apply IH.
Qed.

Lemma lower_case_variant t name :
  case_variant t name = true → Text.lower name = name → Text.lower t = name.
Proof.
  revert name. induction t as [| c t IH]; intros [| d name]; try done.
  simpl. intros [Hc Ht]%andb_true_iff [= Hd Hname].
  f_equal; [by apply case_variant_char_sound | by apply IH].
Qed.

Lemma case_variant_lower t : case_variant t (Text.lower t) = true.
Proof.
  induction t as [| c t IH]; [done |]. simpl.
  by rewrite case_variant_char_lower, IH.
Qed.

Lemma lower_split s a b :
  Text.lower s = a +:+ b →
  ∃ a' b', s = a' +:+ b' ∧ Text.lower a' = a ∧ Text.lower b' = b.
Proof.
  revert s. induction a as [| x a IH]; intros s H.
  - by exists "", s.
  - destruct s as [| c s]; [done |]. rewrite app_cons in H. simpl in H.
    injection H as Hx H.
    apply IH in H as (a' & b' & -> & Ha & Hb).
    exists (String c a'), b'. rewrite app_cons. simpl. by rewrite Hx, Ha.
Qed.

Lemma lstrip_padding l s : padding l → Text.lstrip (l +:+ s) = Text.lstrip s.
Proof.
  unfold padding. induction l as [| x l IH]; [done |]. rewrite app_cons. simpl.
  intros [Hx Hl]%andb_true_iff. rewrite Hx. by apply IH.
Qed.

Lemma lstrip_all_padding r : padding r → Text.lstrip r = "".
Proof.
  unfold padding. induction r as [| x r IH]; [done |]. simpl.
  intros [Hx Hr]%andb_true_iff. rewrite Hx. by apply IH.
Qed.

Lemma rstrip_all_padding r : padding r → Text.rstrip r = "".
Proof.
  unfold padding. induction r as [| x r IH]; [done |]. simpl.
  intros [Hx Hr]%andb_true_iff. by rewrite IH, Hx.
Qed.

Lemma rstrip_padding s r : padding r → Text.rstrip (s +:+ r) = Text.rstrip s.
Proof.
  intros Hr. induction s as [| x s IH].
  - by apply rstrip_all_padding.
  - rewrite app_cons. simpl. by rewrite IH.
Qed.

(** Padding on either side does not change what [strip] gives. *)
Lemma strip_padded l m r :
  padding l → padding r → Text.strip (l +:+ m +:+ r) = Text.strip m.
Proof.
  intros Hl Hr. unfold Text.strip. rewrite lstrip_padding by done.
  induction m as [| x m IH].
  - rewrite app_nil. by rewrite lstrip_all_padding.
  - rewrite app_cons. simpl. destruct (Text.is_space x); [done |].
    rewrite <- app_cons. by rewrite rstrip_padding.
Qed.

Lemma lstrip_decompose s : ∃ l, s = l +:+ Text.lstrip s ∧ padding l.
Proof.
  induction s as [| x s (l & Heq & Hl)]; [by exists "" |]. simpl.
  destruct (Text.is_space x) eqn:Hx.
  - exists (String x l). split; [rewrite app_cons; by rewrite <- Heq |].
    unfold padding in *. simpl. by rewrite Hx.
  - by exists "".
Qed.

Lemma rstrip_decompose s : ∃ r, s = Text.rstrip s +:+ r ∧ padding r.
Proof.
  induction s as [| x s (r & Heq & Hr)]; [by exists "" |]. simpl.
  destruct (Text.rstrip s) as [| y t] eqn:Hs.
  - rewrite app_nil in Heq. subst r. destruct (Text.is_space x) eqn:Hx.
    + exists (String x s). split; [done |]. unfold padding in *. simpl. by rewrite Hx.
    + by exists s.
  - exists r. split; [| done]. rewrite app_cons. f_equal. exact Heq.
Qed.

(** What [strip] removes is padding. *)
Lemma strip_decompose s :
  ∃ l r, s = l +:+ Text.strip s +:+ r ∧ padding l ∧ padding r.
Proof.
  destruct (lstrip_decompose s) as (l & Hl & Hpl).
  destruct (rstrip_decompose (Text.lstrip s)) as (r & Hr & Hpr).
  exists l, r. split; [| done]. unfold Text.strip. by rewrite <- Hr.
Qed.

(** ** Tones *)

Lemma tone_prompt_inv key prompt :
  TONE_PROMPTS !! key = Some prompt →
  (key, prompt) ∈ [
    ("serious", "You are a serious and professional assistant. 📘");
    ("funny", "You are a funny and witty assistant 😂✨");
    ("poetic", "You are a poetic AI who speaks in rhymes 🌸🎵");
    ("dark_humor", "You are a dark-humored assistant 🖤💀🦃")].
Proof. intros H. by apply elem_of_list_to_map_2 in H. Qed.

Lemma tone_prompt_nonempty key prompt :
  TONE_PROMPTS !! key = Some prompt → prompt ≠ "".
Proof.
  intros H%tone_prompt_inv.
  repeat (apply elem_of_cons in H as [H | H]; [by inversion H |]).
  by apply elem_of_nil in H.
Qed.

Lemma set_tone_valid tone prompt c :
  TONE_PROMPTS !! Text.strip (Text.lower tone) = Some prompt →
  set_tone tone c = (retoned (Text.strip (Text.lower tone)) prompt c, Returns tt).
Proof.
  intros H. unfold set_tone. rewrite H.
  destruct prompt as [| a p]; [by apply tone_prompt_nonempty in H |].
  reflexivity.
Qed.

Lemma set_tone_invalid tone c :
  TONE_PROMPTS !! Text.strip (Text.lower tone) = None →
  set_tone tone c = (c, Raises invalid_tone).
Proof. intros H. unfold set_tone. by rewrite H. Qed.

(** The registered names are in lower case and carry no padding. *)
Lemma tone_name_normal name prompt :
  TONE_PROMPTS !! name = Some prompt →
  Text.lower name = name ∧ Text.strip name = name.
Proof.
  intros H%tone_prompt_inv.
  repeat (apply elem_of_cons in H as [H | H]; [by inversion H |]).
  by apply elem_of_nil in H.
Qed.

(** A registered name, in any mix of cases and between any padding, is
    taken for that name. *)
Lemma set_tone_variant name prompt l t r c :
  TONE_PROMPTS !! name = Some prompt →
  padding l → padding r → case_variant t name = true →
  set_tone (l +:+ t +:+ r) c = (retoned name prompt c, Returns tt).
Proof.
  intros Hname Hl Hr Ht.
  destruct (tone_name_normal _ _ Hname) as [Hlow Hstrip].
  assert (Text.strip (Text.lower (l +:+ t +:+ r)) = name) as Hkey.
  { rewrite !lower_app, (lower_padding l), (lower_padding r) by done.
    rewrite (lower_case_variant t name) by done.
    by rewrite strip_padded. }
  rewrite (set_tone_valid _ prompt) by (by rewrite Hkey). by rewrite Hkey.
Qed.

(** A tone taken for a registered name is that name in some mix of cases,
    between two runs of white space. *)
Lemma tone_key_matches tone :
  tone_matches tone (Text.strip (Text.lower tone)).
Proof.
  destruct (strip_decompose (Text.lower tone)) as (l & r & Heq & Hl & Hr).
  apply lower_split in Heq as (l' & rest & -> & Hl' & Hrest).
  apply lower_split in Hrest as (t & r' & -> & Ht & Hr').
  exists l', t, r'. split; [done |].
  split; [by rewrite <- Hl' in Hl; apply padding_lower |].
  split; [by rewrite <- Hr' in Hr; apply padding_lower |].
  rewrite !lower_app in Ht |- *.
  rewrite <- Ht. apply case_variant_lower.
Qed.

(** A spelling of a registered name is taken for that name. *)
Lemma tone_matches_key tone name prompt :
  TONE_PROMPTS !! name = Some prompt → tone_matches tone name →
  Text.strip (Text.lower tone) = name.
Proof.
  intros Hname (l & t & r & -> & Hl & Hr & Ht).
  destruct (tone_name_normal _ _ Hname) as [Hlow Hstrip].
  rewrite !lower_app, (lower_padding l), (lower_padding r) by done.
  rewrite (lower_case_variant t name) by done.
  by rewrite strip_padded.
Qed.

(** The tones [set_tone] refuses are those that spell no registered name. *)
Lemma tone_unmatched tone :
  TONE_PROMPTS !! Text.strip (Text.lower tone) = None
  ↔ ∀ name, is_Some (TONE_PROMPTS !! name) → ¬ tone_matches tone name.
Proof.
  split.
  - intros Hkey name [prompt Hname] Hm.
    rewrite (tone_matches_key _ _ _ Hname Hm) in Hkey. congruence.
  - intros Hno.
    destruct (TONE_PROMPTS !! Text.strip (Text.lower tone)) as [prompt |] eqn:Hkey;
      [| done].
    exfalso. apply (Hno (Text.strip (Text.lower tone))); [by rewrite Hkey |].
    apply tone_key_matches.
Qed.

(** C2. A tone switch is atomic.  For every tone string and every
    conversation, [set_tone] either returns, with the transcript replaced by
    exactly the one system entry that holds the prompt of a registered tone,
    that tone recorded, the flag set and the other fields kept, or raises
    [ValueError] and leaves the object as it was.  Which of the two: a
    registered name in any mix of upper and lower case, between any runs of
    white space, is valid and selects its own prompt; an ASCII tone that is
    no such spelling of any registered name is invalid. *)
Theorem set_tone_atomic (tone : string) (c : Conversation) :
  ((∃ name prompt,
       TONE_PROMPTS !! name = Some prompt
       ∧ set_tone tone c
         = (Conv [Msg "system" prompt] (active c) true name (memory c) (title c),
            Returns tt))
   ∨ set_tone tone c = (c, Raises invalid_tone))
  ∧ (∀ name prompt l t r,
       TONE_PROMPTS !! name = Some prompt →
       padding l → padding r → case_variant t name = true →
       set_tone (l +:+ t +:+ r) c
       = (Conv [Msg "system" prompt] (active c) true name (memory c) (title c),
          Returns tt))
  ∧ (Text.is_ascii tone = true →
     (∀ name, is_Some (TONE_PROMPTS !! name) → ¬ tone_matches tone name) →
     set_tone tone c = (c, Raises invalid_tone)).
Proof.
  split; [| split].
  - destruct (TONE_PROMPTS !! Text.strip (Text.lower tone)) as [prompt |] eqn:Hkey.
    + left. exists (Text.strip (Text.lower tone)), prompt.
      split; [done |]. by apply set_tone_valid.
    + right. by apply set_tone_invalid.
  - intros name prompt l t r Hname Hl Hr Ht. by apply set_tone_variant.
  - intros _ Hno. apply set_tone_invalid. by apply tone_unmatched.
Qed.

(** ["  SeRiOuS"] and a line feed select the serious tone; ["grumpy"] is
    refused. *)
Lemma set_tone_atomic_witness :
  set_tone ("  " +:+ "SeRiOuS" +:+ nl) fresh_conversation
  = (Conv [Msg "system" "You are a serious and professional assistant. 📘"]
       true true "serious" ∅ "New Chat", Returns tt)
  ∧ set_tone "grumpy" fresh_conversation = (fresh_conversation, Raises invalid_tone).
Proof.
  pose proof (set_tone_atomic "grumpy" fresh_conversation) as (_ & Hvalid & Hinvalid).
  split.
  - by apply (Hvalid "serious" _ "  " "SeRiOuS" nl).
  - apply Hinvalid; [reflexivity |]. apply tone_unmatched. reflexivity.
Defined.

(** The four registered tones, in any case and with any padding. *)
Example set_tone_padded :
  set_tone "  FuNNy " (Conv [Msg "user" "hi"] true false "" ∅ "t")
  = (Conv [Msg "system" "You are a funny and witty assistant 😂✨"] true true "funny" ∅ "t",
     Returns tt).
Proof. reflexivity. Qed.

Example set_tone_unknown :
  set_tone "grumpy" (Conv [Msg "user" "hi"] true false "" ∅ "t")
  = (Conv [Msg "user" "hi"] true false "" ∅ "t", Raises invalid_tone).
Proof. reflexivity. Qed.

Example default_conversation :
  Conversation_init "funny" "New Chat" = Returns fresh_conversation.
Proof. reflexivity. Qed.

(** [__init__] returns an object only with its tone set. *)
Lemma Conversation_init_tone_set tone title c :
  Conversation_init tone title = Returns c →
  tone_set c = true ∧ active c = true
  ∧ ∃ prompt, TONE_PROMPTS !! Text.strip (Text.lower tone) = Some prompt
              ∧ messages c = [Msg "system" prompt].
Proof.
  unfold Conversation_init.
  destruct (TONE_PROMPTS !! Text.strip (Text.lower tone)) as [prompt |] eqn:Hkey.
  - rewrite (set_tone_valid _ prompt) by done. intros [= <-]. simpl. eauto.
  - by rewrite set_tone_invalid.
Qed.

(** ** The memory extractor *)

Lemma remember_unfold message c :
  remember message c =
  (let c1 :=
     match Re.search name_pattern message with
     | Some (Some g) => (set_memory (<["name" := Text.capitalize g]> (memory c)) c, Returns tt)
     | Some None => (c, Raises (OtherException "AttributeError"))
     | None => (c, Returns tt)
     end in
   match c1 with
   | (c', Raises e) => (c', Raises e)
   | (c', Returns _) =>
       match Re.search mood_pattern message with
       | Some (Some g) =>
           if bool_decide (Text.lower g ∈ ["a"; "bit"; "feeling"]) then (c', Returns tt)
           else (set_memory (<["mood" := Text.lower g]> (memory c')) c', Returns tt)
       | Some None => (c', Raises (OtherException "AttributeError"))
       | None => (c', Returns tt)
       end
   end).
Proof.
  unfold remember, bind.
  destruct (Re.search name_pattern message) as [[g |] |];
    destruct (Re.search mood_pattern message) as [[g' |] |]; simpl; try done;
    by destruct (bool_decide _).
Qed.

(** [remember] only writes the memory. *)
Lemma remember_frame message c :
  let c' := fst (remember message c) in
  messages c' = messages c ∧ active c' = active c ∧ tone_set c' = tone_set c
  ∧ current_tone c' = current_tone c ∧ title c' = title c.
Proof.
  rewrite remember_unfold.
  destruct (Re.search name_pattern message) as [[g |] |];
    destruct (Re.search mood_pattern message) as [[g' |] |]; simpl; try done;
    by destruct (bool_decide _).
Qed.

(** The mood rule: a captured word that is none of the three fillers is
    stored lower-cased, whatever it is. *)
Lemma remember_mood message g c :
  Re.search name_pattern message = None →
  Re.search mood_pattern message = Some (Some g) →
  Text.lower g ∉ ["a"; "bit"; "feeling"] →
  remember message c = (set_memory (<["mood" := Text.lower g]> (memory c)) c, Returns tt).
Proof.
  intros Hn Hm Hstop. rewrite remember_unfold, Hn, Hm. simpl.
  by rewrite bool_decide_eq_false_2.
Qed.

(** A captured filler is dropped. *)
Lemma remember_filler message g c :
  Re.search name_pattern message = None →
  Re.search mood_pattern message = Some (Some g) →
  Text.lower g ∈ ["a"; "bit"; "feeling"] →
  remember message c = (c, Returns tt).
Proof.
  intros Hn Hm Hstop. rewrite remember_unfold, Hn, Hm. simpl.
  by rewrite bool_decide_eq_true_2.
Qed.

(** C8. The three reference examples of the memory extractor, on any
    conversation: after [remember("my name is Alice")] the memory holds
    [name = "Alice"]; after [remember("I'm feeling sad")] it holds
    [mood = "sad"]; [remember("I am a student")] captures the article ["a"],
    which the filter drops, and leaves the conversation, so its mood, as it
    was. *)
Theorem remember_reference_examples (c : Conversation) :
  memory (fst (remember "my name is Alice" c)) !! "name" = Some "Alice"
  ∧ memory (fst (remember "I'm feeling sad" c)) !! "mood" = Some "sad"
  ∧ Re.search mood_pattern "I am a student" = Some (Some "a")
  ∧ remember "I am a student" c = (c, Returns tt).
Proof.
  split; [| split; [| split]].
  - rewrite remember_unfold.
    replace (Re.search name_pattern "my name is Alice") with (Some (Some "Alice"))
      by (vm_compute; reflexivity).
    replace (Re.search mood_pattern "my name is Alice") with (@None (option string))
      by (vm_compute; reflexivity).
    simpl. apply lookup_insert_eq.
  - rewrite (remember_mood _ "sad"); [apply lookup_insert_eq | | |].
    + vm_compute; reflexivity.
    + vm_compute; reflexivity.
    + intros H. by repeat (apply elem_of_cons in H as [H | H]; [done |]);
        apply elem_of_nil in H.
  - vm_compute; reflexivity.
  - apply (remember_filler _ "a").
    + vm_compute; reflexivity.
    + vm_compute; reflexivity.
    + apply elem_of_cons. by left.
Qed.

(** C9, as the code has it.  [remember("I am a teacher")] captures the
    article ["a"], which the filter drops: the conversation, so its mood, is
    left as it was.  Without the article, [remember("I am teacher")] sets
    the mood to ["teacher"]. *)
Theorem remember_article_blocks_noun (c : Conversation) :
  Re.search mood_pattern "I am a teacher" = Some (Some "a")
  ∧ remember "I am a teacher" c = (c, Returns tt)
  ∧ remember "I am teacher" c
    = (set_memory (<["mood" := "teacher"]> (memory c)) c, Returns tt).
Proof.
  split; [vm_compute; reflexivity |]. split.
  - apply (remember_filler _ "a").
    + vm_compute; reflexivity.
    + vm_compute; reflexivity.
    + apply elem_of_cons. by left.
  - apply (remember_mood _ "teacher").
    + vm_compute; reflexivity.
    + vm_compute; reflexivity.
    + intros H. by repeat (apply elem_of_cons in H as [H | H]; [done |]);
        apply elem_of_nil in H.
Qed.

(** C9, as it is written, fails: on a new conversation,
    [remember("I am a teacher")] does not set the mood to ["teacher"]; it
    sets no mood. *)
Lemma remember_teacher_not_captured :
  ¬ (memory (fst (remember "I am a teacher" fresh_conversation)) !! "mood"
     = Some "teacher")
  ∧ memory (fst (remember "I am a teacher" fresh_conversation)) !! "mood" = None.
Proof.
  rewrite (remember_filler _ "a").
  - split; [intros H |]; by vm_compute in *.
  - vm_compute; reflexivity.
  - vm_compute; reflexivity.
  - apply elem_of_cons. by left.
Qed.

(** ** The registry *)

(** With a registered tone and a free identifier the conversation is
    stored. *)
Lemma new_chat_valid data w prompt :
  conversations w !! NewChatRequest.conversation_id data = None →
  TONE_PROMPTS !! Text.strip (Text.lower (NewChatRequest.tone data)) = Some prompt →
  ∃ msg,
    new_chat data w
    = (set_conversations
         (<[NewChatRequest.conversation_id data :=
              retoned (Text.strip (Text.lower (NewChatRequest.tone data))) prompt
                (blank_conversation (NewChatRequest.title data))]> (conversations w)) w,
       Returns msg).
Proof.
  intros Hfree Htone. unfold new_chat, bind, get. simpl.
  rewrite bool_decide_eq_false_2 by (rewrite Hfree; by intros [? ?]).
  unfold Conversation_init. rewrite (set_tone_valid _ prompt) by done.
  simpl. eauto.
Qed.

(** C10. Creation is atomic with respect to the registry.  For every
    request, [new_chat] either raises and leaves the world, so the
    [conversations] store, exactly as it was, or returns with exactly the new
    conversation, in a registered tone, inserted under the free identifier.
    For an ASCII tone: whenever [__init__] raises, [new_chat] raises, the
    duplicate-id error if the identifier is taken and otherwise the error of
    [__init__], raised before the insertion; and [__init__] raises the tone
    error whenever the tone spells no registered name. *)
Theorem new_chat_invalid_tone_atomic (data : NewChatRequest.t) (w : World) :
  let cid := NewChatRequest.conversation_id data in
  let tone := NewChatRequest.tone data in
  let title := NewChatRequest.title data in
  ((∃ e, new_chat data w = (w, Raises e))
   ∨ (∃ name prompt msg,
        conversations w !! cid = None
        ∧ TONE_PROMPTS !! name = Some prompt
        ∧ new_chat data w
          = (Wld (<[cid := Conv [Msg "system" prompt] true true name ∅ title]>
                    (conversations w)) (events w),
             Returns msg)))
  ∧ (Text.is_ascii tone = true →
     (∀ e, Conversation_init tone title = Raises e →
           new_chat data w
           = (w, Raises (if bool_decide (is_Some (conversations w !! cid))
                         then HTTPException 400 "Chat ID already exists."
                         else e)))
     ∧ ((∀ name, is_Some (TONE_PROMPTS !! name) → ¬ tone_matches tone name) →
        Conversation_init tone title = Raises invalid_tone)).
Proof.
  intros cid tone title. split.
  - destruct (conversations w !! cid) as [c |] eqn:Hc.
    { left. exists (HTTPException 400 "Chat ID already exists.").
      unfold new_chat, bind, get. simpl. fold cid. rewrite Hc.
      by rewrite bool_decide_eq_true_2 by eauto. }
    destruct (TONE_PROMPTS !! Text.strip (Text.lower tone)) as [prompt |] eqn:Hkey.
    + right. destruct (new_chat_valid data w prompt Hc Hkey) as [msg Hrun].
      by exists (Text.strip (Text.lower tone)), prompt, msg.
    + left. exists invalid_tone. unfold new_chat, bind, get. simpl. fold cid.
      rewrite Hc. rewrite bool_decide_eq_false_2 by (by intros [? ?]).
      unfold Conversation_init. fold tone. by rewrite set_tone_invalid.
  - intros _. split.
    + intros e Hinit. unfold new_chat, bind, get. simpl. fold cid tone title.
      case_bool_decide; [done |]. by rewrite Hinit.
    + intros Hno. unfold Conversation_init.
      rewrite set_tone_invalid; [done |]. by apply tone_unmatched.
Qed.

(** The tone ["grumpy"] on an empty registry: the tone error, nothing
    registered. *)
Lemma new_chat_invalid_tone_atomic_witness :
  Conversation_init "grumpy" "Chat" = Raises invalid_tone
  ∧ new_chat (NewChatRequest.Build "c1" "grumpy" "Chat") no_events
    = (no_events, Raises invalid_tone).
Proof.
  destruct (proj2 (new_chat_invalid_tone_atomic
                     (NewChatRequest.Build "c1" "grumpy" "Chat") no_events) eq_refl)
    as [Hraise Hinit].
  assert (Conversation_init "grumpy" "Chat" = Raises invalid_tone) as H.
  { apply Hinit. apply tone_unmatched. reflexivity. }
  split; [exact H |]. exact (Hraise invalid_tone H).
Defined.

(** ** The GIF fetcher *)

Lemma now_log e w : now (log e w) = S (now w).
Proof. unfold now, log. simpl. rewrite length_app. simpl. lia. Qed.

Lemma get_gif_url_try_eq env query w :
  get_gif_url_try env query w =
  (let* gifs := fetch_results env (search_url env (Text.quote (normalize_query query))) in
   let* gifs :=
     (if negb (truthy gifs) then fetch_results env (search_url env "funny") else ret gifs) in
   if truthy gifs then
     let* gif := random_choice env gifs in url_of_result gif
   else ret (JStr FALLBACK_GIF)) w.
Proof.
  unfold get_gif_url_try, fetch_results, url_of_result, normalize_query, bind.
  repeat (match goal with
          | |- context [match ?x with _ => _ end] => destruct x; simpl; try reflexivity
          end).
Qed.

Lemma fetch_results_ok env url w r g :
  tenor env (now w) url = Answers r →
  results_of r = Some g →
  fetch_results env url w = (log (TenorGet url) w, Returns g).
Proof.
  intros Ht Hr. unfold fetch_results, session_get, bind, get, modify. simpl.
  rewrite Ht. unfold results_of in Hr. unfold raise_for_status, ret. simpl.
  destruct ((400 <=? status_code r)%Z && (status_code r <? 600)%Z); [done |].
  unfold response_json.
  destruct (body r) as [[| | | | | members] |]; try done. simpl.
  by injection Hr as <-.
Qed.

Lemma url_of_result_some gif url w :
  gif_url_of gif = Some url → url_of_result gif w = (w, Returns url).
Proof.
  unfold gif_url_of, url_of_result, subscript, bind, ret. intros H.
  destruct gif as [| | | | | members]; try done.
  destruct (assoc "media_formats" members) as [[| | | | | formats] |]; try done.
  destruct (assoc "gif" formats) as [[| | | | | format] |]; try done.
  by rewrite H.
Qed.

Lemma url_of_result_none gif w :
  gif_url_of gif = None → ∃ e, url_of_result gif w = (w, Raises e).
Proof.
  unfold gif_url_of, url_of_result, subscript, bind, ret, raise. intros H.
  destruct gif as [| | | | | members]; eauto.
  destruct (assoc "media_formats" members) as [[| | | | | formats] |]; eauto.
  destruct (assoc "gif" formats) as [[| | | | | format] |]; eauto.
  rewrite H. eauto.
Qed.

(** Whatever the [try] raises, an [except] clause returns the fallback. *)
Lemma get_gif_url_catches env query w w' e :
  get_gif_url_try env query w = (w', Raises e) →
  get_gif_url env query w = (w', Returns (JStr FALLBACK_GIF)).
Proof. intros H. unfold get_gif_url, try_except. rewrite H. by destruct e. Qed.

Lemma get_gif_url_passes env query w w' v :
  get_gif_url_try env query w = (w', Returns v) →
  get_gif_url env query w = (w', Returns v).
Proof. intros H. unfold get_gif_url, try_except. by rewrite H. Qed.

Lemma get_gif_url_returns env query w :
  ∃ v, get_gif_url env query w = (fst (get_gif_url_try env query w), Returns v).
Proof.
  destruct (get_gif_url_try env query w) as [w' [v | e]] eqn:H; simpl.
  - exists v. by apply get_gif_url_passes.
  - exists (JStr FALLBACK_GIF). by apply (get_gif_url_catches _ _ _ _ e).
Qed.

(** *** The registry is out of the fetcher's reach *)

Lemma keeps_ret {A} (a : A) : keeps_registry (ret a).
Proof. by intros w. Qed.

Lemma keeps_raise {A} e : keeps_registry (@raise World A e).
Proof. by intros w. Qed.

Lemma keeps_get : keeps_registry (@get World).
Proof. by intros w. Qed.

Lemma keeps_log e : keeps_registry (modify (log e)).
Proof. by intros w. Qed.

Lemma keeps_bind {A B} (m : M World A) (f : A → M World B) :
  keeps_registry m → (∀ a, keeps_registry (f a)) → keeps_registry (bind m f).
Proof.
  intros Hm Hf w. unfold bind. specialize (Hm w).
  destruct (m w) as [w' [a | e]]; simpl in *; [| done].
  by rewrite Hf.
Qed.

Lemma keeps_try {A} (m : M World A) (h : exn → M World A) :
  keeps_registry m → (∀ e, keeps_registry (h e)) → keeps_registry (try_except m h).
Proof.
  intros Hm Hh w. unfold try_except. specialize (Hm w).
  destruct (m w) as [w' [a | e]]; simpl in *; [done |].
  by rewrite Hh.
Qed.

Lemma keeps_lift {A} (o : outcome A) : keeps_registry (lift_outcome o).
Proof. destruct o; [apply keeps_ret | apply keeps_raise]. Qed.

Create HintDb keeps discriminated.
#[local] Hint Resolve keeps_ret keeps_raise keeps_get keeps_log keeps_lift : keeps.

Ltac keeps_step :=
  first [ solve [auto with keeps]
        | apply keeps_bind; [| intros ?]
        | apply keeps_try; [| intros ?]
        | match goal with
          | |- keeps_registry (match ?x with _ => _ end) => destruct x
          | |- keeps_registry (if ?b then _ else _) => destruct b
          end ].

Lemma keeps_session_get env url : keeps_registry (session_get env url).
Proof. unfold session_get. repeat keeps_step. Qed.

Lemma keeps_raise_for_status r : keeps_registry (raise_for_status r).
Proof. unfold raise_for_status. repeat keeps_step. Qed.

Lemma keeps_response_json r : keeps_registry (response_json r).
Proof. unfold response_json. repeat keeps_step. Qed.

Lemma keeps_dict_get data key default : keeps_registry (dict_get data key default).
Proof. unfold dict_get. repeat keeps_step. Qed.

Lemma keeps_subscript v key : keeps_registry (subscript v key).
Proof. unfold subscript. repeat keeps_step. Qed.

Lemma keeps_random_choice env seq : keeps_registry (random_choice env seq).
Proof. unfold random_choice. repeat keeps_step. Qed.

#[local] Hint Resolve keeps_session_get keeps_raise_for_status keeps_response_json
  keeps_dict_get keeps_subscript keeps_random_choice : keeps.

Lemma keeps_get_gif_url env query : keeps_registry (get_gif_url env query).
Proof. unfold get_gif_url, get_gif_url_try. repeat keeps_step. Qed.

#[local] Hint Resolve keeps_get_gif_url : keeps.

(** *** Exhaustion *)

Lemma fetch_results_fails env url w e :
  tenor env (now w) url = Fails e →
  fetch_results env url w = (log (TenorGet url) w, Raises e).
Proof.
  intros Ht. unfold fetch_results, session_get, bind, get, modify. simpl.
  by rewrite Ht.
Qed.

Lemma fetch_results_bad_status env url w r :
  tenor env (now w) url = Answers r →
  (400 ≤ status_code r < 600)%Z →
  fetch_results env url w = (log (TenorGet url) w, Raises (HTTPError (status_code r))).
Proof.
  intros Ht Hs. unfold fetch_results, session_get, raise_for_status, bind, get, modify.
  simpl. rewrite Ht. simpl.
  replace ((400 <=? status_code r)%Z && (status_code r <? 600)%Z) with true; [done |].
  symmetry. apply andb_true_iff. split; [apply Z.leb_le | apply Z.ltb_lt]; lia.
Qed.

(** The first request fails, with a connection error or any other
    exception: the fallback asset. *)
Lemma get_gif_url_request_fails env query w e :
  tenor env (now w) (search_url env (Text.quote (normalize_query query))) = Fails e →
  get_gif_url env query w
  = (log (TenorGet (search_url env (Text.quote (normalize_query query)))) w,
     Returns (JStr FALLBACK_GIF)).
Proof.
  intros Ht. apply (get_gif_url_catches _ _ _ _ e).
  rewrite get_gif_url_try_eq. by rewrite (bind_raises _ _ _ _ _ (fetch_results_fails _ _ _ _ Ht)).
Qed.

(** The first request is answered with an error status: the fallback
    asset. *)
Lemma get_gif_url_bad_status env query w r :
  tenor env (now w) (search_url env (Text.quote (normalize_query query))) = Answers r →
  (400 ≤ status_code r < 600)%Z →
  get_gif_url env query w
  = (log (TenorGet (search_url env (Text.quote (normalize_query query)))) w,
     Returns (JStr FALLBACK_GIF)).
Proof.
  intros Ht Hs. apply (get_gif_url_catches _ _ _ _ (HTTPError (status_code r))).
  rewrite get_gif_url_try_eq.
  by rewrite (bind_raises _ _ _ _ _ (fetch_results_bad_status _ _ _ _ Ht Hs)).
Qed.

(** Both queries answered, both without results. *)
Lemma get_gif_url_try_no_results env query w r1 g1 r2 g2 :
  tenor env (now w) (search_url env (Text.quote (normalize_query query))) = Answers r1 →
  results_of r1 = Some g1 → truthy g1 = false →
  tenor env (S (now w)) (search_url env "funny") = Answers r2 →
  results_of r2 = Some g2 → truthy g2 = false →
  get_gif_url_try env query w
  = (log (TenorGet (search_url env "funny"))
       (log (TenorGet (search_url env (Text.quote (normalize_query query)))) w),
     Returns (JStr FALLBACK_GIF)).
Proof.
  intros Ht1 Hr1 Hg1 Ht2 Hr2 Hg2. rewrite get_gif_url_try_eq.
  rewrite (bind_returns _ _ _ _ _ (fetch_results_ok _ _ _ _ _ Ht1 Hr1)).
  rewrite Hg1. simpl.
  rewrite <- now_log with (e := TenorGet (search_url env (Text.quote (normalize_query query))))
    in Ht2.
  rewrite (bind_returns _ _ _ _ _ (fetch_results_ok _ _ _ _ _ Ht2 Hr2)).
  by rewrite Hg2.
Qed.

(** Each of the two requests, in terms of what the backend sent. *)
Lemma fetch_results_some env url w g :
  fetched env (now w) url = Some g →
  fetch_results env url w = (log (TenorGet url) w, Returns g).
Proof.
  unfold fetched. intros H.
  destruct (tenor env (now w) url) as [e | r] eqn:Ht; [done |].
  by apply (fetch_results_ok _ _ _ r).
Qed.

Lemma fetch_results_none env url w :
  fetched env (now w) url = None →
  ∃ e, fetch_results env url w = (log (TenorGet url) w, Raises e).
Proof.
  unfold fetched, results_of. intros H.
  unfold fetch_results, session_get, raise_for_status, response_json, dict_get,
    bind, get, modify, raise, ret. simpl.
  destruct (tenor env (now w) url) as [e | r]; [eauto |]. simpl.
  destruct ((400 <=? status_code r)%Z && (status_code r <? 600)%Z); [eauto |].
  destruct (body r) as [[| | | | | members] |]; by eauto.
Qed.

Lemma request_fails_fetched env n url :
  request_fails env n url ↔ fetched env n url = None.
Proof.
  unfold request_fails, fetched, results_of. split.
  - intros [[e ->] | [(r & -> & Hs) | (r & -> & Hb)]]; [done | |].
    + replace ((400 <=? status_code r)%Z && (status_code r <? 600)%Z) with true; [done |].
      symmetry. apply andb_true_iff. split; [apply Z.leb_le | apply Z.ltb_lt]; lia.
    + destruct ((400 <=? status_code r)%Z && (status_code r <? 600)%Z); [done |].
      destruct (body r) as [[| | | | | members] |]; try done. by destruct (Hb members).
  - destruct (tenor env n url) as [e | r]; [by left; exists e |].
    destruct ((400 <=? status_code r)%Z && (status_code r <? 600)%Z) eqn:Hs.
    + intros _. right. left. exists r. split; [done |].
      apply andb_true_iff in Hs as [?%Z.leb_le ?%Z.ltb_lt]. lia.
    + intros Hb. right. right. exists r. split; [done |].
      intros members Hm. by rewrite Hm in Hb.
Qed.

(** What the random choice and the three subscripts return comes from the
    list they were given. *)
Lemma choice_returns env gifs w w' v :
  (let* gif := random_choice env gifs in url_of_result gif) w = (w', Returns v) →
  ∃ items gif, gifs = JArr items ∧ gif ∈ items ∧ gif_url_of gif = Some v.
Proof.
  unfold random_choice, bind, get, modify, raise, ret.
  destruct gifs as [| | | s | items | members]; simpl; try done.
  destruct (items !! _) as [gif |] eqn:Hgif; [| done].
  intros H. exists items, gif. split; [done |].
  split; [by eapply list_elem_of_lookup_2 |].
  destruct (gif_url_of gif) as [url |] eqn:Hurl.
  - rewrite (url_of_result_some _ _ _ Hurl) in H. congruence.
  - destruct (url_of_result_none gif (log (RandomChoice (length items)) w) Hurl) as [e He].
    rewrite He in H. congruence.
Qed.

(** What [get_gif_url] returns is the fixed asset or a URL the backend
    sent. *)
Lemma get_gif_url_provenance env query w w' v :
  get_gif_url env query w = (w', Returns v) →
  v = JStr FALLBACK_GIF ∨ sent_by_backend env v.
Proof.
  unfold get_gif_url, try_except.
  destruct (get_gif_url_try env query w) as [w1 [v1 | e]] eqn:Htry.
  2: { intros H. left. destruct e; by injection H as _ <-. }
  intros [= -> ->]. rewrite get_gif_url_try_eq in Htry.
  set (u1 := search_url env (Text.quote (normalize_query query))) in *.
  set (u2 := search_url env "funny") in *.
  destruct (fetched env (now w) u1) as [g1 |] eqn:H1.
  2: { destruct (fetch_results_none _ _ _ H1) as [e He].
       by rewrite (bind_raises _ _ _ _ _ He) in Htry. }
  rewrite (bind_returns _ _ _ _ _ (fetch_results_some _ _ _ _ H1)) in Htry.
  destruct (truthy g1) eqn:Hg1; simpl in Htry.
  - unfold bind at 1, ret at 1 in Htry. rewrite Hg1 in Htry.
    apply choice_returns in Htry as (items & gif & -> & Hin & Hurl).
    right. by exists (now w), u1, items, gif.
  - destruct (fetched env (now (log (TenorGet u1) w)) u2) as [g2 |] eqn:H2.
    2: { destruct (fetch_results_none _ _ _ H2) as [e He].
         by rewrite (bind_raises _ _ _ _ _ He) in Htry. }
    rewrite (bind_returns _ _ _ _ _ (fetch_results_some _ _ _ _ H2)) in Htry.
    destruct (truthy g2) eqn:Hg2.
    + apply choice_returns in Htry as (items & gif & -> & Hin & Hurl).
      right. by exists (now (log (TenorGet u1) w)), u2, items, gif.
    + left. by injection Htry as _ <-.
Qed.

(** The first request gives no result list. *)
Lemma get_gif_url_first_fails env query w :
  fetched env (now w) (search_url env (Text.quote (normalize_query query))) = None →
  get_gif_url env query w
  = (log (TenorGet (search_url env (Text.quote (normalize_query query)))) w,
     Returns (JStr FALLBACK_GIF)).
Proof.
  intros H1. destruct (fetch_results_none _ _ _ H1) as [e He].
  apply (get_gif_url_catches _ _ _ _ e).
  rewrite get_gif_url_try_eq. by rewrite (bind_raises _ _ _ _ _ He).
Qed.

(** The first request is answered without results, the second gives no
    result list. *)
Lemma get_gif_url_second_fails env query w g1 :
  fetched env (now w) (search_url env (Text.quote (normalize_query query))) = Some g1 →
  truthy g1 = false →
  fetched env (S (now w)) (search_url env "funny") = None →
  get_gif_url env query w
  = (log (TenorGet (search_url env "funny"))
       (log (TenorGet (search_url env (Text.quote (normalize_query query)))) w),
     Returns (JStr FALLBACK_GIF)).
Proof.
  intros H1 Hg1 H2.
  rewrite <- now_log with (e := TenorGet (search_url env (Text.quote (normalize_query query))))
    in H2.
  destruct (fetch_results_none _ _ _ H2) as [e He].
  apply (get_gif_url_catches _ _ _ _ e).
  rewrite get_gif_url_try_eq.
  rewrite (bind_returns _ _ _ _ _ (fetch_results_some _ _ _ _ H1)).
  rewrite Hg1. simpl. by rewrite (bind_raises _ _ _ _ _ He).
Qed.

(** Both requests are answered without results. *)
Lemma get_gif_url_both_empty env query w g1 g2 :
  fetched env (now w) (search_url env (Text.quote (normalize_query query))) = Some g1 →
  truthy g1 = false →
  fetched env (S (now w)) (search_url env "funny") = Some g2 →
  truthy g2 = false →
  get_gif_url env query w
  = (log (TenorGet (search_url env "funny"))
       (log (TenorGet (search_url env (Text.quote (normalize_query query)))) w),
     Returns (JStr FALLBACK_GIF)).
Proof.
  intros H1 Hg1 H2 Hg2.
  rewrite <- now_log with (e := TenorGet (search_url env (Text.quote (normalize_query query))))
    in H2.
  apply get_gif_url_passes. rewrite get_gif_url_try_eq.
  rewrite (bind_returns _ _ _ _ _ (fetch_results_some _ _ _ _ H1)).
  rewrite Hg1. simpl.
  rewrite (bind_returns _ _ _ _ _ (fetch_results_some _ _ _ _ H2)).
  by rewrite Hg2.
Qed.

(** The choice among the entries of a list that is not empty. *)
Lemma choice_run env items gif w :
  items !! (pick env (now w) (length items) `mod` length items) = Some gif →
  (let* gif := random_choice env (JArr items) in url_of_result gif) w
  = url_of_result gif (log (RandomChoice (length items)) w).
Proof.
  intros Hgif. unfold random_choice, bind, get, modify. simpl. by rewrite Hgif.
Qed.

Lemma lookup_truthy items (i : nat) (gif : json) :
  items !! i = Some gif → truthy (JArr items) = true.
Proof. by destruct items. Qed.

(** What comes back when the results of the first request are chosen
    from. *)
Lemma get_gif_url_first_pick env query w items gif :
  fetched env (now w) (search_url env (Text.quote (normalize_query query)))
  = Some (JArr items) →
  items !! (pick env (S (now w)) (length items) `mod` length items) = Some gif →
  get_gif_url env query w
  = (log (RandomChoice (length items))
       (log (TenorGet (search_url env (Text.quote (normalize_query query)))) w),
     Returns (match gif_url_of gif with
              | Some url => url
              | None => JStr FALLBACK_GIF
              end)).
Proof.
  intros H1 Hgif.
  set (u1 := search_url env (Text.quote (normalize_query query))) in *.
  assert (Htry : get_gif_url_try env query w =
                 url_of_result gif (log (RandomChoice (length items)) (log (TenorGet u1) w))).
  { rewrite get_gif_url_try_eq. fold u1.
    rewrite (bind_returns _ _ _ _ _ (fetch_results_some _ _ _ _ H1)).
    rewrite (lookup_truthy _ _ _ Hgif). cbn [negb]. rewrite bind_ret.
    rewrite (lookup_truthy _ _ _ Hgif).
    apply choice_run. by rewrite now_log. }
  destruct (gif_url_of gif) as [url |] eqn:Hurl.
  - apply get_gif_url_passes. rewrite Htry. by apply url_of_result_some.
  - destruct (url_of_result_none gif
               (log (RandomChoice (length items)) (log (TenorGet u1) w)) Hurl) as [e He].
    apply (get_gif_url_catches _ _ _ _ e). by rewrite Htry.
Qed.

(** The same for the results of the fallback request. *)
Lemma get_gif_url_second_pick env query w g1 items gif :
  fetched env (now w) (search_url env (Text.quote (normalize_query query))) = Some g1 →
  truthy g1 = false →
  fetched env (S (now w)) (search_url env "funny") = Some (JArr items) →
  items !! (pick env (S (S (now w))) (length items) `mod` length items) = Some gif →
  get_gif_url env query w
  = (log (RandomChoice (length items))
       (log (TenorGet (search_url env "funny"))
          (log (TenorGet (search_url env (Text.quote (normalize_query query)))) w)),
     Returns (match gif_url_of gif with
              | Some url => url
              | None => JStr FALLBACK_GIF
              end)).
Proof.
  intros H1 Hg1 H2 Hgif.
  set (u1 := search_url env (Text.quote (normalize_query query))) in *.
  set (u2 := search_url env "funny") in *.
  assert (Htry : get_gif_url_try env query w =
                 url_of_result gif
                   (log (RandomChoice (length items)) (log (TenorGet u2) (log (TenorGet u1) w)))).
  { rewrite get_gif_url_try_eq. fold u1 u2.
    rewrite (bind_returns _ _ _ _ _ (fetch_results_some _ _ _ _ H1)).
    rewrite Hg1. cbn [negb].
    rewrite <- (now_log (TenorGet u1)) in H2.
    rewrite (bind_returns _ _ _ _ _ (fetch_results_some _ _ _ _ H2)).
    rewrite (lookup_truthy _ _ _ Hgif).
    apply choice_run. by rewrite !now_log. }
  destruct (gif_url_of gif) as [url |] eqn:Hurl.
  - apply get_gif_url_passes. rewrite Htry. by apply url_of_result_some.
  - destruct (url_of_result_none gif
               (log (RandomChoice (length items)) (log (TenorGet u2) (log (TenorGet u1) w)))
               Hurl) as [e He].
    apply (get_gif_url_catches _ _ _ _ e). by rewrite Htry.
Qed.

(** C6. The fetcher is total toward its callers.  For every environment,
    query and world, [get_gif_url] returns and raises nothing, and it leaves
    the registry alone.  What it returns is the fixed fallback asset or the
    animated-image URL of an entry of a result list the search backend sent,
    so a non-empty string whenever the backend keeps to its contract.  On
    exhaustion it is the fixed fallback asset: when the request for the
    query raises, is answered with an error status or carries no JSON
    object; when the query has no results and the request for the fallback
    query fails in one of these ways; when both are answered without
    results.  When a result list is not empty, the value is the URL of the
    entry chosen, and again the fixed fallback asset if that entry has none,
    so that a subscript raises.  The requests are named for an ASCII
    query. *)
Theorem get_gif_url_total (env : Env) (query : string) (w : World) :
  (∃ v w', get_gif_url env query w = (w', Returns v)
           ∧ conversations w' = conversations w
           ∧ (v = JStr FALLBACK_GIF ∨ sent_by_backend env v)
           ∧ (provider_contract env → ∃ url, v = JStr url ∧ url ≠ ""))
  ∧ (Text.is_ascii query = true →
     let first := search_url env (Text.quote (normalize_query query)) in
     let second := search_url env "funny" in
     (request_fails env (now w) first →
      get_gif_url env query w = (log (TenorGet first) w, Returns (JStr FALLBACK_GIF)))
     ∧ (no_results env (now w) first → request_fails env (S (now w)) second →
        get_gif_url env query w
        = (log (TenorGet second) (log (TenorGet first) w), Returns (JStr FALLBACK_GIF)))
     ∧ (no_results env (now w) first → no_results env (S (now w)) second →
        get_gif_url env query w
        = (log (TenorGet second) (log (TenorGet first) w), Returns (JStr FALLBACK_GIF)))
     ∧ (∀ items gif,
          fetched env (now w) first = Some (JArr items) →
          items !! (pick env (S (now w)) (length items) `mod` length items) = Some gif →
          get_gif_url env query w
          = (log (RandomChoice (length items)) (log (TenorGet first) w),
             Returns (match gif_url_of gif with
                      | Some url => url
                      | None => JStr FALLBACK_GIF
                      end)))
     ∧ (∀ items gif,
          no_results env (now w) first →
          fetched env (S (now w)) second = Some (JArr items) →
          items !! (pick env (S (S (now w))) (length items) `mod` length items) = Some gif →
          get_gif_url env query w
          = (log (RandomChoice (length items))
               (log (TenorGet second) (log (TenorGet first) w)),
             Returns (match gif_url_of gif with
                      | Some url => url
                      | None => JStr FALLBACK_GIF
                      end)))).
Proof.
  split.
  - destruct (get_gif_url_returns env query w) as [v Hv].
    exists v, (fst (get_gif_url_try env query w)). split; [done |].
    split; [pose proof (keeps_get_gif_url env query w) as Hk; by rewrite Hv in Hk |].
    pose proof (get_gif_url_provenance _ _ _ _ _ Hv) as Hfrom.
    split; [done |]. intros Hcontract.
    destruct Hfrom as [-> | (n & url & items & gif & Hsent & Hin & Hurl)].
    + by exists FALLBACK_GIF.
    + destruct (Hcontract _ _ _ _ Hsent Hin) as (s & Hs & Hne).
      exists s. split; [congruence | done].
  - intros _ first second. split; [| split; [| split; [| split]]].
    + intros H1%request_fails_fetched. by apply get_gif_url_first_fails.
    + intros (g1 & H1 & Hg1) H2%request_fails_fetched.
      by apply (get_gif_url_second_fails _ _ _ g1).
    + intros (g1 & H1 & Hg1) (g2 & H2 & Hg2).
      by apply (get_gif_url_both_empty _ _ _ g1 g2).
    + intros items gif H1 Hgif. by apply get_gif_url_first_pick.
    + intros items gif (g1 & H1 & Hg1) H2 Hgif.
      by apply (get_gif_url_second_pick _ _ _ g1).
Qed.

(** A backend where every request raises, one that answers 503, and one
    that has no result for any query. *)
Lemma get_gif_url_total_witness :
  get_gif_url offline_env "Cats " no_events
  = (Wld ∅ [TenorGet "https://api.tenor.com/v2/search?key=KEY&q=cats&limit=5&contentfilter=medium"],
     Returns (JStr FALLBACK_GIF))
  ∧ get_gif_url server_error_env "Cats " no_events
    = (Wld ∅ [TenorGet "https://api.tenor.com/v2/search?key=KEY&q=cats&limit=5&contentfilter=medium"],
       Returns (JStr FALLBACK_GIF))
  ∧ get_gif_url empty_results_env "Cats " no_events
    = (Wld ∅ [TenorGet "https://api.tenor.com/v2/search?key=KEY&q=cats&limit=5&contentfilter=medium";
              TenorGet "https://api.tenor.com/v2/search?key=KEY&q=funny&limit=5&contentfilter=medium"],
       Returns (JStr FALLBACK_GIF)).
Proof.
  split; [| split].
  - apply (proj1 (proj2 (get_gif_url_total offline_env "Cats " no_events) eq_refl)).
    left. by exists ConnectionError.
  - apply (proj1 (proj2 (get_gif_url_total server_error_env "Cats " no_events) eq_refl)).
    right. left. eexists. split; [reflexivity |]. simpl. lia.
  - apply (proj1 (proj2 (proj2 (proj2 (get_gif_url_total empty_results_env "Cats "
                                         no_events) eq_refl))));
      by exists (JArr []).
Defined.

(** *** The fallback query *)

(** C7, as the code has it.  For an ASCII query answered without results,
    when the fallback query (the literal ["funny"], with the same [limit=5])
    is answered with a non-empty list of at most 5 entries, each with an
    animated-image URL, [get_gif_url] takes the entry at the index the
    generator draws among them and returns the URL of that entry; the
    [except] clauses are not reached.  The value is the fixed asset exactly
    when that URL is the very string of the fixed asset. *)
Theorem fallback_query_candidate (env : Env) (query : string) (w : World)
    (r1 r2 : Response) (g1 : json) (items : list json) :
  Text.is_ascii query = true →
  tenor env (now w) (search_url env (Text.quote (normalize_query query))) = Answers r1 →
  results_of r1 = Some g1 → truthy g1 = false →
  tenor env (S (now w)) (search_url env "funny") = Answers r2 →
  results_of r2 = Some (JArr items) → items ≠ [] → (length items ≤ 5)%nat →
  Forall has_gif_url items →
  ∃ i gif url,
    i = pick env (S (S (now w))) (length items) `mod` length items
    ∧ i < 5
    ∧ items !! i = Some gif
    ∧ gif_url_of gif = Some (JStr url) ∧ url ≠ ""
    ∧ get_gif_url env query w
      = (log (RandomChoice (length items))
           (log (TenorGet (search_url env "funny"))
              (log (TenorGet (search_url env (Text.quote (normalize_query query)))) w)),
         Returns (JStr url))
    ∧ (equals_str (JStr url) FALLBACK_GIF = true ↔ url = FALLBACK_GIF).
Proof.
  intros _ Ht1 Hr1 Hg1 Ht2 Hr2 Hne Hlen Hall.
  set (u1 := search_url env (Text.quote (normalize_query query))) in *.
  set (u2 := search_url env "funny") in *.
  assert (Hlt : pick env (S (S (now w))) (length items) `mod` length items < length items).
  { apply Nat.mod_upper_bound. destruct items; [done | simpl; lia]. }
  destruct (lookup_lt_is_Some_2 _ _ Hlt) as [gif Hgif].
  assert (has_gif_url gif) as (url & Hurl & Hurl_ne).
  { rewrite Forall_forall in Hall. apply Hall. by eapply list_elem_of_lookup_2. }
  exists (pick env (S (S (now w))) (length items) `mod` length items), gif, url.
  split; [done |]. split; [lia |]. split; [done |]. split; [done |]. split; [done |].
  split.
  - apply get_gif_url_passes. rewrite get_gif_url_try_eq. fold u1 u2.
    rewrite (bind_returns _ _ _ _ _ (fetch_results_ok _ _ _ _ _ Ht1 Hr1)).
    rewrite Hg1. simpl.
    rewrite <- (now_log (TenorGet u1)) in Ht2.
    rewrite (bind_returns _ _ _ _ _ (fetch_results_ok _ _ _ _ _ Ht2 Hr2)).
    replace (truthy (JArr items)) with true by (by destruct items).
    unfold random_choice, bind, get, modify. simpl.
    rewrite !now_log, Hgif. by apply url_of_result_some.
  - simpl. apply String.eqb_eq.
Qed.

Lemma fallback_query_candidate_witness :
  get_gif_url fallback_results_env "Cats " no_events
  = (Wld ∅ [TenorGet "https://api.tenor.com/v2/search?key=KEY&q=cats&limit=5&contentfilter=medium";
            TenorGet "https://api.tenor.com/v2/search?key=KEY&q=funny&limit=5&contentfilter=medium";
            RandomChoice 2],
     Returns (JStr "https://t/2.gif")).
Proof.
  destruct (fallback_query_candidate fallback_results_env "Cats " no_events
              (Resp 200 (Some (JObj [("results", JArr [])])))
              (Resp 200 (Some (JObj [("results",
                 JArr [JObj [("media_formats", JObj [("gif", JObj [("url", JStr "https://t/1.gif")])])];
                       JObj [("media_formats", JObj [("gif", JObj [("url", JStr "https://t/2.gif")])])]])])))
              (JArr [])
              [JObj [("media_formats", JObj [("gif", JObj [("url", JStr "https://t/1.gif")])])];
               JObj [("media_formats", JObj [("gif", JObj [("url", JStr "https://t/2.gif")])])]]
              eq_refl eq_refl eq_refl eq_refl eq_refl eq_refl ltac:(discriminate)
              ltac:(simpl; lia)
              ltac:(repeat constructor; eexists; (split; [reflexivity | discriminate])))
    as (i & gif & url & -> & _ & Hgif & Hurl & _ & Hrun & _).
  vm_compute in Hgif. injection Hgif as <-.
  vm_compute in Hurl. injection Hurl as <-. exact Hrun.
Defined.

(** C7, as it is written, fails.  The query has no result; the fallback
    query has one, which carries an animated-image URL: the very string of
    the fixed asset.  No [except] clause is reached, and yet the value
    returned is the fixed fallback asset, and [get_gif], which compares by
    value, reports the fallback. *)
Lemma fallback_candidate_is_fixed_asset :
  fetched same_url_env 0
    "https://api.tenor.com/v2/search?key=KEY&q=cats&limit=5&contentfilter=medium"
  = Some (JArr [])
  ∧ fetched same_url_env 1
      "https://api.tenor.com/v2/search?key=KEY&q=funny&limit=5&contentfilter=medium"
    = Some (JArr [JObj [("media_formats",
                         JObj [("gif", JObj [("url", JStr FALLBACK_GIF)])])]])
  ∧ get_gif_url_try same_url_env "cats" no_events
    = (Wld ∅ [TenorGet "https://api.tenor.com/v2/search?key=KEY&q=cats&limit=5&contentfilter=medium";
              TenorGet "https://api.tenor.com/v2/search?key=KEY&q=funny&limit=5&contentfilter=medium";
              RandomChoice 1],
       Returns (JStr FALLBACK_GIF))
  ∧ snd (get_gif_url same_url_env "cats" no_events) = Returns (JStr FALLBACK_GIF)
  ∧ snd (get_gif same_url_env id "cats" no_events)
    = Returns (GifResponse.Build "cats" (JStr FALLBACK_GIF) (Some FALLBACK_MESSAGE)).
Proof. repeat split. Qed.

(** A result without a [gif] format: the subscript raises, the last
    [except] clause catches it, and the fixed fallback asset is returned. *)
Example result_without_gif_format :
  get_gif_url no_gif_format_env "cats" no_events
  = (Wld ∅ [TenorGet "https://api.tenor.com/v2/search?key=KEY&q=cats&limit=5&contentfilter=medium";
            TenorGet "https://api.tenor.com/v2/search?key=KEY&q=funny&limit=5&contentfilter=medium";
            RandomChoice 1],
     Returns (JStr FALLBACK_GIF)).
Proof. reflexivity. Qed.

(** ** The registry as a store of objects *)

Lemma upd_id cid c w : conversations w !! cid = Some c → upd cid c w = w.
Proof.
  intros H. destruct w as [m evs]. unfold upd, set_conversations. simpl in *.
  by rewrite insert_id.
Qed.

Lemma lookup_upd cid c w : conversations (upd cid c w) !! cid = Some c.
Proof. unfold upd. simpl. apply lookup_insert_eq. Qed.

Lemma lookup_upd_ne cid cid' c w :
  cid ≠ cid' → conversations (upd cid c w) !! cid' = conversations w !! cid'.
Proof. intros H. unfold upd. simpl. by apply lookup_insert_ne. Qed.

Lemma upd_upd cid c1 c2 w : upd cid c2 (upd cid c1 w) = upd cid c2 w.
Proof. unfold upd, set_conversations. simpl. by rewrite insert_insert_eq. Qed.

Lemma events_upd cid c w : events (upd cid c w) = events w.
Proof. done. Qed.

Lemma now_upd cid c w : now (upd cid c w) = now w.
Proof. done. Qed.

Lemma conversations_log e w : conversations (log e w) = conversations w.
Proof. done. Qed.

Lemma on_conversation_run {A} cid (m : M Conversation A) w c :
  conversations w !! cid = Some c →
  on_conversation cid m w = (upd cid (fst (m c)) w, snd (m c)).
Proof. intros H. unfold on_conversation. rewrite H. by destruct (m c). Qed.

Lemma on_conversation_modify cid f w c :
  conversations w !! cid = Some c →
  on_conversation cid (modify f) w = (upd cid (f c) w, Returns tt).
Proof. intros H. by rewrite (on_conversation_run _ _ _ c). Qed.

Lemma attr_run {A} cid (f : Conversation → A) w c :
  conversations w !! cid = Some c → attr cid f w = (w, Returns (f c)).
Proof.
  intros H. unfold attr. rewrite (on_conversation_run _ _ _ c) by done.
  simpl. by rewrite upd_id.
Qed.

Lemma keeps_attr {A} cid (f : Conversation → A) : keeps_registry (attr cid f).
Proof.
  intros w. destruct (conversations w !! cid) as [c |] eqn:H.
  - by rewrite (attr_run _ _ _ c).
  - unfold attr, on_conversation. by rewrite H.
Qed.

#[local] Hint Resolve keeps_attr : keeps.

Lemma get_or_create_run cid w :
  get_or_create_conversation cid w = (upd cid (conversation_for cid w) w, Returns tt).
Proof.
  unfold get_or_create_conversation, conversation_for, bind, get. simpl.
  destruct (conversations w !! cid) as [c |] eqn:H.
  - by rewrite upd_id.
  - reflexivity.
Qed.

Lemma conversation_for_registered cid w c :
  conversations w !! cid = Some c → conversation_for cid w = c.
Proof. intros H. unfold conversation_for. by rewrite H. Qed.

(** ** The onboarding gate *)

Lemma is_command_false message :
  is_command message = false →
  Text.startswith "/gif" (Text.lower (Text.strip message)) = false
  ∧ Text.startswith "/tone" (Text.lower (Text.strip message)) = false.
Proof. unfold is_command. by intros H%orb_false_iff. Qed.

(** ** Group 1 of a match *)

Section Groups.

Import Re.

Lemma repeat_greedy_from_cont step n :
  from_cont step → from_cont (repeat_greedy n step).
Proof.
  intros Hstep. induction n as [| n IH]; intros k cur cap res H; simpl in H.
  - eauto.
  - destruct (step _ cur cap) as [res' |] eqn:E.
    + injection H as ->. apply Hstep in E as (cur' & cap' & E).
      destruct (pos cur <? pos cur')%nat; [| done]. by apply IH in E.
    + eauto.
Qed.

Lemma repeat_greedy_keeps_group step n :
  keeps_group step → keeps_group (repeat_greedy n step).
Proof.
  intros Hstep. induction n as [| n IH]; intros k cur g res H; simpl in H.
  - eauto.
  - destruct (step _ cur (Some g)) as [res' |] eqn:E.
    + injection H as ->. apply Hstep in E as (cur' & g' & E).
      destruct (pos cur <? pos cur')%nat; [| done]. by apply IH in E.
    + eauto.
Qed.

Lemma one_char_from_cont ok : from_cont (one_char ok).
Proof.
  intros k cur cap res H. unfold one_char in H.
  destruct (rest cur) as [| c s']; [done |]. destruct (ok c); [eauto | done].
Qed.

Lemma one_char_keeps_group ok : keeps_group (one_char ok).
Proof.
  intros k cur g res H. unfold one_char in H.
  destruct (rest cur) as [| c s']; [done |]. destruct (ok c); [eauto | done].
Qed.

Lemma run_from_cont r : from_cont (run r).
Proof.
  induction r as [| c | | | | r1 IH1 r2 IH2 | r1 IH1 r2 IH2 | r1 IH1 | r1 IH1 | r1 IH1 | r1 IH1];
    intros k cur cap res H; simpl in H.
  - eauto.
  - by apply one_char_from_cont in H.
  - by apply one_char_from_cont in H.
  - by apply one_char_from_cont in H.
  - destruct (xorb _ _); [eauto | done].
  - apply IH1 in H as (cur1 & cap1 & H). by apply IH2 in H.
  - destruct (run r1 k cur cap) as [res' |] eqn:E.
    + injection H as ->. by apply IH1 in E.
    + by apply IH2 in H.
  - destruct (run r1 k cur cap) as [res' |] eqn:E.
    + injection H as ->. by apply IH1 in E.
    + eauto.
  - by apply (repeat_greedy_from_cont _ _ IH1) in H.
  - apply IH1 in H as (cur1 & cap1 & H).
    by apply (repeat_greedy_from_cont _ _ IH1) in H.
  - apply IH1 in H as (cur1 & cap1 & H). eauto.
Qed.

Lemma run_keeps_group r : keeps_group (run r).
Proof.
  induction r as [| c | | | | r1 IH1 r2 IH2 | r1 IH1 r2 IH2 | r1 IH1 | r1 IH1 | r1 IH1 | r1 IH1];
    intros k cur g res H; simpl in H.
  - eauto.
  - by apply one_char_keeps_group in H.
  - by apply one_char_keeps_group in H.
  - by apply one_char_keeps_group in H.
  - destruct (xorb _ _); [eauto | done].
  - apply IH1 in H as (cur1 & g1 & H). by apply IH2 in H.
  - destruct (run r1 k cur (Some g)) as [res' |] eqn:E.
    + injection H as ->. by apply IH1 in E.
    + by apply IH2 in H.
  - destruct (run r1 k cur (Some g)) as [res' |] eqn:E.
    + injection H as ->. by apply IH1 in E.
    + eauto.
  - by apply (repeat_greedy_keeps_group _ _ IH1) in H.
  - apply IH1 in H as (cur1 & g1 & H).
    by apply (repeat_greedy_keeps_group _ _ IH1) in H.
  - apply IH1 in H as (cur1 & g1 & H). eauto.
Qed.

Lemma run_sets_group r :
  crosses_group r = true →
  ∀ k cur cap res, run r k cur cap = Some res →
    ∃ cur' g', k cur' (Some g') = Some res.
Proof.
  induction r as [| c | | | | r1 IH1 r2 IH2 | r1 IH1 r2 IH2 | r1 IH1 | r1 IH1 | r1 IH1 | r1 IH1];
    simpl; intros Hr k cur cap res H; try done.
  - destruct (crosses_group r1) eqn:Hr1.
    + apply (IH1 eq_refl) in H as (cur1 & g1 & H). by apply run_keeps_group in H.
    + apply run_from_cont in H as (cur1 & cap1 & H). by apply (IH2 Hr) in H.
  - apply andb_true_iff in Hr as [Hr1 Hr2].
    destruct (run r1 k cur cap) as [res' |] eqn:E.
    + injection H as ->. by apply (IH1 Hr1) in E.
    + by apply (IH2 Hr2) in H.
  - apply (IH1 Hr) in H as (cur1 & g1 & H).
    by apply (repeat_greedy_keeps_group _ _ (run_keeps_group r1)) in H.
  - apply run_from_cont in H as (cur1 & cap1 & H). eauto.
Qed.

Lemma search_from_sets_group r cur ahead groups :
  crosses_group r = true →
  search_from r cur ahead = Some groups → ∃ g, groups = Some g.
Proof.
  intros Hr. revert cur. induction ahead as [| c s' IH]; intros cur H; simpl in H.
  - destruct (match_here r cur) as [res |] eqn:E; [| done]. injection H as ->.
    apply (run_sets_group r Hr) in E as (? & g & [= <-]). eauto.
  - destruct (match_here r cur) as [res |] eqn:E.
    + injection H as ->.
      apply (run_sets_group r Hr) in E as (? & g & [= <-]). eauto.
    + by apply IH in H.
Qed.

(** A match of a pattern that crosses group 1 has its [group(1)]. *)
Lemma search_sets_group r s groups :
  crosses_group r = true → search r s = Some groups → ∃ g, groups = Some g.
Proof. apply search_from_sets_group. Qed.

End Groups.

(** [remember] raises nothing. *)
Lemma remember_returns message c : snd (remember message c) = Returns tt.
Proof.
  rewrite remember_unfold.
  destruct (Re.search name_pattern message) as [[g |] |] eqn:Hn;
    [| by apply search_sets_group in Hn as [? ?] |];
    (destruct (Re.search mood_pattern message) as [[g' |] |] eqn:Hm;
       [| by apply search_sets_group in Hm as [? ?] |]);
    simpl; try done; by destruct (bool_decide _).
Qed.

(** ** The chat pipeline *)

Lemma upd_log cid c e w : upd cid c (log e w) = log e (upd cid c w).
Proof. done. Qed.

Lemma lookup_log e w cid : conversations (log e w) !! cid = conversations w !! cid.
Proof. done. Qed.

Lemma inject_memory_context_returns c : snd (inject_memory_context c) = Returns tt.
Proof.
  unfold inject_memory_context, bind, get. simpl.
  by destruct (memory_facts (memory c)).
Qed.

(** A message that is no command, on an active conversation with its tone
    set, goes to the pipeline. *)
Lemma chat_not_command env input w :
  is_command (UserInput.message input) = false →
  active (conversation_for (UserInput.conversation_id input) w) = true →
  tone_set (conversation_for (UserInput.conversation_id input) w) = true →
  chat env input w
  = chat_reply env input (Text.strip (UserInput.message input))
      (upd (UserInput.conversation_id input)
         (conversation_for (UserInput.conversation_id input) w) w).
Proof.
  intros [Hgif Htn]%is_command_false Hactive Htone. unfold chat.
  rewrite (bind_returns _ _ _ _ _ (get_or_create_run _ _)).
  rewrite (bind_returns _ _ _ _ _ (attr_run _ _ _ _ (lookup_upd _ _ _))).
  rewrite Hactive. cbn [negb]. rewrite Hgif, Htn.
  rewrite (bind_returns _ _ _ _ _ (attr_run _ _ _ _ (lookup_upd _ _ _))).
  by rewrite Htone.
Qed.

(** The pipeline up to the completion call. *)
Lemma chat_reply_assembles env input w c label :
  let cid := UserInput.conversation_id input in
  let user_msg := Text.strip (UserInput.message input) in
  conversations w !! cid = Some c →
  sentiment env (now w) user_msg = Returns label →
  chat_reply env input user_msg w
  = chat_complete env input (Text.lower label)
      (log (SentimentCall user_msg) (upd cid (prompt_assembled input label c) w)).
Proof.
  intros cid user_msg Hc Hs. unfold chat_reply. fold cid.
  pose proof (on_conversation_run cid (remember user_msg) w c Hc) as H1.
  rewrite remember_returns in H1.
  rewrite (bind_returns _ _ _ _ _ H1). clear H1.
  rewrite bind_get, bind_modify. rewrite now_upd, Hs. simpl lift_outcome.
  rewrite bind_ret.
  set (c1 := fst (remember user_msg c)).
  set (w1 := log (SentimentCall user_msg) (upd cid c1 w)).
  assert (Hc1 : conversations w1 !! cid = Some c1) by apply lookup_upd.
  rewrite (bind_returns _ _ _ _ _ (attr_run _ _ _ _ Hc1)).
  assert (H2 : (if wants_memory_context c1
                then on_conversation cid inject_memory_context else ret tt) w1
               = (upd cid (with_memory_context c1) w1, Returns tt)).
  { unfold with_memory_context. destruct (wants_memory_context c1).
    - rewrite (on_conversation_run _ _ _ c1) by done.
      by rewrite inject_memory_context_returns.
    - unfold ret. by rewrite upd_id. }
  rewrite (bind_returns _ _ _ _ _ H2). clear H2.
  rewrite (bind_returns _ _ _ _ _
             (on_conversation_modify _ _ _ _ (lookup_upd _ _ _))), upd_upd.
  rewrite (bind_returns _ _ _ _ _
             (on_conversation_modify _ _ _ _ (lookup_upd _ _ _))), upd_upd.
  unfold w1. rewrite upd_log, upd_upd. reflexivity.
Qed.

(** *** The record of outside calls only grows *)

Lemma grows_ret {A} (a : A) : grows_log (ret a).
Proof. intros w. exists []. simpl. by rewrite app_nil_r. Qed.

Lemma grows_raise {A} e : grows_log (@raise World A e).
Proof. intros w. exists []. simpl. by rewrite app_nil_r. Qed.

Lemma grows_get : grows_log (@get World).
Proof. intros w. exists []. simpl. by rewrite app_nil_r. Qed.

Lemma grows_modify_log e : grows_log (modify (log e)).
Proof. intros w. by exists [e]. Qed.

Lemma grows_bind {A B} (m : M World A) (f : A → M World B) :
  grows_log m → (∀ a, grows_log (f a)) → grows_log (bind m f).
Proof.
  intros Hm Hf w. unfold bind. destruct (Hm w) as [more Hmore].
  destruct (m w) as [w' [a | e]]; simpl in *; [| eauto].
  destruct (Hf a w') as [more' Hmore']. exists (more ++ more').
  by rewrite Hmore', Hmore, app_assoc.
Qed.

Lemma grows_try {A} (m : M World A) (h : exn → M World A) :
  grows_log m → (∀ e, grows_log (h e)) → grows_log (try_except m h).
Proof.
  intros Hm Hh w. unfold try_except. destruct (Hm w) as [more Hmore].
  destruct (m w) as [w' [a | e]]; simpl in *; [eauto |].
  destruct (Hh e w') as [more' Hmore']. exists (more ++ more').
  by rewrite Hmore', Hmore, app_assoc.
Qed.

Lemma grows_lift {A} (o : outcome A) : grows_log (lift_outcome o).
Proof. destruct o; [apply grows_ret | apply grows_raise]. Qed.

Lemma grows_on_conversation {A} cid (m : M Conversation A) :
  grows_log (on_conversation cid m).
Proof.
  intros w. exists []. rewrite app_nil_r. unfold on_conversation.
  destruct (conversations w !! cid) as [c |]; [| done]. by destruct (m c).
Qed.

Lemma grows_attr {A} cid (f : Conversation → A) : grows_log (attr cid f).
Proof. apply grows_on_conversation. Qed.

Create HintDb grows discriminated.
#[local] Hint Resolve grows_ret grows_raise grows_get grows_modify_log grows_lift
  grows_on_conversation grows_attr : grows.

Ltac grows_step :=
  first [ solve [auto with grows]
        | apply grows_bind; [| intros ?]
        | apply grows_try; [| intros ?]
        | match goal with
          | |- grows_log (match ?x with _ => _ end) => destruct x
          | |- grows_log (if ?b then _ else _) => destruct b
          end ].

Lemma grows_get_gif_url env query : grows_log (get_gif_url env query).
Proof.
  unfold get_gif_url, get_gif_url_try, session_get, raise_for_status, response_json,
    dict_get, subscript, random_choice.
  repeat grows_step.
Qed.

#[local] Hint Resolve grows_get_gif_url : grows.

Lemma grows_decorate env cid sentiment response :
  grows_log (decorate env cid sentiment response).
Proof. unfold decorate. repeat grows_step. Qed.

Lemma keeps_decorate env cid sentiment response :
  keeps_registry (decorate env cid sentiment response).
Proof. unfold decorate. repeat keeps_step. Qed.

(** *** Completion and commit *)

Lemma query_groq_api_run env cid w c :
  conversations w !! cid = Some c →
  query_groq_api env cid w
  = (log (GroqCall (messages c)) w,
     match groq env (now w) (messages c) with
     | inr text => Returns text
     | inl err => Raises (HTTPException 500 ("Groq API failed: " +:+ err))
     end).
Proof.
  intros Hc. unfold query_groq_api.
  rewrite (bind_returns _ _ _ _ _ (attr_run _ _ _ _ Hc)).
  rewrite bind_get, bind_modify. by destruct (groq env (now w) (messages c)).
Qed.

(** From the completion call on: the call is recorded with the whole
    transcript as its prompt; if the handler returns, the reply it returns
    has been appended as an assistant entry; if it raises, the transcript is
    as it was at the call. *)
Lemma chat_complete_commits env input sentiment w c :
  let cid := UserInput.conversation_id input in
  conversations w !! cid = Some c →
  ∃ more,
    events (fst (chat_complete env input sentiment w))
    = events w ++ GroqCall (messages c) :: more
    ∧ conversations (fst (chat_complete env input sentiment w))
      = <[cid := match snd (chat_complete env input sentiment w) with
                 | Returns reply =>
                     append_message (Msg "assistant" (ChatResponse.response reply)) c
                 | Raises _ => c
                 end]> (conversations w).
Proof.
  intros cid Hc. unfold chat_complete. fold cid.
  pose proof (query_groq_api_run env cid w c Hc) as Hq.
  destruct (groq env (now w) (messages c)) as [err | text].
  - rewrite (bind_raises _ _ _ _ _ Hq). simpl. exists []. split; [done |].
    by rewrite insert_id.
  - rewrite (bind_returns _ _ _ _ _ Hq).
    set (w1 := log (GroqCall (messages c)) w).
    pose proof (keeps_decorate env cid sentiment text w1) as Hk.
    destruct (grows_decorate env cid sentiment text w1) as [more Hg].
    unfold bind.
    destruct (decorate env cid sentiment text w1) as [w2 [[response gif_url] | e]];
      simpl in Hk, Hg.
    + assert (Hc2 : conversations w2 !! cid = Some c) by (by rewrite Hk).
      rewrite (on_conversation_modify _ _ _ _ Hc2).
      simpl. exists more. split; [by rewrite Hg, <- app_assoc |]. by rewrite Hk.
    + simpl. exists more. split; [by rewrite Hg, <- app_assoc |].
      rewrite Hk. simpl. by rewrite insert_id.
Qed.

(** *** The mood note *)

(** C4, as the code has it: the mood note is stored.  For an ASCII message
    that is no command, on an active conversation with its tone set, once
    the classifier has answered with an ASCII label: when [chat] is over the
    stored transcript is the transcript as it was (with the memory context,
    if the guard asked for it), then the system entry with the mood note of
    this turn, then the entry of the message, then, if [chat] returned, the
    assistant entry with the reply it returned.  The mood note is in the
    stored transcript also when the completion fails and [chat] raises. *)
Theorem mood_note_persisted (env : Env) (input : UserInput.t) (w : World)
    (label : string) :
  let cid := UserInput.conversation_id input in
  let c := conversation_for cid w in
  Text.is_ascii (UserInput.message input) = true →
  Text.is_ascii label = true →
  is_command (UserInput.message input) = false →
  active c = true →
  tone_set c = true →
  sentiment env (now w) (Text.strip (UserInput.message input)) = Returns label →
  ∃ c',
    conversations (fst (chat env input w)) !! cid = Some c'
    ∧ messages c'
      = messages (with_memory_context
                    (fst (remember (Text.strip (UserInput.message input)) c)))
        ++ Msg "system" (mood_note_for (Text.lower label))
        :: Msg (UserInput.role input) (UserInput.message input)
        :: match snd (chat env input w) with
           | Returns reply => [Msg "assistant" (ChatResponse.response reply)]
           | Raises _ => []
           end.
Proof.
  intros cid c _ _ Hcmd Hactive Htone Hs.
  rewrite chat_not_command by done. fold cid c.
  rewrite (chat_reply_assembles env input (upd cid c w) c label)
    by (first [apply lookup_upd | done]).
  fold cid.
  set (w1 := log _ _).
  destruct (chat_complete_commits env input (Text.lower label) w1
              (prompt_assembled input label c)) as (more & _ & Hconv).
  { apply lookup_upd. }
  fold cid in Hconv. rewrite Hconv, lookup_insert_eq.
  eexists. split; [done |].
  destruct (snd (chat_complete env input (Text.lower label) w1)) as [reply | e];
    unfold prompt_assembled, append_message; simpl;
    rewrite <- ?app_assoc; reflexivity.
Qed.

Lemma mood_note_persisted_witness :
  ∃ c',
    conversations (fst (chat offline_env (say "c1" "I'm feeling sad") no_events)) !! "c1"
    = Some c'
    ∧ messages c'
      = [Msg "system" "You are a funny and witty assistant 😂✨";
         Msg "system" "The user mentioned they were feeling sad earlier.";
         Msg "system" "The user is neutral. Respond normally.";
         Msg "user" "I'm feeling sad";
         Msg "assistant" "ok"].
Proof.
  destruct (mood_note_persisted offline_env (say "c1" "I'm feeling sad") no_events
              "NEUTRAL" eq_refl eq_refl eq_refl eq_refl eq_refl eq_refl)
    as (c' & Hc' & Hm).
  exists c'. split; [exact Hc' |]. rewrite Hm. vm_compute. reflexivity.
Defined.

(** C4, as it is written, fails: the turn is over, [chat] has returned, and
    the mood note of the turn is in the stored transcript, between the prompt
    of the tone and the entry of the user. *)
Lemma mood_note_stays_in_transcript :
  snd (chat offline_env (say "c1" "hello") no_events)
  = Returns (ChatResponse.Build "ok" "c1" (Some JNull))
  ∧ messages <$> conversations (fst (chat offline_env (say "c1" "hello") no_events)) !! "c1"
    = Some [Msg "system" "You are a funny and witty assistant 😂✨";
            Msg "system" "The user is neutral. Respond normally.";
            Msg "user" "hello";
            Msg "assistant" "ok"].
Proof. split; vm_compute; reflexivity. Qed.

(** The history view hides the system entries, the mood notes among them;
    the store keeps them. *)
Example history_hides_mood_note :
  snd (get_chat_history "c1" (fst (chat offline_env (say "c1" "hello") no_events)))
  = Returns [("user", "hello"); ("assistant", "ok")].
Proof. vm_compute. reflexivity. Qed.

(** *** The first message of a new conversation *)

(** C3.  The first message of a conversation, sent before any [/tone]
    command, is not answered with the onboarding text.
    [get_or_create_conversation] registers the conversation through
    [__init__], which calls [set_tone]: the object has the prompt of the
    default tone at length 1 and its [tone_set] flag on.  So the gate of
    [chat] is passed: the reply is the completion's, the classifier and the
    completion are called, and the transcript grows to four entries. *)
Theorem first_message_is_not_onboarded :
  fst (get_or_create_conversation "c1" no_events)
  = Wld {["c1" := Conv [Msg "system" "You are a funny and witty assistant 😂✨"]
                    true true "funny" ∅ "New Chat"]} []
  ∧ snd (chat offline_env (say "c1" "hello") no_events)
    = Returns (ChatResponse.Build "ok" "c1" (Some JNull))
  ∧ "ok" ≠ onboarding
  ∧ events (fst (chat offline_env (say "c1" "hello") no_events))
    = [SentimentCall "hello";
       GroqCall [Msg "system" "You are a funny and witty assistant 😂✨";
                 Msg "system" "The user is neutral. Respond normally.";
                 Msg "user" "hello"];
       RandomDraw]
  ∧ messages <$> conversations (fst (chat offline_env (say "c1" "hello") no_events)) !! "c1"
    = Some [Msg "system" "You are a funny and witty assistant 😂✨";
            Msg "system" "The user is neutral. Respond normally.";
            Msg "user" "hello";
            Msg "assistant" "ok"].
Proof. repeat split; try (vm_compute; reflexivity). discriminate. Qed.

(** ** No registered conversation has its tone unset *)

Lemma toned_ret {A} (a : A) : keeps_toned (ret a).
Proof. by intros w. Qed.

Lemma toned_raise {A} e : keeps_toned (@raise World A e).
Proof. by intros w. Qed.

Lemma toned_bind {A B} (m : M World A) (f : A → M World B) :
  keeps_toned m → (∀ a, keeps_toned (f a)) → keeps_toned (bind m f).
Proof.
  intros Hm Hf w Hw. unfold bind. specialize (Hm w Hw).
  destruct (m w) as [w' [a | e]]; simpl in *; [| done].
  by apply Hf.
Qed.

Lemma toned_try {A} (m : M World A) (h : exn → M World A) :
  keeps_toned m → (∀ e, keeps_toned (h e)) → keeps_toned (try_except m h).
Proof.
  intros Hm Hh w Hw. unfold try_except. specialize (Hm w Hw).
  destruct (m w) as [w' [a | e]]; simpl in *; [done |].
  by apply Hh.
Qed.

Lemma toned_of_keeps {A} (m : M World A) : keeps_registry m → keeps_toned m.
Proof. intros Hm w Hw cid c. rewrite Hm. apply Hw. Qed.

Lemma toned_on_conversation {A} cid (m : M Conversation A) :
  keeps_flags m → keeps_toned (on_conversation cid m).
Proof.
  intros Hm w Hw. unfold on_conversation.
  destruct (conversations w !! cid) as [c |] eqn:Hc; [| done].
  specialize (Hm c (Hw _ _ Hc)). destruct (m c) as [c' r]. simpl in *.
  intros cid' c''. simpl. destruct (decide (cid = cid')) as [<- | Hne].
  - rewrite lookup_insert_eq. by intros [= <-].
  - rewrite lookup_insert_ne by done. apply Hw.
Qed.

Lemma flags_set_tone tone : keeps_flags (set_tone tone).
Proof.
  intros c [Ht Ha].
  destruct (TONE_PROMPTS !! Text.strip (Text.lower tone)) as [prompt |] eqn:Hkey.
  - by rewrite (set_tone_valid _ prompt).
  - by rewrite set_tone_invalid.
Qed.

Lemma flags_remember message : keeps_flags (remember message).
Proof.
  intros c Hc. destruct (remember_frame message c) as (_ & -> & -> & _). done.
Qed.

Lemma flags_inject_memory_context : keeps_flags inject_memory_context.
Proof.
  intros c Hc. unfold inject_memory_context, bind, get. simpl.
  by destruct (memory_facts (memory c)).
Qed.

Lemma flags_append_message m : keeps_flags (modify (append_message m)).
Proof. by intros c Hc. Qed.

Lemma toned_get_or_create cid : keeps_toned (get_or_create_conversation cid).
Proof.
  intros w Hw. rewrite get_or_create_run. intros cid' c. simpl.
  destruct (decide (cid = cid')) as [<- | Hne].
  - rewrite lookup_insert_eq. intros [= <-]. unfold conversation_for.
    destruct (conversations w !! cid) as [c |] eqn:Hc; [by eapply Hw | done].
  - rewrite lookup_insert_ne by done. apply Hw.
Qed.

Create HintDb toned discriminated.
#[local] Hint Resolve toned_ret toned_raise toned_get_or_create
  flags_set_tone flags_remember flags_inject_memory_context flags_append_message : toned.
#[local] Hint Extern 1 (keeps_toned (on_conversation _ _)) =>
  apply toned_on_conversation : toned.
#[local] Hint Extern 3 (keeps_toned _) =>
  apply toned_of_keeps; solve [auto with keeps] : toned.

Ltac toned_step :=
  first [ solve [auto with toned]
        | apply toned_bind; [| intros ?]
        | apply toned_try; [| intros ?]
        | match goal with
          | |- keeps_toned (match ?x with _ => _ end) => destruct x
          | |- keeps_toned (if ?b then _ else _) => destruct b
          end ].

Lemma toned_query_groq_api env cid : keeps_toned (query_groq_api env cid).
Proof.
  apply toned_of_keeps. unfold query_groq_api. repeat keeps_step.
Qed.

Lemma toned_decorate env cid sentiment response :
  keeps_toned (decorate env cid sentiment response).
Proof. apply toned_of_keeps, keeps_decorate. Qed.

#[local] Hint Resolve toned_query_groq_api toned_decorate : toned.

(** [chat] keeps every registered conversation active and toned. *)
Lemma toned_chat env input : keeps_toned (chat env input).
Proof.
  unfold chat, chat_gif, chat_tone, chat_reply. repeat toned_step.
Qed.

(** So does [new_chat]. *)
Lemma toned_new_chat data : keeps_toned (new_chat data).
Proof.
  intros w Hw. unfold new_chat, bind, get. simpl.
  case_bool_decide; [done |].
  destruct (Conversation_init _ _) as [c | e] eqn:Hinit; [| done]. simpl.
  apply Conversation_init_tone_set in Hinit as (Ht & Ha & _).
  intros cid' c'. simpl. destruct (decide (NewChatRequest.conversation_id data = cid')) as [<- | Hne].
  - rewrite lookup_insert_eq. by intros [= <-].
  - rewrite lookup_insert_ne by done. apply Hw.
Qed.

Lemma all_toned_no_events : all_toned no_events.
Proof. intros cid c H. simpl in H. by rewrite lookup_empty in H. Qed.

(** With the registry as the endpoints keep it, the gate of [chat] is never
    taken: a message that is no command goes to the pipeline. *)
Lemma chat_skips_gate env input w :
  all_toned w →
  is_command (UserInput.message input) = false →
  chat env input w
  = chat_reply env input (Text.strip (UserInput.message input))
      (upd (UserInput.conversation_id input)
         (conversation_for (UserInput.conversation_id input) w) w).
Proof.
  intros Hw Hcmd.
  assert (tone_set (conversation_for (UserInput.conversation_id input) w) = true
          ∧ active (conversation_for (UserInput.conversation_id input) w) = true)
    as [Ht Ha].
  { unfold conversation_for.
    destruct (conversations w !! UserInput.conversation_id input) as [c |] eqn:Hc;
      [by eapply Hw | done]. }
  by apply chat_not_command.
Qed.

(** The pipeline calls the classifier, whatever follows. *)
Lemma chat_reply_calls_classifier env input w c :
  conversations w !! UserInput.conversation_id input = Some c →
  ∃ more,
    events (fst (chat_reply env input (Text.strip (UserInput.message input)) w))
    = events w ++ SentimentCall (Text.strip (UserInput.message input)) :: more.
Proof.
  intros Hc. unfold chat_reply.
  pose proof (on_conversation_run _ (remember (Text.strip (UserInput.message input))) w c Hc)
    as H1.
  rewrite remember_returns in H1. rewrite (bind_returns _ _ _ _ _ H1). clear H1.
  rewrite bind_get, bind_modify.
  match goal with
  | |- context [fst (?m (log ?e ?w0))] =>
      assert (Hg : grows_log m); [| destruct (Hg (log e w0)) as [more Hmore]]
  end.
  { unfold query_groq_api, decorate. repeat grows_step. }
  exists more. rewrite Hmore. simpl. by rewrite <- app_assoc.
Qed.

(** ** The memory context *)

Lemma wants_memory_context_eq c :
  wants_memory_context c
  = negb (bool_decide (memory c = ∅)) && negb (existsb has_marker (messages c)).
Proof. done. Qed.

Lemma inject_memory_context_run c :
  inject_memory_context c
  = (match memory_facts (memory c) with
     | [] => c
     | facts => set_messages
                  (list_insert_at 1 (Msg "system" (Text.join " " facts)) (messages c)) c
     end, Returns tt).
Proof.
  unfold inject_memory_context, bind, get. simpl.
  by destruct (memory_facts (memory c)).
Qed.

(** The context of a memory with a name carries the marker of the guard. *)
Lemma name_context_has_marker mem n :
  mem !! "name" = Some n →
  ∃ facts, memory_facts mem = facts ∧ facts ≠ []
           ∧ has_marker (Msg "system" (Text.join " " facts)) = true.
Proof.
  intros Hn. unfold memory_facts. rewrite Hn.
  destruct (mem !! "mood") as [m |]; eexists; (split; [reflexivity |]); split;
    try done; reflexivity.
Qed.

Lemma existsb_list_insert_at {A} (f : A → bool) i x (l : list A) :
  f x = true → existsb f (list_insert_at i x l) = true.
Proof.
  intros Hx. unfold list_insert_at. rewrite existsb_app. simpl. rewrite Hx.
  by rewrite orb_true_r.
Qed.

(** With a name in the memory, the guard is off after the guarded
    injection: the context is injected once. *)
Lemma guard_off_after_injection c :
  is_Some (memory c !! "name") →
  wants_memory_context (with_memory_context c) = false.
Proof.
  intros [n Hn]. unfold with_memory_context.
  destruct (wants_memory_context c) eqn:Hw; [| done].
  rewrite inject_memory_context_run. simpl.
  destruct (name_context_has_marker _ _ Hn) as (facts & -> & Hne & Hmark).
  destruct facts as [| fact facts]; [done |].
  rewrite wants_memory_context_eq. simpl messages.
  by rewrite existsb_list_insert_at, andb_false_r.
Qed.

Lemma guarded_injection_idempotent c :
  is_Some (memory c !! "name") →
  with_memory_context (with_memory_context c) = with_memory_context c.
Proof.
  intros Hn. unfold with_memory_context at 1.
  by rewrite guard_off_after_injection.
Qed.

(** Once an entry carries the marker, later turns inject nothing. *)
Lemma marked_transcript_not_injected input label c :
  existsb has_marker (messages c) = true →
  messages (prompt_assembled input label c)
  = messages c ++ [Msg "system" (mood_note_for (Text.lower label));
                   Msg (UserInput.role input) (UserInput.message input)].
Proof.
  intros Hmark. unfold prompt_assembled, append_message. simpl.
  set (c1 := fst (remember _ c)).
  assert (Hm : messages c1 = messages c) by apply remember_frame.
  unfold with_memory_context. rewrite wants_memory_context_eq, Hm, Hmark, andb_false_r.
  by rewrite Hm, <- app_assoc.
Qed.

(** The method itself has no guard: called twice, it inserts twice. *)
Lemma inject_memory_context_twice c fact facts :
  memory_facts (memory c) = fact :: facts →
  messages (fst (inject_memory_context (fst (inject_memory_context c))))
  = list_insert_at 1 (Msg "system" (Text.join " " (fact :: facts)))
      (list_insert_at 1 (Msg "system" (Text.join " " (fact :: facts))) (messages c)).
Proof.
  intros Hf. rewrite !inject_memory_context_run. simpl. rewrite Hf. simpl.
  by rewrite Hf.
Qed.

(** C1 fails on the code for a memory that holds a mood and no name.  The
    guard of [chat] looks for ["user's name"], which the sentence about the
    mood does not contain, so every turn injects the context again: after
    ["I'm feeling sad"] and then ["hello"] the transcript holds the memory
    context twice. *)
Theorem memory_context_duplicated :
  let w1 := fst (chat offline_env (say "c1" "I'm feeling sad") no_events) in
  let w2 := fst (chat offline_env (say "c1" "hello") w1) in
  memory <$> conversations w1 !! "c1" = Some {["mood" := "sad"]}
  ∧ messages <$> conversations w2 !! "c1"
    = Some [Msg "system" "You are a funny and witty assistant 😂✨";
            Msg "system" "The user mentioned they were feeling sad earlier.";
            Msg "system" "The user mentioned they were feeling sad earlier.";
            Msg "system" "The user is neutral. Respond normally.";
            Msg "user" "I'm feeling sad";
            Msg "assistant" "ok";
            Msg "system" "The user is neutral. Respond normally.";
            Msg "user" "hello";
            Msg "assistant" "ok"].
Proof. split; vm_compute; reflexivity. Qed.

(** With a name the guard works: the same two turns leave one context. *)
Example memory_context_once_with_name :
  let w1 := fst (chat offline_env (say "c1" "my name is alice") no_events) in
  let w2 := fst (chat offline_env (say "c1" "hello") w1) in
  messages <$> conversations w2 !! "c1"
  = Some [Msg "system" "You are a funny and witty assistant 😂✨";
          Msg "system" "The user's name is Alice.";
          Msg "system" "The user is neutral. Respond normally.";
          Msg "user" "my name is alice";
          Msg "assistant" "ok";
          Msg "system" "The user is neutral. Respond normally.";
          Msg "user" "hello";
          Msg "assistant" "ok"].
Proof. vm_compute. reflexivity. Qed.

(** ** The tone command *)

Lemma append_empty (s : string) : s +:+ "" = s.
Proof.
  induction s as [| a s IH]; [done |].
  change (String a (s +:+ "") = String a s). by rewrite IH.
Qed.

(** The first thing [get_gif_url] does is the request for the query. *)
Lemma get_gif_url_requests env query w :
  ∃ more,
    events (fst (get_gif_url env query w))
    = events w ++ TenorGet (search_url env (Text.quote (normalize_query query))) :: more.
Proof.
  destruct (get_gif_url_returns env query w) as [v ->]. simpl.
  rewrite get_gif_url_try_eq. unfold fetch_results at 1, session_get at 1.
  match goal with
  | |- context [fst (bind (bind (bind get ?f) ?g) ?h w)] =>
      change (bind (bind (bind get f) g) h w) with (bind (bind (f w) g) h w)
  end.
  cbv beta.
  match goal with
  | |- context [modify (log ?e)] => set (ev := e)
  end.
  match goal with
  | |- context [fst (bind (bind (bind (modify (log ev)) ?f) ?g) ?h w)] =>
      change (bind (bind (bind (modify (log ev)) f) g) h w)
        with (bind (bind (f tt) g) h (log ev w));
      assert (Hg : grows_log (bind (bind (f tt) g) h))
  end.
  { unfold fetch_results, url_of_result, session_get, raise_for_status, response_json,
      dict_get, subscript, random_choice.
    repeat grows_step. }
  destruct (Hg (log ev w)) as [more Hmore]. exists more.
  rewrite Hmore. simpl. by rewrite <- app_assoc.
Qed.

(** A [/tone] command with a registered tone, spelled any way but exactly
    ["funny"]: the tone is switched, one assistant entry is appended, no
    request is made, and the reply carries no GIF. *)
Lemma tone_command_without_fetch env input w prompt :
  let cid := UserInput.conversation_id input in
  let c := conversation_for cid w in
  let user_msg := Text.strip (UserInput.message input) in
  let tone := tone_argument (UserInput.message input) in
  active c = true →
  Text.startswith "/gif" (Text.lower user_msg) = false →
  Text.startswith "/tone" (Text.lower user_msg) = true →
  tone ≠ "" →
  TONE_PROMPTS !! Text.strip (Text.lower tone) = Some prompt →
  tone ≠ "funny" →
  chat env input w
  = (upd cid (append_message (Msg "assistant" ("Tone changed to '" +:+ tone +:+ "'"))
                (retoned (Text.strip (Text.lower tone)) prompt c)) w,
     Returns (ChatResponse.Build ("Tone changed to '" +:+ tone +:+ "'") cid (Some JNull))).
Proof.
  intros cid c user_msg tone Hactive Hgif Htn Hne Hkey Hnf. unfold chat. fold cid.
  rewrite (bind_returns _ _ _ _ _ (get_or_create_run _ _)). fold c.
  rewrite (bind_returns _ _ _ _ _ (attr_run _ _ _ _ (lookup_upd _ _ _))).
  rewrite Hactive. cbn [negb]. fold user_msg. rewrite Hgif, Htn.
  unfold chat_tone. fold user_msg. change (Text.strip (Text.slice_from 5 user_msg)) with tone.
  apply String.eqb_neq in Hne, Hnf. rewrite Hne, Hnf.
  unfold try_except.
  pose proof (on_conversation_run cid (set_tone tone) (upd cid c w) c (lookup_upd _ _ _)) as H1.
  rewrite (set_tone_valid _ prompt) in H1 by done. simpl in H1. rewrite upd_upd in H1.
  rewrite (bind_returns _ _ _ _ _ H1), bind_ret. simpl equals_str. simpl truthy.
  cbv iota.
  rewrite (bind_returns _ _ _ _ _ (on_conversation_modify _ _ _ _ (lookup_upd _ _ _))).
  rewrite upd_upd. unfold ret.
  by rewrite append_empty.
Qed.

(** The same command with the tone spelled exactly ["funny"]: the request
    for ["celebrate"] is made. *)
Lemma tone_command_with_fetch env input w :
  let cid := UserInput.conversation_id input in
  let c := conversation_for cid w in
  let user_msg := Text.strip (UserInput.message input) in
  active c = true →
  Text.startswith "/gif" (Text.lower user_msg) = false →
  Text.startswith "/tone" (Text.lower user_msg) = true →
  tone_argument (UserInput.message input) = "funny" →
  ∃ more,
    events (fst (chat env input w))
    = events w ++ TenorGet (search_url env "celebrate") :: more.
Proof.
  intros cid c user_msg Hactive Hgif Htn Hf. unfold chat. fold cid.
  rewrite (bind_returns _ _ _ _ _ (get_or_create_run _ _)). fold c.
  rewrite (bind_returns _ _ _ _ _ (attr_run _ _ _ _ (lookup_upd _ _ _))).
  rewrite Hactive. cbn [negb]. fold user_msg. rewrite Hgif, Htn.
  unfold chat_tone. fold user_msg.
  change (Text.strip (Text.slice_from 5 user_msg))
    with (tone_argument (UserInput.message input)).
  rewrite Hf. cbn [String.eqb Ascii.eqb Bool.eqb].
  pose proof (on_conversation_run cid (set_tone "funny") (upd cid c w) c (lookup_upd _ _ _))
    as H1.
  rewrite (set_tone_valid _ "You are a funny and witty assistant 😂✨") in H1 by done.
  cbn [fst snd] in H1. rewrite upd_upd in H1.
  set (c1 := retoned _ _ c) in *. set (w1 := upd cid c1 w) in *.
  destruct (get_gif_url_requests env "celebrate" w1) as [more Hmore].
  replace (Text.quote (normalize_query "celebrate")) with "celebrate" in Hmore
    by (vm_compute; reflexivity).
  destruct (get_gif_url_returns env "celebrate" w1) as [v Hv].
  rewrite Hv in Hmore. cbn [fst] in Hmore.
  set (w2 := fst (get_gif_url_try env "celebrate" w1)) in *.
  assert (Hc2 : conversations w2 !! cid = Some c1).
  { pose proof (keeps_get_gif_url env "celebrate" w1) as Hk. rewrite Hv in Hk.
    cbn [fst] in Hk. rewrite Hk. apply lookup_upd. }
  unfold try_except. rewrite (bind_returns _ _ _ _ _ H1).
  rewrite (bind_returns _ _ _ _ _ Hv).
  rewrite (bind_returns _ _ _ _ _ (on_conversation_modify _ _ _ _ Hc2)).
  exists more. unfold ret. cbn [fst]. by rewrite events_upd.
Qed.

(** C5 fails on the code for a tone spelled with another case.  [set_tone]
    lower-cases the name, so ["/tone Funny"] switches the conversation to the
    tone ["funny"]; the test for the celebration compares the name as typed
    with ["funny"], so no request is made and the reply carries no GIF.  The
    same command typed ["/tone funny"] makes the request for ["celebrate"]. *)
Theorem tone_command_case_mismatch :
  snd (chat offline_env (say "c1" "/tone Funny") no_events)
  = Returns (ChatResponse.Build "Tone changed to 'Funny'" "c1" (Some JNull))
  ∧ conversations (fst (chat offline_env (say "c1" "/tone Funny") no_events)) !! "c1"
    = Some (Conv [Msg "system" "You are a funny and witty assistant 😂✨";
                  Msg "assistant" "Tone changed to 'Funny'"]
              true true "funny" ∅ "New Chat")
  ∧ events (fst (chat offline_env (say "c1" "/tone Funny") no_events)) = []
  ∧ events (fst (chat offline_env (say "c1" "/tone funny") no_events))
    = [TenorGet "https://api.tenor.com/v2/search?key=KEY&q=celebrate&limit=5&contentfilter=medium"].
Proof. repeat split; vm_compute; reflexivity. Qed.

(** * More of the code *)

(** ** Invariants, compositionally *)

Lemma preserves_ret I {A} (a : A) : preserves I (ret a).
Proof. by intros w. Qed.

Lemma preserves_raise I {A} e : preserves I (@raise World A e).
Proof. by intros w. Qed.

Lemma preserves_bind I {A B} (m : M World A) (f : A → M World B) :
  preserves I m → (∀ a, preserves I (f a)) → preserves I (bind m f).
Proof.
  intros Hm Hf w Hw. unfold bind. specialize (Hm w Hw).
  destruct (m w) as [w' [a | e]]; simpl in *; [| done].
  by apply Hf.
Qed.

Lemma preserves_try I {A} (m : M World A) (h : exn → M World A) :
  preserves I m → (∀ e, preserves I (h e)) → preserves I (try_except m h).
Proof.
  intros Hm Hh w Hw. unfold try_except. specialize (Hm w Hw).
  destruct (m w) as [w' [a | e]]; simpl in *; [done |].
  by apply Hh.
Qed.

Lemma preserves_of_keeps I {A} (m : M World A) :
  registry_only I → keeps_registry m → preserves I m.
Proof. intros HI Hm w Hw. eapply HI; [| done]. by rewrite Hm. Qed.

Lemma registry_only_all_conv P : registry_only (all_conv P).
Proof. intros w w' H Hw cid c. rewrite <- H. apply Hw. Qed.

Lemma registry_only_lookup cid (x : option Conversation) :
  registry_only (fun w => conversations w !! cid = x).
Proof. intros w w' H Hw. by rewrite <- H. Qed.

Lemma registry_only_registered cid :
  registry_only (fun w => is_Some (conversations w !! cid)).
Proof. intros w w' H Hw. by rewrite <- H. Qed.

Lemma all_conv_upd P cid c w : all_conv P w → P c → all_conv P (upd cid c w).
Proof.
  intros Hw Hc cid' c'. destruct (decide (cid = cid')) as [<- | Hne].
  - rewrite lookup_upd. by intros [= <-].
  - rewrite lookup_upd_ne by done. apply Hw.
Qed.

Lemma preserves_on_conversation P {A} cid (m : M Conversation A) :
  keeps_conv P m → preserves (all_conv P) (on_conversation cid m).
Proof.
  intros Hm w Hw. destruct (conversations w !! cid) as [c |] eqn:Hc.
  - rewrite (on_conversation_run _ _ _ c) by done. simpl.
    apply all_conv_upd; [done |]. apply Hm. by eapply Hw.
  - unfold on_conversation. by rewrite Hc.
Qed.

Lemma preserves_get_or_create P cid :
  P fresh_conversation → preserves (all_conv P) (get_or_create_conversation cid).
Proof.
  intros Hfresh w Hw. rewrite get_or_create_run. simpl.
  apply all_conv_upd; [done |]. unfold conversation_for.
  destruct (conversations w !! cid) as [c |] eqn:Hc; [by eapply Hw | done].
Qed.

(** Another conversation is out of reach of a method call. *)
Lemma on_conversation_elsewhere {A} cid cid' (m : M Conversation A) x :
  cid ≠ cid' →
  preserves (fun w => conversations w !! cid' = x) (on_conversation cid m).
Proof.
  intros Hne w Hw. unfold on_conversation.
  destruct (conversations w !! cid) as [c |]; [| done].
  destruct (m c) as [c' r]. simpl. by rewrite lookup_insert_ne.
Qed.

Lemma get_or_create_elsewhere cid cid' x :
  cid ≠ cid' →
  preserves (fun w => conversations w !! cid' = x) (get_or_create_conversation cid).
Proof.
  intros Hne w Hw. rewrite get_or_create_run. simpl. by rewrite lookup_insert_ne.
Qed.

Lemma on_conversation_registered {A} cid cid' (m : M Conversation A) :
  preserves (fun w => is_Some (conversations w !! cid')) (on_conversation cid m).
Proof.
  intros w Hw. unfold on_conversation.
  destruct (conversations w !! cid) as [c |] eqn:Hc; [| done].
  destruct (m c) as [c' r]. simpl. destruct (decide (cid = cid')) as [<- | Hne].
  - by rewrite lookup_insert_eq.
  - by rewrite lookup_insert_ne.
Qed.

Lemma keeps_query_groq_api env cid : keeps_registry (query_groq_api env cid).
Proof. unfold query_groq_api. repeat keeps_step. Qed.

Create HintDb preserves discriminated.
#[local] Hint Resolve preserves_ret preserves_raise registry_only_all_conv
  registry_only_lookup registry_only_registered on_conversation_registered : preserves.
#[local] Hint Resolve keeps_decorate keeps_query_groq_api : keeps.
#[local] Hint Extern 1 (preserves (all_conv _) (on_conversation _ _)) =>
  apply preserves_on_conversation : preserves.
#[local] Hint Extern 1 (preserves (all_conv _) (get_or_create_conversation _)) =>
  apply preserves_get_or_create : preserves.
#[local] Hint Extern 1 (preserves _ (on_conversation _ _)) =>
  apply on_conversation_elsewhere; assumption : preserves.
#[local] Hint Extern 1 (preserves _ (get_or_create_conversation _)) =>
  apply get_or_create_elsewhere; assumption : preserves.
#[local] Hint Extern 3 (preserves _ _) =>
  apply preserves_of_keeps; [solve [auto with preserves] | solve [auto with keeps]]
  : preserves.

Ltac preserves_step :=
  first [ solve [auto with preserves]
        | apply preserves_bind; [| intros ?]
        | apply preserves_try; [| intros ?]
        | match goal with
          | |- preserves _ (match ?x with _ => _ end) => destruct x
          | |- preserves _ (if ?b then _ else _) => destruct b
          end ].

(** [chat], whatever it is asked, whether it returns or raises. *)
Lemma preserves_chat_all P env input :
  P fresh_conversation →
  (∀ tone, keeps_conv P (set_tone tone)) →
  (∀ message, keeps_conv P (remember message)) →
  keeps_conv P inject_memory_context →
  (∀ m, keeps_conv P (modify (append_message m))) →
  preserves (all_conv P) (chat env input).
Proof.
  intros Hfresh Htone Hrem Hinj Happ.
  unfold chat, chat_gif, chat_tone, chat_reply. repeat preserves_step.
Qed.

(** *** The head of the transcript *)

Lemma head_prompt_fresh : head_prompt fresh_conversation.
Proof. by eexists. Qed.

Lemma head_prompt_set_tone tone : keeps_conv head_prompt (set_tone tone).
Proof.
  intros c Hc.
  destruct (TONE_PROMPTS !! Text.strip (Text.lower tone)) as [prompt |] eqn:Hkey.
  - rewrite (set_tone_valid _ prompt) by done. by exists prompt.
  - by rewrite set_tone_invalid.
Qed.

Lemma head_prompt_remember message : keeps_conv head_prompt (remember message).
Proof.
  intros c (prompt & Ht & Hh).
  destruct (remember_frame message c) as (Hm & _ & _ & Hct & _).
  exists prompt. by rewrite Hm, Hct.
Qed.

Lemma head_list_insert_at {A} (x y : A) l :
  head l = Some y → head (list_insert_at 1 x l) = Some y.
Proof. by destruct l. Qed.

Lemma head_prompt_inject : keeps_conv head_prompt inject_memory_context.
Proof.
  intros c (prompt & Ht & Hh). rewrite inject_memory_context_run. simpl.
  destruct (memory_facts (memory c)); [by exists prompt |].
  exists prompt. split; [done |]. by apply head_list_insert_at.
Qed.

Lemma head_prompt_append m : keeps_conv head_prompt (modify (append_message m)).
Proof.
  intros c (prompt & Ht & Hh). exists prompt. split; [done |]. simpl.
  by destruct (messages c).
Qed.

Lemma head_prompt_init tone title c :
  Conversation_init tone title = Returns c → head_prompt c.
Proof.
  unfold Conversation_init.
  destruct (TONE_PROMPTS !! Text.strip (Text.lower tone)) as [prompt |] eqn:Hkey.
  - rewrite (set_tone_valid _ prompt) by done. intros [= <-]. by exists prompt.
  - by rewrite set_tone_invalid.
Qed.

(** *** The shape of the memory *)

Lemma memory_shape_fresh : memory_shape fresh_conversation.
Proof.
  split.
  - intros key [x Hx]. simpl in Hx. by rewrite lookup_empty in Hx.
  - intros mood Hm. simpl in Hm. by rewrite lookup_empty in Hm.
Qed.

Lemma memory_shape_same_memory c c' :
  memory c' = memory c → memory_shape c → memory_shape c'.
Proof. unfold memory_shape. by intros ->. Qed.

Lemma memory_shape_set_tone tone : keeps_conv memory_shape (set_tone tone).
Proof.
  intros c Hc. apply (memory_shape_same_memory c); [| done].
  destruct (TONE_PROMPTS !! Text.strip (Text.lower tone)) as [prompt |] eqn:Hkey.
  - by rewrite (set_tone_valid _ prompt).
  - by rewrite set_tone_invalid.
Qed.

Lemma memory_shape_name c g :
  memory_shape c →
  memory_shape (set_memory (<["name" := g]> (memory c)) c).
Proof.
  intros [Hkeys Hmood]. split; simpl.
  - intros key. destruct (decide ("name" = key)) as [<- | Hne]; [by left |].
    rewrite lookup_insert_ne by done. apply Hkeys.
  - intros mood. rewrite lookup_insert_ne by done. apply Hmood.
Qed.

Lemma memory_shape_mood c g :
  g ∉ fillers →
  memory_shape c →
  memory_shape (set_memory (<["mood" := g]> (memory c)) c).
Proof.
  intros Hg [Hkeys Hmood]. split; simpl.
  - intros key. destruct (decide ("mood" = key)) as [<- | Hne]; [by right |].
    rewrite lookup_insert_ne by done. apply Hkeys.
  - intros mood. rewrite lookup_insert_eq. by intros [= <-].
Qed.

Lemma memory_shape_remember message : keeps_conv memory_shape (remember message).
Proof.
  intros c Hc. rewrite remember_unfold.
  destruct (Re.search name_pattern message) as [[g |] |];
    destruct (Re.search mood_pattern message) as [[g' |] |]; simpl; try done;
    try (by apply memory_shape_name);
    case_bool_decide; simpl; try done; try (by apply memory_shape_name);
    by apply memory_shape_mood; [| try apply memory_shape_name].
Qed.

Lemma memory_shape_inject : keeps_conv memory_shape inject_memory_context.
Proof.
  intros c Hc. apply (memory_shape_same_memory c); [| done].
  rewrite inject_memory_context_run. simpl. by destruct (memory_facts (memory c)).
Qed.

Lemma memory_shape_append m : keeps_conv memory_shape (modify (append_message m)).
Proof. intros c Hc. by apply (memory_shape_same_memory c). Qed.

Lemma memory_shape_init tone title c :
  Conversation_init tone title = Returns c → memory_shape c.
Proof.
  unfold Conversation_init.
  destruct (TONE_PROMPTS !! Text.strip (Text.lower tone)) as [prompt |] eqn:Hkey.
  - rewrite (set_tone_valid _ prompt) by done. intros [= <-].
    apply (memory_shape_same_memory fresh_conversation); [done |].
    apply memory_shape_fresh.
  - by rewrite set_tone_invalid.
Qed.

(** *** The registry endpoints *)

Lemma preserves_new_chat P data :
  (∀ tone title c, Conversation_init tone title = Returns c → P c) →
  preserves (all_conv P) (new_chat data).
Proof.
  intros Hinit w Hw. unfold new_chat, bind, get. simpl.
  case_bool_decide; [done |].
  destruct (Conversation_init _ _) as [c | e] eqn:Hc; [| done]. simpl.
  apply (all_conv_upd P _ c w Hw). by eapply Hinit.
Qed.

Lemma preserves_delete_chat P cid : preserves (all_conv P) (delete_chat cid).
Proof.
  intros w Hw. unfold delete_chat, bind, get. simpl.
  destruct (conversations w !! cid) as [c |] eqn:Hc; [| done]. simpl.
  intros cid' c' H. simpl in H. apply lookup_delete_Some in H as [_ H]. by eapply Hw.
Qed.

Lemma preserves_rename_chat P data :
  (∀ t c, P c → P (set_title t c)) →
  preserves (all_conv P) (rename_chat data).
Proof.
  intros Htitle w Hw. unfold rename_chat. rewrite bind_get.
  destruct (conversations w !! _) as [c |] eqn:Hc; [| done].
  rewrite (bind_returns _ _ _ _ _ (on_conversation_modify _ _ _ _ Hc)). simpl.
  apply all_conv_upd; [done |]. apply Htitle. by eapply Hw.
Qed.

(** X1. The first entry of every registered transcript is the system
    prompt of the conversation's current tone, and the current tone is one
    of the four registered: each endpoint that writes the registry keeps it
    so, whether it returns or raises. *)
Theorem endpoints_keep_head_prompt (env : Env) (w : World) :
  all_conv head_prompt w →
  (∀ input, all_conv head_prompt (fst (chat env input w)))
  ∧ (∀ data, all_conv head_prompt (fst (new_chat data w)))
  ∧ (∀ data, all_conv head_prompt (fst (rename_chat data w)))
  ∧ (∀ cid, all_conv head_prompt (fst (delete_chat cid w))).
Proof.
  intros Hw. split; [| split; [| split]].
  - intros input. apply preserves_chat_all; try done.
    + apply head_prompt_fresh.
    + apply head_prompt_set_tone.
    + apply head_prompt_remember.
    + apply head_prompt_inject.
    + apply head_prompt_append.
  - intros data. apply preserves_new_chat; [apply head_prompt_init | done].
  - intros data. by apply preserves_rename_chat.
  - intros cid. by apply preserves_delete_chat.
Qed.

Lemma all_conv_singleton P cid c : P c → all_conv P (Wld {[cid := c]} []).
Proof. intros Hc cid' c' H. simpl in H. by apply lookup_singleton_Some in H as [_ <-]. Defined.

Lemma endpoints_keep_head_prompt_witness :
  all_conv head_prompt
    (fst (chat offline_env (say "c1" "/tone poetic") (Wld {["c1" := fresh_conversation]} []))).
Proof.
  apply (proj1 (endpoints_keep_head_prompt offline_env
                  (Wld {["c1" := fresh_conversation]} [])
                  (all_conv_singleton head_prompt "c1" fresh_conversation head_prompt_fresh))).
Defined.

(** X2. The memory of every registered conversation holds no key but
    [name] and [mood], and its mood is none of the three fillers: each
    endpoint that writes the registry keeps it so. *)
Theorem endpoints_keep_memory_shape (env : Env) (w : World) :
  all_conv memory_shape w →
  (∀ input, all_conv memory_shape (fst (chat env input w)))
  ∧ (∀ data, all_conv memory_shape (fst (new_chat data w)))
  ∧ (∀ data, all_conv memory_shape (fst (rename_chat data w)))
  ∧ (∀ cid, all_conv memory_shape (fst (delete_chat cid w))).
Proof.
  intros Hw. split; [| split; [| split]].
  - intros input. apply preserves_chat_all; try done.
    + apply memory_shape_fresh.
    + apply memory_shape_set_tone.
    + apply memory_shape_remember.
    + apply memory_shape_inject.
    + apply memory_shape_append.
  - intros data. apply preserves_new_chat; [apply memory_shape_init | done].
  - intros data. apply preserves_rename_chat; [| done].
    intros t c Hc. by apply (memory_shape_same_memory c).
  - intros cid. by apply preserves_delete_chat.
Qed.

Lemma endpoints_keep_memory_shape_witness :
  all_conv memory_shape
    (fst (chat offline_env (say "c1" "I am a bit") (Wld {["c1" := fresh_conversation]} []))).
Proof.
  apply (proj1 (endpoints_keep_memory_shape offline_env
                  (Wld {["c1" := fresh_conversation]} [])
                  (all_conv_singleton memory_shape "c1" fresh_conversation memory_shape_fresh))).
Defined.

(** *** One conversation at a time *)

Lemma chat_elsewhere env input cid' x :
  UserInput.conversation_id input ≠ cid' →
  preserves (fun w => conversations w !! cid' = x) (chat env input).
Proof.
  intros Hne. unfold chat, chat_gif, chat_tone, chat_reply. repeat preserves_step.
Qed.

(** X3. An endpoint writes no conversation but the one its request names:
    the entry of any other identifier is the same after [chat], [new_chat],
    [rename_chat] and [delete_chat] as before, whether they return or
    raise. *)
Theorem endpoints_touch_one_conversation (env : Env) (w : World) (cid cid' : string) :
  cid ≠ cid' →
  (∀ message role,
     conversations (fst (chat env (UserInput.Build message role cid) w)) !! cid'
     = conversations w !! cid')
  ∧ (∀ tone title,
       conversations (fst (new_chat (NewChatRequest.Build cid tone title) w)) !! cid'
       = conversations w !! cid')
  ∧ (∀ new_title,
       conversations (fst (rename_chat (RenameChatRequest.Build cid new_title) w)) !! cid'
       = conversations w !! cid')
  ∧ conversations (fst (delete_chat cid w)) !! cid' = conversations w !! cid'.
Proof.
  intros Hne. split; [| split; [| split]].
  - intros message role.
    by apply (chat_elsewhere env (UserInput.Build message role cid) cid'
                (conversations w !! cid') Hne w).
  - intros tone title. unfold new_chat, bind, get. simpl.
    case_bool_decide; [done |].
    destruct (Conversation_init tone title) as [c | e]; [| done]. simpl.
    by rewrite lookup_insert_ne.
  - intros new_title. unfold rename_chat. rewrite bind_get. simpl.
    destruct (conversations w !! cid) as [c |] eqn:Hc; [| done].
    rewrite (bind_returns _ _ _ _ _ (on_conversation_modify _ _ _ _ Hc)). simpl.
    by rewrite lookup_insert_ne.
  - unfold delete_chat, bind, get. simpl.
    destruct (conversations w !! cid) as [c |]; [| done]. simpl.
    by rewrite lookup_delete_ne.
Qed.

Lemma endpoints_touch_one_conversation_witness :
  conversations (fst (chat offline_env (UserInput.Build "/tone poetic" "user" "c1")
                        (Wld {["c2" := fresh_conversation]} []))) !! "c2"
  = Some fresh_conversation.
Proof.
  exact (proj1 (endpoints_touch_one_conversation offline_env
                  (Wld {["c2" := fresh_conversation]} []) "c1" "c2" ltac:(discriminate))
           "/tone poetic" "user").
Defined.

(** X4. [chat] always leaves a conversation registered under the
    identifier of the request, whatever the message and whether the handler
    returns or raises: the implicit creation is not undone by a failure of
    the classifier or of the completion. *)
Theorem chat_leaves_conversation_registered (env : Env) (input : UserInput.t) (w : World) :
  is_Some (conversations (fst (chat env input w)) !! UserInput.conversation_id input).
Proof.
  unfold chat. rewrite (bind_returns _ _ _ _ _ (get_or_create_run _ _)).
  match goal with
  | |- is_Some (conversations (fst (?m ?w0)) !! ?c) =>
      assert (Hp : preserves (fun w1 => is_Some (conversations w1 !! c)) m)
  end.
  { unfold chat_gif, chat_tone, chat_reply. repeat preserves_step. }
  apply Hp. by rewrite lookup_upd.
Qed.

(** ** The pipeline, case by case *)

Lemma decorate_skipped env cid sentiment text w c :
  conversations w !! cid = Some c →
  wants_gif sentiment (current_tone c) = false →
  decorate env cid sentiment text w = (w, Returns (text, JNull)).
Proof.
  intros Hc Hw. unfold decorate.
  rewrite (bind_returns _ _ _ _ _ (attr_run _ _ _ _ Hc)).
  unfold wants_gif in Hw. by rewrite Hw.
Qed.

Lemma decorate_above env cid sentiment text w c :
  conversations w !! cid = Some c →
  wants_gif sentiment (current_tone c) = true →
  below_threshold (draw env (now w)) = false →
  decorate env cid sentiment text w = (log RandomDraw w, Returns (text, JNull)).
Proof.
  intros Hc Hw Hd. unfold decorate.
  rewrite (bind_returns _ _ _ _ _ (attr_run _ _ _ _ Hc)).
  unfold wants_gif in Hw. rewrite Hw.
  unfold bind, get, modify, ret. cbv beta iota.
  unfold below_threshold in Hd. by rewrite Hd.
Qed.

Lemma decorate_below env cid sentiment text w c :
  conversations w !! cid = Some c →
  wants_gif sentiment (current_tone c) = true →
  below_threshold (draw env (now w)) = true →
  ∃ v,
    get_gif_url env (if String.eqb sentiment "positive" then "happy" else "funny")
      (log RandomDraw w)
    = (fst (get_gif_url env (if String.eqb sentiment "positive" then "happy" else "funny")
              (log RandomDraw w)), Returns v)
    ∧ decorate env cid sentiment text w
      = (fst (get_gif_url env (if String.eqb sentiment "positive" then "happy" else "funny")
                (log RandomDraw w)),
         Returns (decorated env text v, v)).
Proof.
  intros Hc Hw Hd. unfold decorate.
  rewrite (bind_returns _ _ _ _ _ (attr_run _ _ _ _ Hc)).
  unfold wants_gif in Hw. rewrite Hw.
  set (q := if String.eqb sentiment "positive" then "happy" else "funny").
  destruct (get_gif_url_returns env q (log RandomDraw w)) as [v Hv].
  exists v. rewrite Hv. split; [done |].
  unfold bind, get, modify, ret. cbv beta iota.
  unfold below_threshold in Hd. rewrite Hd. fold q. rewrite Hv. unfold decorated.
  destruct (equals_str v FALLBACK_GIF); [done |]. by destruct (truthy v).
Qed.

(** The message reaches the classifier with the memory already written. *)
Lemma chat_reply_classifier_raises env input w c e :
  let cid := UserInput.conversation_id input in
  let user_msg := Text.strip (UserInput.message input) in
  conversations w !! cid = Some c →
  sentiment env (now w) user_msg = Raises e →
  chat_reply env input user_msg w
  = (log (SentimentCall user_msg) (upd cid (fst (remember user_msg c)) w), Raises e).
Proof.
  intros cid user_msg Hc Hs. unfold chat_reply. fold cid.
  pose proof (on_conversation_run cid (remember user_msg) w c Hc) as H1.
  rewrite remember_returns in H1.
  rewrite (bind_returns _ _ _ _ _ H1). clear H1.
  rewrite bind_get, bind_modify. rewrite now_upd, Hs. reflexivity.
Qed.

Lemma current_tone_prompt_assembled input label c :
  current_tone (prompt_assembled input label c) = current_tone c.
Proof.
  unfold prompt_assembled, append_message, with_memory_context. simpl.
  destruct (remember_frame (Text.strip (UserInput.message input)) c)
    as (_ & _ & _ & Hct & _).
  destruct (wants_memory_context _); [| done].
  rewrite inject_memory_context_run. simpl.
  by destruct (memory_facts _).
Qed.

(** X5. A failure of the classifier is the failure of [chat].  For an
    ASCII message that is no command, on an active conversation with its
    tone set: if the classifier raises, [chat] raises the same exception; the
    call is the only one recorded; the transcript is left as it was, but the
    memory has been written by [remember] before the call. *)
Theorem classifier_failure_propagates (env : Env) (input : UserInput.t) (w : World)
    (e : exn) :
  let cid := UserInput.conversation_id input in
  let c := conversation_for cid w in
  let user_msg := Text.strip (UserInput.message input) in
  Text.is_ascii (UserInput.message input) = true →
  is_command (UserInput.message input) = false →
  active c = true →
  tone_set c = true →
  sentiment env (now w) user_msg = Raises e →
  chat env input w
  = (log (SentimentCall user_msg) (upd cid (fst (remember user_msg c)) w), Raises e)
  ∧ messages (fst (remember user_msg c)) = messages c.
Proof.
  intros cid c user_msg _ Hcmd Hactive Htone Hs. split.
  - rewrite chat_not_command by done. fold cid c.
    rewrite (chat_reply_classifier_raises env input (upd cid c w) c e)
      by (first [apply lookup_upd | done]).
    fold cid user_msg. by rewrite upd_upd.
  - apply remember_frame.
Qed.

(** X6. A failure of the completion is a 500.  For an ASCII message that
    is no command, on an active conversation with its tone set, with the
    classifier's answer, an ASCII label, in: if the completion call raises, [chat] raises
    [HTTPException(500)] whose detail is ["Groq API failed: "] followed by
    the text of the exception; the stored transcript ends with the mood note
    and the entry of the message, without a reply; the classifier and the
    completion are the only calls recorded, no draw is made and no GIF is
    asked for. *)
Theorem completion_failure_is_500 (env : Env) (input : UserInput.t) (w : World)
    (label err : string) :
  let cid := UserInput.conversation_id input in
  let c := conversation_for cid w in
  let user_msg := Text.strip (UserInput.message input) in
  let c' := prompt_assembled input label c in
  Text.is_ascii (UserInput.message input) = true →
  Text.is_ascii label = true →
  is_command (UserInput.message input) = false →
  active c = true →
  tone_set c = true →
  sentiment env (now w) user_msg = Returns label →
  groq env (S (now w)) (messages c') = inl err →
  chat env input w
  = (log (GroqCall (messages c')) (log (SentimentCall user_msg) (upd cid c' w)),
     Raises (HTTPException 500 ("Groq API failed: " +:+ err))).
Proof.
  intros cid c user_msg c' _ _ Hcmd Hactive Htone Hs Hg.
  rewrite chat_not_command by done. fold cid c.
  rewrite (chat_reply_assembles env input (upd cid c w) c label)
    by (first [apply lookup_upd | done]).
  fold cid user_msg c'. rewrite upd_upd.
  set (w1 := log _ _). unfold chat_complete. fold cid.
  assert (Hc1 : conversations w1 !! cid = Some c') by apply lookup_upd.
  pose proof (query_groq_api_run env cid w1 c' Hc1) as Hq.
  unfold w1 in Hq at 3. rewrite now_log, now_upd, Hg in Hq.
  by rewrite (bind_raises _ _ _ _ _ Hq).
Qed.

(** X7. The plain reply.  For an ASCII message that is no command, on an
    active conversation with its tone set, with the classifier's answer, an
    ASCII label, in and the completion's text back: if the sentiment is not positive and the tone is
    not [funny], or if the draw is not below 0.3, the reply of [chat] is the
    text of the completion as it came, its [gif] is [None], the text is
    appended as the assistant entry, and no request for a GIF is made.  A
    draw is recorded only when the sentiment is positive or the tone is
    [funny]. *)
Theorem plain_reply (env : Env) (input : UserInput.t) (w : World) (label text : string) :
  let cid := UserInput.conversation_id input in
  let c := conversation_for cid w in
  let user_msg := Text.strip (UserInput.message input) in
  let c' := prompt_assembled input label c in
  let wants := wants_gif (Text.lower label) (current_tone c) in
  Text.is_ascii (UserInput.message input) = true →
  Text.is_ascii label = true →
  is_command (UserInput.message input) = false →
  active c = true →
  tone_set c = true →
  sentiment env (now w) user_msg = Returns label →
  groq env (S (now w)) (messages c') = inr text →
  wants && below_threshold (draw env (S (S (now w)))) = false →
  chat env input w
  = ((if wants then log RandomDraw else id)
       (log (GroqCall (messages c'))
          (log (SentimentCall user_msg)
             (upd cid (append_message (Msg "assistant" text) c') w))),
     Returns (ChatResponse.Build text cid (Some JNull))).
Proof.
  intros cid c user_msg c' wants _ _ Hcmd Hactive Htone Hs Hg Hplain.
  rewrite chat_not_command by done. fold cid c.
  rewrite (chat_reply_assembles env input (upd cid c w) c label)
    by (first [apply lookup_upd | done]).
  fold cid user_msg c'. rewrite upd_upd.
  set (w1 := log _ _). unfold chat_complete. fold cid.
  assert (Hc1 : conversations w1 !! cid = Some c') by apply lookup_upd.
  pose proof (query_groq_api_run env cid w1 c' Hc1) as Hq.
  unfold w1 in Hq at 3. rewrite now_log, now_upd, Hg in Hq.
  rewrite (bind_returns _ _ _ _ _ Hq).
  set (w2 := log _ w1).
  assert (Hc2 : conversations w2 !! cid = Some c') by apply lookup_upd.
  assert (Hwants : wants_gif (Text.lower label) (current_tone c') = wants).
  { unfold wants, c'. by rewrite current_tone_prompt_assembled. }
  destruct wants eqn:Hw; simpl in Hplain.
  - assert (Hd : below_threshold (draw env (now w2)) = false).
    { unfold w2, w1. by rewrite !now_log, now_upd. }
    rewrite (bind_returns _ _ _ _ _ (decorate_above _ _ _ _ _ _ Hc2 Hwants Hd)).
    cbv beta iota.
    assert (Hc3 : conversations (log RandomDraw w2) !! cid = Some c') by apply lookup_upd.
    rewrite (bind_returns _ _ _ _ _ (on_conversation_modify _ _ _ _ Hc3)).
    unfold w2, w1. by rewrite !upd_log, upd_upd.
  - rewrite (bind_returns _ _ _ _ _ (decorate_skipped _ _ _ _ _ _ Hc2 Hwants)).
    cbv beta iota.
    rewrite (bind_returns _ _ _ _ _ (on_conversation_modify _ _ _ _ Hc2)).
    unfold w2, w1. by rewrite !upd_log, upd_upd.
Qed.

Lemma classifier_failure_propagates_witness :
  snd (chat classifier_down_env (say "c1" "my name is bob") no_events)
  = Raises (OtherException "RuntimeError")
  ∧ conversations (fst (chat classifier_down_env (say "c1" "my name is bob") no_events)) !! "c1"
    = Some (set_memory {["name" := "Bob"]} fresh_conversation).
Proof.
  destruct (classifier_failure_propagates classifier_down_env
              (say "c1" "my name is bob") no_events (OtherException "RuntimeError")
              eq_refl eq_refl eq_refl eq_refl eq_refl) as [H _].
  rewrite H. split; vm_compute; reflexivity.
Defined.

Lemma completion_failure_is_500_witness :
  snd (chat groq_down_env (say "c1" "hello") no_events)
  = Raises (HTTPException 500 "Groq API failed: rate limit")
  ∧ messages <$> conversations (fst (chat groq_down_env (say "c1" "hello") no_events)) !! "c1"
    = Some [Msg "system" "You are a funny and witty assistant 😂✨";
            Msg "system" "The user seems sad. Be empathetic and comforting in your response. 🥺";
            Msg "user" "hello"].
Proof.
  rewrite (completion_failure_is_500 groq_down_env (say "c1" "hello") no_events
             "NEGATIVE" "rate limit" eq_refl eq_refl eq_refl eq_refl eq_refl eq_refl
             eq_refl).
  split; vm_compute; reflexivity.
Defined.

Lemma plain_reply_witness :
  chat offline_env (say "c1" "hello") no_events
  = (Wld {["c1" := Conv [Msg "system" "You are a funny and witty assistant 😂✨";
                         Msg "system" "The user is neutral. Respond normally.";
                         Msg "user" "hello";
                         Msg "assistant" "ok"] true true "funny" ∅ "New Chat"]}
       [SentimentCall "hello";
        GroqCall [Msg "system" "You are a funny and witty assistant 😂✨";
                  Msg "system" "The user is neutral. Respond normally.";
                  Msg "user" "hello"];
        RandomDraw],
     Returns (ChatResponse.Build "ok" "c1" (Some JNull))).
Proof.
  rewrite (plain_reply offline_env (say "c1" "hello") no_events "NEUTRAL" "ok"
             eq_refl eq_refl eq_refl eq_refl eq_refl eq_refl eq_refl eq_refl).
  vm_compute. reflexivity.
Defined.

(** X8. The decorated reply.  For an ASCII message that is no command, on
    an active conversation with its tone set, with the classifier's answer,
    an ASCII label, in and the completion's text back: if the sentiment is positive or the tone is
    [funny], and the draw is below 0.3, [chat] asks [get_gif_url] for
    ["happy"] when the sentiment is positive and for ["funny"] otherwise;
    the reply is the text of the completion followed by the GIF line (after
    the fallback message, if the fixed asset came back) or, for an empty
    URL, the text alone; this reply is what is appended as the assistant
    entry, and [gif] carries the value that came back. *)
Theorem decorated_reply (env : Env) (input : UserInput.t) (w : World) (label text : string) :
  let cid := UserInput.conversation_id input in
  let c := conversation_for cid w in
  let user_msg := Text.strip (UserInput.message input) in
  let c' := prompt_assembled input label c in
  let query := if String.eqb (Text.lower label) "positive" then "happy" else "funny" in
  let w3 := log RandomDraw (log (GroqCall (messages c'))
                              (log (SentimentCall user_msg) (upd cid c' w))) in
  Text.is_ascii (UserInput.message input) = true →
  Text.is_ascii label = true →
  is_command (UserInput.message input) = false →
  active c = true →
  tone_set c = true →
  sentiment env (now w) user_msg = Returns label →
  groq env (S (now w)) (messages c') = inr text →
  wants_gif (Text.lower label) (current_tone c) = true →
  below_threshold (draw env (S (S (now w)))) = true →
  ∃ v,
    get_gif_url env query w3 = (fst (get_gif_url env query w3), Returns v)
    ∧ chat env input w
      = (upd cid (append_message (Msg "assistant" (decorated env text v)) c')
           (fst (get_gif_url env query w3)),
         Returns (ChatResponse.Build (decorated env text v) cid (Some (or_none v)))).
Proof.
  intros cid c user_msg c' query w3 _ _ Hcmd Hactive Htone Hs Hg Hwants Hbelow.
  rewrite chat_not_command by done. fold cid c.
  rewrite (chat_reply_assembles env input (upd cid c w) c label)
    by (first [apply lookup_upd | done]).
  fold cid user_msg c'. rewrite upd_upd.
  set (w1 := log _ _). unfold chat_complete. fold cid.
  assert (Hc1 : conversations w1 !! cid = Some c') by apply lookup_upd.
  pose proof (query_groq_api_run env cid w1 c' Hc1) as Hq.
  unfold w1 in Hq at 3. rewrite now_log, now_upd, Hg in Hq.
  rewrite (bind_returns _ _ _ _ _ Hq).
  set (w2 := log _ w1).
  assert (Hc2 : conversations w2 !! cid = Some c') by apply lookup_upd.
  assert (Hw' : wants_gif (Text.lower label) (current_tone c') = true).
  { unfold c'. by rewrite current_tone_prompt_assembled. }
  assert (Hd : below_threshold (draw env (now w2)) = true).
  { unfold w2, w1. by rewrite !now_log, now_upd. }
  destruct (decorate_below env cid (Text.lower label) text w2 c' Hc2 Hw' Hd)
    as (v & Hv & Hdec).
  fold query in Hv, Hdec. change (log RandomDraw w2) with w3 in Hv, Hdec.
  exists v. split; [done |].
  rewrite (bind_returns _ _ _ _ _ Hdec). cbv beta iota.
  assert (Hc3 : conversations (fst (get_gif_url env query w3)) !! cid = Some c').
  { rewrite (keeps_get_gif_url env query w3). apply lookup_upd. }
  by rewrite (bind_returns _ _ _ _ _ (on_conversation_modify _ _ _ _ Hc3)).
Qed.

Lemma decorated_reply_witness :
  snd (chat happy_env (say "c1" "hello") no_events)
  = Returns (ChatResponse.Build ("ok" +:+ nl +:+ "![GIF](https://t/1.gif)") "c1"
               (Some (JStr "https://t/1.gif")))
  ∧ events (fst (chat happy_env (say "c1" "hello") no_events)) !! 3
    = Some (TenorGet "https://api.tenor.com/v2/search?key=KEY&q=happy&limit=5&contentfilter=medium").
Proof.
  destruct (decorated_reply happy_env (say "c1" "hello") no_events "POSITIVE" "ok"
              eq_refl eq_refl eq_refl eq_refl eq_refl eq_refl eq_refl eq_refl eq_refl)
    as (v & Hv & ->).
  assert (Hval : v = JStr "https://t/1.gif") by (vm_compute in Hv; congruence).
  rewrite Hval. split; vm_compute; reflexivity.
Defined.

(** ** The history view *)

Lemma history_of_app l1 l2 : history_of (l1 ++ l2) = history_of l1 ++ history_of l2.
Proof. unfold history_of. by rewrite filter_app, map_app. Qed.

Lemma history_of_system text l : history_of (Msg "system" text :: l) = history_of l.
Proof.
  unfold history_of. rewrite filter_cons_False; [done |]. simpl. intros H.
  by repeat (apply elem_of_cons in H as [H | H]; [done |]); apply elem_of_nil in H.
Qed.

Lemma history_of_insert_system i text l :
  history_of (list_insert_at i (Msg "system" text) l) = history_of l.
Proof.
  unfold list_insert_at. rewrite history_of_app, history_of_system, <- history_of_app.
  by rewrite take_drop.
Qed.

Lemma history_of_with_memory_context c :
  history_of (messages (with_memory_context c)) = history_of (messages c).
Proof.
  unfold with_memory_context. destruct (wants_memory_context c); [| done].
  rewrite inject_memory_context_run. simpl.
  destruct (memory_facts (memory c)); [done |]. simpl.
  apply history_of_insert_system.
Qed.

Lemma history_of_prompt_assembled input label c :
  history_of (messages (prompt_assembled input label c))
  = history_of (messages c)
    ++ history_of [Msg (UserInput.role input) (UserInput.message input)].
Proof.
  unfold prompt_assembled, append_message. simpl.
  rewrite !history_of_app, history_of_with_memory_context.
  destruct (remember_frame (Text.strip (UserInput.message input)) c) as (-> & _).
  rewrite history_of_system. change (history_of []) with (@nil (string * string)).
  by rewrite app_nil_r.
Qed.

(** X9. What a turn adds to the history.  For an ASCII message that is no
    command, on an active conversation with its tone set, with the
    classifier's answer, an ASCII label, in: after [chat], [get_chat_history] returns the
    history as it was, then the entry of the message if its declared role is
    [user] or [assistant], then, if [chat] returned, the assistant entry
    with the reply it returned.  The mood note and the memory context never
    show. *)
Theorem history_after_turn (env : Env) (input : UserInput.t) (w : World) (label : string) :
  let cid := UserInput.conversation_id input in
  let c := conversation_for cid w in
  Text.is_ascii (UserInput.message input) = true →
  Text.is_ascii label = true →
  is_command (UserInput.message input) = false →
  active c = true →
  tone_set c = true →
  sentiment env (now w) (Text.strip (UserInput.message input)) = Returns label →
  snd (get_chat_history cid (fst (chat env input w)))
  = Returns (history_of (messages c)
             ++ history_of [Msg (UserInput.role input) (UserInput.message input)]
             ++ match snd (chat env input w) with
                | Returns reply => [("assistant", ChatResponse.response reply)]
                | Raises _ => []
                end).
Proof.
  intros cid c _ _ Hcmd Hactive Htone Hs.
  rewrite chat_not_command by done. fold cid c.
  rewrite (chat_reply_assembles env input (upd cid c w) c label)
    by (first [apply lookup_upd | done]).
  fold cid. set (w1 := log _ _).
  destruct (chat_complete_commits env input (Text.lower label) w1
              (prompt_assembled input label c)) as (more & _ & Hconv).
  { apply lookup_upd. }
  fold cid in Hconv. unfold get_chat_history. rewrite bind_get.
  rewrite Hconv, lookup_insert_eq. unfold ret. simpl. f_equal.
  fold (history_of).
  destruct (snd (chat_complete env input (Text.lower label) w1)) as [reply | e].
  - change (history_of (messages (prompt_assembled input label c)
                        ++ [Msg "assistant" (ChatResponse.response reply)])
            = history_of (messages c)
              ++ history_of [Msg (UserInput.role input) (UserInput.message input)]
              ++ [("assistant", ChatResponse.response reply)]).
    rewrite history_of_app, history_of_prompt_assembled, <- app_assoc. reflexivity.
  - change (history_of (messages (prompt_assembled input label c))
            = history_of (messages c)
              ++ history_of [Msg (UserInput.role input) (UserInput.message input)] ++ []).
    by rewrite history_of_prompt_assembled, app_nil_r.
Qed.

Lemma history_after_turn_witness :
  snd (get_chat_history "c1"
         (fst (chat offline_env (UserInput.Build "my name is bob" "system" "c1")
                 (fst (chat offline_env (say "c1" "hello") no_events)))))
  = Returns [("user", "hello"); ("assistant", "ok"); ("assistant", "ok")].
Proof.
  eapply eq_trans.
  - exact (history_after_turn offline_env (UserInput.Build "my name is bob" "system" "c1")
             (fst (chat offline_env (say "c1" "hello") no_events)) "NEUTRAL"
             eq_refl eq_refl eq_refl eq_refl eq_refl eq_refl).
  - vm_compute. reflexivity.
Defined.

(** ** The commands *)

(** Up to the dispatch: the conversation is there and active. *)
Lemma chat_enters env input w :
  let cid := UserInput.conversation_id input in
  let c := conversation_for cid w in
  let user_msg := Text.strip (UserInput.message input) in
  active c = true →
  chat env input w
  = (if Text.startswith "/gif" (Text.lower user_msg) then chat_gif env cid user_msg
     else if Text.startswith "/tone" (Text.lower user_msg) then chat_tone env cid user_msg
     else let* has_tone := attr cid tone_set in
          if negb has_tone then ret (ChatResponse.Build onboarding cid None)
          else chat_reply env input user_msg) (upd cid c w).
Proof.
  intros cid c user_msg Hactive. unfold chat. fold cid.
  rewrite (bind_returns _ _ _ _ _ (get_or_create_run _ _)). fold c.
  rewrite (bind_returns _ _ _ _ _ (attr_run _ _ _ _ (lookup_upd _ _ _))).
  by rewrite Hactive.
Qed.

(** X10. The [/gif] command.  On an active conversation, an ASCII message
    that starts with [/gif] (in any case) and has a topic is never refused
    and never raises: the topic goes to [get_gif_url]; exactly two entries are
    appended to the transcript, the user entry ["/gif "] followed by the
    topic (not the message as typed) and the assistant entry with the reply;
    and the reply carries the [gif] key with the value that came back.  The
    tone of the conversation, its memory and the classifier play no part. *)
Theorem gif_command (env : Env) (input : UserInput.t) (w : World) :
  let cid := UserInput.conversation_id input in
  let c := conversation_for cid w in
  let topic := gif_argument (UserInput.message input) in
  Text.is_ascii (UserInput.message input) = true →
  active c = true →
  Text.startswith "/gif" (Text.lower (Text.strip (UserInput.message input))) = true →
  topic ≠ "" →
  ∃ v,
    get_gif_url env topic (upd cid c w)
    = (fst (get_gif_url env topic (upd cid c w)), Returns v)
    ∧ chat env input w
      = (upd cid (append_message (Msg "assistant" (gif_reply env v))
                    (append_message (Msg "user" ("/gif " +:+ topic)) c))
           (fst (get_gif_url env topic (upd cid c w))),
         Returns (ChatResponse.Build (gif_reply env v) cid (Some (or_none v)))).
Proof.
  intros cid c topic _ Hactive Hgif Hne.
  rewrite chat_enters by done. fold cid c. rewrite Hgif.
  unfold chat_gif. change (Text.strip (Text.slice_from 5 _)) with topic.
  apply String.eqb_neq in Hne. rewrite Hne.
  destruct (get_gif_url_returns env topic (upd cid c w)) as [v Hv].
  exists v. rewrite Hv. split; [done |].
  set (w1 := fst (get_gif_url_try env topic (upd cid c w))) in *.
  assert (Hc1 : conversations w1 !! cid = Some c).
  { pose proof (keeps_get_gif_url env topic (upd cid c w)) as Hk. rewrite Hv in Hk.
    cbn [fst] in Hk. rewrite Hk. apply lookup_upd. }
  rewrite (bind_returns _ _ _ _ _ Hv).
  rewrite (bind_returns _ _ _ _ _ (on_conversation_modify _ _ _ _ Hc1)).
  rewrite (bind_returns _ _ _ _ _
             (on_conversation_modify _ _ _ _ (lookup_upd _ _ _))).
  by rewrite upd_upd.
Qed.

Lemma gif_command_witness :
  snd (chat offline_env (say "c1" " /GIF  Cute Cats ") no_events)
  = Returns (ChatResponse.Build
               (FALLBACK_MESSAGE +:+ nl +:+ "![GIF](" +:+ FALLBACK_GIF +:+ ")") "c1"
               (Some (JStr FALLBACK_GIF)))
  ∧ messages <$> conversations (fst (chat offline_env (say "c1" " /GIF  Cute Cats ")
                                       no_events)) !! "c1"
    = Some [Msg "system" "You are a funny and witty assistant 😂✨";
            Msg "user" "/gif Cute Cats";
            Msg "assistant" (FALLBACK_MESSAGE +:+ nl +:+ "![GIF](" +:+ FALLBACK_GIF +:+ ")")].
Proof.
  destruct (gif_command offline_env (say "c1" " /GIF  Cute Cats ") no_events
              eq_refl eq_refl eq_refl ltac:(discriminate)) as (v & Hv & ->).
  assert (Hval : v = JStr FALLBACK_GIF) by (vm_compute in Hv; vm_compute; congruence).
  rewrite Hval. split; vm_compute; reflexivity.
Defined.

(** X11. A command without its argument.  On an active conversation,
    [/gif] with no topic and [/tone] with no name are answered with the
    fixed request for the argument; the reply has no [gif] key, the
    conversation (created if it was not there) is left as it was and no call
    to the outside is made. *)
Theorem command_without_argument (env : Env) (input : UserInput.t) (w : World) :
  let cid := UserInput.conversation_id input in
  let c := conversation_for cid w in
  let user_msg := Text.strip (UserInput.message input) in
  active c = true →
  (Text.startswith "/gif" (Text.lower user_msg) = true →
   gif_argument (UserInput.message input) = "" →
   chat env input w
   = (upd cid c w, Returns (ChatResponse.Build "Please specify a topic after /gif" cid None)))
  ∧ (Text.startswith "/gif" (Text.lower user_msg) = false →
     Text.startswith "/tone" (Text.lower user_msg) = true →
     tone_argument (UserInput.message input) = "" →
     chat env input w
     = (upd cid c w,
        Returns (ChatResponse.Build "Please specify a tone after /tone" cid None))).
Proof.
  intros cid c user_msg Hactive. split.
  - intros Hgif Harg. rewrite chat_enters by done. fold cid c user_msg. rewrite Hgif.
    unfold chat_gif. change (Text.strip (Text.slice_from 5 user_msg))
      with (gif_argument (UserInput.message input)).
    by rewrite Harg.
  - intros Hgif Htn Harg. rewrite chat_enters by done. fold cid c user_msg.
    rewrite Hgif, Htn.
    unfold chat_tone. change (Text.strip (Text.slice_from 5 user_msg))
      with (tone_argument (UserInput.message input)).
    by rewrite Harg.
Qed.

Lemma command_without_argument_witness :
  chat offline_env (say "c1" "/gif ") (Wld {["c1" := fresh_conversation]} [])
  = (Wld {["c1" := fresh_conversation]} [],
     Returns (ChatResponse.Build "Please specify a topic after /gif" "c1" None))
  ∧ chat offline_env (say "c1" "/TONE") (Wld {["c1" := fresh_conversation]} [])
    = (Wld {["c1" := fresh_conversation]} [],
       Returns (ChatResponse.Build "Please specify a tone after /tone" "c1" None)).
Proof.
  split.
  - eapply eq_trans.
    + exact (proj1 (command_without_argument offline_env (say "c1" "/gif ")
                      (Wld {["c1" := fresh_conversation]} []) eq_refl) eq_refl eq_refl).
    + vm_compute. reflexivity.
  - eapply eq_trans.
    + exact (proj2 (command_without_argument offline_env (say "c1" "/TONE")
                      (Wld {["c1" := fresh_conversation]} []) eq_refl)
               eq_refl eq_refl eq_refl).
    + vm_compute. reflexivity.
Defined.

(** X12. An unknown tone.  On an active conversation, an ASCII [/tone]
    command whose name is no registered tone is answered with the fixed list of
    tones, as an ordinary reply without a [gif] key: the [ValueError] of
    [set_tone] does not leave [chat], the conversation keeps its tone, its
    transcript and its memory, and no call to the outside is made. *)
Theorem tone_command_unknown (env : Env) (input : UserInput.t) (w : World) :
  let cid := UserInput.conversation_id input in
  let c := conversation_for cid w in
  let user_msg := Text.strip (UserInput.message input) in
  let tone := tone_argument (UserInput.message input) in
  Text.is_ascii (UserInput.message input) = true →
  active c = true →
  Text.startswith "/gif" (Text.lower user_msg) = false →
  Text.startswith "/tone" (Text.lower user_msg) = true →
  tone ≠ "" →
  TONE_PROMPTS !! Text.strip (Text.lower tone) = None →
  chat env input w
  = (upd cid c w,
     Returns (ChatResponse.Build
                "Invalid tone. Options: funny, serious, poetic, dark_humor." cid None)).
Proof.
  intros cid c user_msg tone _ Hactive Hgif Htn Hne Hkey.
  rewrite chat_enters by done. fold cid c user_msg. rewrite Hgif, Htn.
  unfold chat_tone. change (Text.strip (Text.slice_from 5 user_msg)) with tone.
  apply String.eqb_neq in Hne. rewrite Hne. unfold try_except.
  pose proof (on_conversation_run cid (set_tone tone) (upd cid c w) c (lookup_upd _ _ _)) as H1.
  rewrite set_tone_invalid in H1 by done. cbn [fst snd] in H1. rewrite upd_upd in H1.
  by rewrite (bind_raises _ _ _ _ _ H1).
Qed.

Lemma tone_command_unknown_witness :
  chat offline_env (say "c1" "/tone grumpy") (Wld {["c1" := fresh_conversation]} [])
  = (Wld {["c1" := fresh_conversation]} [],
     Returns (ChatResponse.Build
                "Invalid tone. Options: funny, serious, poetic, dark_humor." "c1" None)).
Proof.
  eapply eq_trans.
  - exact (tone_command_unknown offline_env (say "c1" "/tone grumpy")
             (Wld {["c1" := fresh_conversation]} [])
             eq_refl eq_refl eq_refl eq_refl ltac:(discriminate) eq_refl).
  - vm_compute. reflexivity.
Defined.

Lemma celebration_returns env tone w :
  ∃ v, celebration env tone w = (fst (celebration env tone w), Returns v)
       ∧ conversations (fst (celebration env tone w)) = conversations w.
Proof.
  unfold celebration. destruct (String.eqb tone "funny").
  - destruct (get_gif_url_returns env "celebrate" w) as [v Hv]. exists v.
    rewrite Hv. split; [done |].
    pose proof (keeps_get_gif_url env "celebrate" w) as Hk. by rewrite Hv in Hk.
  - by exists (JStr "").
Qed.

(** X13. A tone switch through [chat].  On an active conversation, a
    [/tone] command with a registered name (in any case) returns, and
    leaves the conversation with the new tone, with a transcript of exactly
    two entries, the prompt of the new tone and the assistant entry with the
    reply: everything said before is discarded.  The memory and the title
    are kept. *)
Theorem tone_command_resets_transcript (env : Env) (input : UserInput.t) (w : World)
    (prompt : string) :
  let cid := UserInput.conversation_id input in
  let c := conversation_for cid w in
  let user_msg := Text.strip (UserInput.message input) in
  let tone := tone_argument (UserInput.message input) in
  let key := Text.strip (Text.lower tone) in
  active c = true →
  Text.startswith "/gif" (Text.lower user_msg) = false →
  Text.startswith "/tone" (Text.lower user_msg) = true →
  tone ≠ "" →
  TONE_PROMPTS !! key = Some prompt →
  ∃ v w',
    celebration env tone (upd cid (retoned key prompt c) w) = (w', Returns v)
    ∧ chat env input w
      = (upd cid (Conv [Msg "system" prompt; Msg "assistant" (tone_reply env tone v)]
                    (active c) true key (memory c) (title c)) w',
         Returns (ChatResponse.Build (tone_reply env tone v) cid (Some (or_none v)))).
Proof.
  intros cid c user_msg tone key Hactive Hgif Htn Hne Hkey.
  rewrite chat_enters by done. fold cid c user_msg. rewrite Hgif, Htn.
  unfold chat_tone. change (Text.strip (Text.slice_from 5 user_msg)) with tone.
  apply String.eqb_neq in Hne. rewrite Hne. unfold try_except.
  pose proof (on_conversation_run cid (set_tone tone) (upd cid c w) c (lookup_upd _ _ _)) as H1.
  rewrite (set_tone_valid _ prompt) in H1 by done. cbn [fst snd] in H1.
  rewrite upd_upd in H1. fold key in H1.
  set (w1 := upd cid (retoned key prompt c) w) in *.
  destruct (celebration_returns env tone w1) as (v & Hv & Hk).
  exists v, (fst (celebration env tone w1)). split; [done |].
  rewrite (bind_returns _ _ _ _ _ H1).
  change (if String.eqb tone "funny" then get_gif_url env "celebrate" else ret (JStr ""))
    with (celebration env tone).
  rewrite (bind_returns _ _ _ _ _ Hv).
  assert (Hc2 : conversations (fst (celebration env tone w1)) !! cid
                = Some (retoned key prompt c)).
  { rewrite Hk. apply lookup_upd. }
  by rewrite (bind_returns _ _ _ _ _ (on_conversation_modify _ _ _ _ Hc2)).
Qed.

Lemma tone_command_resets_transcript_witness :
  conversations
    (fst (chat offline_env (say "c1" "/tone  Dark_Humor")
            (fst (chat offline_env (say "c1" "my name is bob") no_events)))) !! "c1"
  = Some (Conv [Msg "system" "You are a dark-humored assistant 🖤💀🦃";
                Msg "assistant" "Tone changed to 'Dark_Humor'"]
            true true "dark_humor" {["name" := "Bob"]} "New Chat").
Proof.
  destruct (tone_command_resets_transcript offline_env (say "c1" "/tone  Dark_Humor")
              (fst (chat offline_env (say "c1" "my name is bob") no_events))
              "You are a dark-humored assistant 🖤💀🦃"
              eq_refl eq_refl eq_refl ltac:(discriminate) eq_refl) as (v & w' & Hv & Hrun).
  vm_compute in Hv. injection Hv as <- <-.
  rewrite Hrun. vm_compute. reflexivity.
Defined.

(** ** More on the GIF fetcher *)

Lemma fetch_results_logs env url w :
  fst (fetch_results env url w) = log (TenorGet url) w.
Proof.
  unfold fetch_results, session_get, raise_for_status, response_json, dict_get,
    bind, get, modify, ret, raise. simpl.
  destruct (tenor env (now w) url) as [e | r]; [done |]. simpl.
  destruct ((400 <=? status_code r)%Z && (status_code r <? 600)%Z); [done |].
  destruct (body r) as [[| | | | | members] |]; done.
Qed.

Lemma random_choice_logs env seq w :
  fst (random_choice env seq w) = w
  ∨ ∃ n, fst (random_choice env seq w) = log (RandomChoice n) w.
Proof.
  unfold random_choice, bind, get, modify, ret, raise.
  destruct seq as [| | | | items | members]; simpl; eauto.
  destruct (items !! _); simpl; eauto.
Qed.

Lemma url_of_result_world gif w : fst (url_of_result gif w) = w.
Proof.
  destruct (gif_url_of gif) as [url |] eqn:H.
  - by rewrite (url_of_result_some _ url).
  - destruct (url_of_result_none gif w H) as [e ->]. done.
Qed.

(** What follows the requests: a choice among the results, or nothing. *)
Lemma choose_logs env gifs w :
  fst ((if truthy gifs then let* gif := random_choice env gifs in url_of_result gif
        else ret (JStr FALLBACK_GIF)) w) = w
  ∨ ∃ n, fst ((if truthy gifs then let* gif := random_choice env gifs in url_of_result gif
               else ret (JStr FALLBACK_GIF)) w) = log (RandomChoice n) w.
Proof.
  destruct (truthy gifs); [| by left]. unfold bind.
  destruct (random_choice_logs env gifs w) as [H | [n H]];
    destruct (random_choice env gifs w) as [w' [gif | e]]; simpl in H; subst w';
    rewrite ?surjective_pairing, ?url_of_result_world; eauto.
Qed.

(** X14. The requests of one fetch.  Whatever the search backend answers,
    for an ASCII query [get_gif_url] makes the request for the normalised
    query first, at most one more request, which is the one for ["funny"],
    and after that at most one random choice; it records nothing else. *)
Theorem get_gif_url_request_budget (env : Env) (query : string) (w : World) :
  Text.is_ascii query = true →
  ∃ tail,
    events (fst (get_gif_url env query w))
    = events w ++ TenorGet (search_url env (Text.quote (normalize_query query))) :: tail
    ∧ (tail = []
       ∨ tail = [TenorGet (search_url env "funny")]
       ∨ (∃ n, tail = [RandomChoice n])
       ∨ (∃ n, tail = [TenorGet (search_url env "funny"); RandomChoice n])).
Proof.
  intros _. destruct (get_gif_url_returns env query w) as [v ->]. cbn [fst].
  rewrite get_gif_url_try_eq.
  set (u1 := search_url env (Text.quote (normalize_query query))).
  set (u2 := search_url env "funny").
  unfold bind at 1.
  pose proof (fetch_results_logs env u1 w) as H1.
  destruct (fetch_results env u1 w) as [w1 [g1 | e1]]; simpl in H1; subst w1.
  2: { exists []. split; [done |]. by left. }
  unfold bind at 1. destruct (truthy g1) eqn:Hg1; cbn [negb].
  - unfold ret at 1. cbv beta iota.
    destruct (choose_logs env g1 (log (TenorGet u1) w)) as [-> | [n ->]].
    + exists []. split; [done |]. by left.
    + exists [RandomChoice n]. split; [| eauto]. simpl. by rewrite <- app_assoc.
  - pose proof (fetch_results_logs env u2 (log (TenorGet u1) w)) as H2.
    destruct (fetch_results env u2 _) as [w2 [g2 | e2]]; simpl in H2; subst w2.
    2: { exists [TenorGet u2]. split; [| eauto]. simpl. by rewrite <- app_assoc. }
    destruct (choose_logs env g2 (log (TenorGet u2) (log (TenorGet u1) w)))
      as [-> | [n ->]].
    + exists [TenorGet u2]. split; [| eauto]. simpl. by rewrite <- app_assoc.
    + exists [TenorGet u2; RandomChoice n]. split; [| eauto 6]. simpl.
      by rewrite <- !app_assoc.
Qed.

(** A backend without results: two requests, no choice. *)
Lemma get_gif_url_request_budget_witness :
  ∃ tail,
    events (fst (get_gif_url empty_results_env " Cute Cats" no_events))
    = [] ++ TenorGet "https://api.tenor.com/v2/search?key=KEY&q=cute%20cats&limit=5&contentfilter=medium"
         :: tail
    ∧ (tail = []
       ∨ tail = [TenorGet "https://api.tenor.com/v2/search?key=KEY&q=funny&limit=5&contentfilter=medium"]
       ∨ (∃ n, tail = [RandomChoice n])
       ∨ (∃ n, tail = [TenorGet "https://api.tenor.com/v2/search?key=KEY&q=funny&limit=5&contentfilter=medium";
                       RandomChoice n])).
Proof.
  exact (get_gif_url_request_budget empty_results_env " Cute Cats" no_events eq_refl).
Defined.

(** X15. Results at the first request.  When the search for an ASCII query
    is answered with a non-empty list, [get_gif_url] makes no fallback request:
    it takes the entry at the index the generator picks and returns its
    [media_formats.gif.url] value, or the fixed fallback asset if the entry
    has none. *)
Theorem first_query_candidate (env : Env) (query : string) (w : World)
    (r : Response) (items : list json) :
  Text.is_ascii query = true →
  tenor env (now w) (search_url env (Text.quote (normalize_query query))) = Answers r →
  results_of r = Some (JArr items) →
  items ≠ [] →
  ∃ gif,
    items !! (pick env (S (now w)) (length items) `mod` length items) = Some gif
    ∧ get_gif_url env query w
      = (log (RandomChoice (length items))
           (log (TenorGet (search_url env (Text.quote (normalize_query query)))) w),
         Returns (match gif_url_of gif with
                  | Some url => url
                  | None => JStr FALLBACK_GIF
                  end)).
Proof.
  intros _ Ht Hr Hne.
  set (u1 := search_url env (Text.quote (normalize_query query))) in *.
  assert (Hlt : pick env (S (now w)) (length items) `mod` length items < length items).
  { apply Nat.mod_upper_bound. destruct items; [done | simpl; lia]. }
  destruct (lookup_lt_is_Some_2 _ _ Hlt) as [gif Hgif].
  exists gif. split; [done |].
  assert (Htry : get_gif_url_try env query w =
                 url_of_result gif (log (RandomChoice (length items)) (log (TenorGet u1) w))).
  { rewrite get_gif_url_try_eq. fold u1.
    rewrite (bind_returns _ _ _ _ _ (fetch_results_ok _ _ _ _ _ Ht Hr)).
    replace (truthy (JArr items)) with true by (by destruct items).
    cbn [negb]. rewrite bind_ret.
    replace (truthy (JArr items)) with true by (by destruct items).
    unfold random_choice, bind, get, modify. simpl.
    rewrite !now_log, Hgif. reflexivity. }
  destruct (gif_url_of gif) as [url |] eqn:Hurl.
  - apply get_gif_url_passes. rewrite Htry. by apply url_of_result_some.
  - destruct (url_of_result_none gif
               (log (RandomChoice (length items)) (log (TenorGet u1) w)) Hurl) as [e He].
    apply (get_gif_url_catches _ _ _ _ e). by rewrite Htry.
Qed.

Lemma first_query_candidate_witness :
  get_gif_url one_result_env "Peple" no_events
  = (Wld ∅ [TenorGet "https://api.tenor.com/v2/search?key=KEY&q=people&limit=5&contentfilter=medium";
            RandomChoice 1],
     Returns (JStr "https://t/1.gif")).
Proof.
  destruct (first_query_candidate one_result_env "Peple" no_events
              (Resp 200 (Some (JObj [("results",
                 JArr [JObj [("media_formats", JObj [("gif", JObj [("url", JStr "https://t/1.gif")])])]])])))
              [JObj [("media_formats", JObj [("gif", JObj [("url", JStr "https://t/1.gif")])])]]
              eq_refl eq_refl eq_refl ltac:(discriminate)) as (gif & Hgif & Hrun).
  injection Hgif as <-. exact Hrun.
Defined.

(** X16. [GET /gifs/{topic}].  Whatever the search backend answers and
    whatever the topic, [get_gif] leaves the registry alone and either
    returns or raises a 404, nothing else.  A reply names the unquoted topic,
    its URL is never empty, and it carries the fallback message exactly when
    the URL is the fixed fallback asset.  The 404 is raised exactly when the
    fetcher came back with a value that is empty (an empty URL in the
    backend's answer), and its detail names the unquoted topic. *)
Theorem get_gif_replies (env : Env) (unquote : string → string) (topic : string)
    (w : World) :
  conversations (fst (get_gif env unquote topic w)) = conversations w
  ∧ ∃ v, snd (get_gif_url env (unquote topic) w) = Returns v
         ∧ snd (get_gif env unquote topic w)
           = if equals_str v FALLBACK_GIF then
               Returns (GifResponse.Build (unquote topic) v (Some FALLBACK_MESSAGE))
             else if truthy v then Returns (GifResponse.Build (unquote topic) v None)
             else Raises (HTTPException 404
                            ("No GIF found for '" +:+ unquote topic
                               +:+ "'. Try another topic!")).
Proof.
  unfold get_gif. destruct (get_gif_url_returns env (unquote topic) w) as [v Hv].
  pose proof (keeps_get_gif_url env (unquote topic) w) as Hk. rewrite Hv in Hk.
  rewrite (bind_returns _ _ _ _ _ Hv). split.
  - destruct (equals_str v FALLBACK_GIF); [done |]. by destruct (truthy v).
  - exists v. rewrite Hv. split; [done |].
    destruct (equals_str v FALLBACK_GIF); [done |]. by destruct (truthy v).
Qed.

(** ** Creating and deleting *)

(** X17. Create, then create again or delete.  With a registered tone and
    a free identifier, [new_chat] stores a conversation with its tone set
    and the title asked for.  After it, a second [new_chat] with the same
    identifier, whatever its tone and title, raises a 400 and leaves the
    registry as it is; and [delete_chat] of the identifier brings the world
    back to what it was before the creation. *)
Theorem create_then_create_or_delete (data : NewChatRequest.t) (w : World) (prompt : string) :
  let cid := NewChatRequest.conversation_id data in
  let key := Text.strip (Text.lower (NewChatRequest.tone data)) in
  conversations w !! cid = None →
  TONE_PROMPTS !! key = Some prompt →
  conversations (fst (new_chat data w)) !! cid
  = Some (Conv [Msg "system" prompt] true true key ∅ (NewChatRequest.title data))
  ∧ (∀ tone title,
       new_chat (NewChatRequest.Build cid tone title) (fst (new_chat data w))
       = (fst (new_chat data w), Raises (HTTPException 400 "Chat ID already exists.")))
  ∧ delete_chat cid (fst (new_chat data w))
    = (w, Returns ("Chat '" +:+ cid +:+ "' deleted.")).
Proof.
  intros cid key Hfree Hkey.
  destruct (new_chat_valid data w prompt Hfree Hkey) as [msg Hrun]. rewrite Hrun.
  fold cid key. cbn [fst]. split; [| split].
  - simpl. by rewrite lookup_insert_eq.
  - intros tone title. unfold new_chat. rewrite bind_get. simpl.
    rewrite bool_decide_eq_true_2; [done |]. rewrite lookup_insert_eq. by eexists.
  - unfold delete_chat. rewrite bind_get. simpl. rewrite lookup_insert_eq.
    rewrite bind_modify. unfold ret, set_conversations. simpl.
    rewrite delete_insert_eq, delete_id by done. by destruct w.
Qed.

Lemma create_then_create_or_delete_witness :
  delete_chat "c1" (fst (new_chat (NewChatRequest.Build "c1" " Poetic" "Verses") no_events))
  = (no_events, Returns "Chat 'c1' deleted.").
Proof.
  exact (proj2 (proj2 (create_then_create_or_delete
                         (NewChatRequest.Build "c1" " Poetic" "Verses") no_events
                         "You are a poetic AI who speaks in rhymes 🌸🎵" eq_refl eq_refl))).
Defined.

(** X18. Deleting forgets.  [delete_chat] of an identifier that is not
    registered raises a 404 and changes nothing.  After [delete_chat] of a
    registered one, a second [delete_chat] raises the 404, the history is a
    404 as well, and [get_or_create_conversation] registers a new
    conversation in the default tone, with an empty memory and the default
    title; so the next [chat] on the identifier runs as on a registry where
    the identifier holds that new conversation: tone, memory, title and
    transcript of the deleted one are gone. *)
Theorem delete_forgets (cid : string) (w : World) (c : Conversation) :
  (conversations w !! cid = None →
   delete_chat cid w = (w, Raises (HTTPException 404 "Chat not found.")))
  ∧ (conversations w !! cid = Some c →
     let w' := fst (delete_chat cid w) in
     let new := Conv [Msg "system" "You are a funny and witty assistant 😂✨"]
                  true true "funny" ∅ "New Chat" in
     delete_chat cid w' = (w', Raises (HTTPException 404 "Chat not found."))
     ∧ get_chat_history cid w' = (w', Raises (HTTPException 404 "Chat not found."))
     ∧ get_or_create_conversation cid w'
       = (Wld (<[cid := new]> (delete cid (conversations w))) (events w), Returns tt)
     ∧ ∀ env message role,
         chat env (UserInput.Build message role cid) w'
         = chat env (UserInput.Build message role cid)
             (Wld (<[cid := new]> (delete cid (conversations w))) (events w))).
Proof.
  split.
  - intros Hc. unfold delete_chat. rewrite bind_get. by rewrite Hc.
  - intros Hc w' new.
    assert (Hw' : w' = Wld (delete cid (conversations w)) (events w)).
    { unfold w', delete_chat. by rewrite bind_get, Hc. }
    assert (Hgone : conversations w' !! cid = None).
    { rewrite Hw'. simpl. apply lookup_delete_eq. }
    assert (Hnew : get_or_create_conversation cid w'
                   = (Wld (<[cid := new]> (delete cid (conversations w))) (events w),
                      Returns tt)).
    { rewrite get_or_create_run. unfold conversation_for. rewrite Hgone.
      by rewrite Hw'. }
    split; [| split; [| split]].
    + unfold delete_chat. rewrite bind_get. by rewrite Hgone.
    + unfold get_chat_history. rewrite bind_get. by rewrite Hgone.
    + exact Hnew.
    + intros env message role. unfold chat. cbn [UserInput.conversation_id].
      rewrite (bind_returns _ _ _ _ _ Hnew).
      set (w1 := Wld (<[cid := new]> (delete cid (conversations w))) (events w)).
      assert (H1 : get_or_create_conversation cid w1 = (w1, Returns tt)).
      { rewrite get_or_create_run.
        rewrite (conversation_for_registered _ _ new) by apply lookup_insert_eq.
        by rewrite upd_id by apply lookup_insert_eq. }
      by rewrite (bind_returns _ _ _ _ _ H1).
Qed.

(** A conversation that knows the name of the user is deleted; the next
    message gets no memory context. *)
Lemma delete_forgets_witness :
  delete_chat "c1" no_events = (no_events, Raises (HTTPException 404 "Chat not found."))
  ∧ conversations
      (fst (chat offline_env (say "c1" "hello")
              (fst (delete_chat "c1"
                      (fst (chat offline_env (say "c1" "my name is bob") no_events))))))
      !! "c1"
    = Some (Conv [Msg "system" "You are a funny and witty assistant 😂✨";
                  Msg "system" "The user is neutral. Respond normally.";
                  Msg "user" "hello";
                  Msg "assistant" "ok"] true true "funny" ∅ "New Chat").
Proof.
  split.
  - exact (proj1 (delete_forgets "c1" no_events fresh_conversation) eq_refl).
  - assert (conversations (fst (chat offline_env (say "c1" "my name is bob") no_events))
              !! "c1"
            = Some (Conv [Msg "system" "You are a funny and witty assistant 😂✨";
                          Msg "system" "The user's name is Bob.";
                          Msg "system" "The user is neutral. Respond normally.";
                          Msg "user" "my name is bob";
                          Msg "assistant" "ok"] true true "funny" {["name" := "Bob"]}
                      "New Chat")) as Hc by (vm_compute; reflexivity).
    pose proof (proj2 (delete_forgets "c1" _ _) Hc) as (_ & _ & _ & Hchat).
    change (say "c1" "hello") with (UserInput.Build "hello" "user" "c1").
    rewrite (Hchat offline_env "hello" "user").
    vm_compute. reflexivity.
Defined.

(** ** Remembering twice *)

Lemma insert_pair_twice (m : gmap string string) a b x y :
  <[a := x]> (<[b := y]> (<[a := x]> (<[b := y]> m))) = <[a := x]> (<[b := y]> m).
Proof.
  apply map_eq. intros k. rewrite !lookup_insert. by repeat case_decide.
Qed.

(** X19. [remember] is idempotent: the same message remembered a second
    time changes nothing more. *)
Theorem remember_idempotent (message : string) (c : Conversation) :
  remember message (fst (remember message c)) = (fst (remember message c), Returns tt).
Proof.
  rewrite !remember_unfold.
  destruct (Re.search name_pattern message) as [[g |] |] eqn:Hn;
    [| by apply search_sets_group in Hn as [? ?] |];
    (destruct (Re.search mood_pattern message) as [[g' |] |] eqn:Hm;
       [| by apply search_sets_group in Hm as [? ?] |]);
    simpl; try case_bool_decide; simpl; unfold set_memory; simpl;
    rewrite ?insert_insert_eq, ?insert_pair_twice; done.
Qed.

(** ** What the groups capture *)






Section WordGroup.

Import Re.

Variable start : cursor.





End WordGroup.





(** ** The title *)

Lemma registry_only_conv_at cid P : registry_only (conv_at cid P).
Proof. intros w w' H (c & Hc & HP). exists c. by rewrite <- H. Qed.

Lemma conv_at_on_conversation {A} cid cid' P (m : M Conversation A) :
  keeps_conv P m → preserves (conv_at cid' P) (on_conversation cid m).
Proof.
  intros Hm w (c' & Hc' & HP). unfold on_conversation.
  destruct (conversations w !! cid) as [c |] eqn:Hc; [| by exists c'].
  specialize (Hm c). destruct (m c) as [c1 r]. simpl in *.
  destruct (decide (cid = cid')) as [<- | Hne].
  - exists c1. simpl. rewrite lookup_insert_eq. split; [done |]. apply Hm. congruence.
  - exists c'. simpl. by rewrite lookup_insert_ne.
Qed.

Lemma conv_at_get_or_create cid cid' P :
  preserves (conv_at cid' P) (get_or_create_conversation cid).
Proof.
  intros w (c' & Hc' & HP). rewrite get_or_create_run. simpl.
  destruct (decide (cid = cid')) as [<- | Hne].
  - exists c'. simpl. rewrite lookup_insert_eq. unfold conversation_for. by rewrite Hc'.
  - exists c'. simpl. by rewrite lookup_insert_ne.
Qed.

Lemma title_set_tone t tone : keeps_conv (fun c => title c = t) (set_tone tone).
Proof.
  intros c Hc.
  destruct (TONE_PROMPTS !! Text.strip (Text.lower tone)) as [prompt |] eqn:Hkey.
  - by rewrite (set_tone_valid _ prompt).
  - by rewrite set_tone_invalid.
Qed.

Lemma title_remember t message : keeps_conv (fun c => title c = t) (remember message).
Proof.
  intros c Hc. destruct (remember_frame message c) as (_ & _ & _ & _ & ->). done.
Qed.

Lemma title_inject t : keeps_conv (fun c => title c = t) inject_memory_context.
Proof.
  intros c Hc. rewrite inject_memory_context_run. simpl.
  by destruct (memory_facts (memory c)).
Qed.

Lemma title_append t m : keeps_conv (fun c => title c = t) (modify (append_message m)).
Proof. by intros c Hc. Qed.

#[local] Hint Resolve registry_only_conv_at conv_at_get_or_create
  title_set_tone title_remember title_inject title_append : preserves.
#[local] Hint Extern 1 (preserves (conv_at _ _) (on_conversation _ _)) =>
  apply conv_at_on_conversation : preserves.

Lemma chat_keeps_title env input cid t :
  preserves (conv_at cid (fun c => title c = t)) (chat env input).
Proof.
  unfold chat, chat_gif, chat_tone, chat_reply. repeat preserves_step.
Qed.

(** X21. A rename holds.  [rename_chat] of an identifier that is not
    registered raises a 404 and changes nothing.  On a registered one it
    changes the title and nothing else of the conversation, so the history
    is the same; and whatever [chat] is asked afterwards, on this
    conversation or another, a command or not, returning or raising, the
    conversation still has the new title. *)
Theorem rename_holds (env : Env) (data : RenameChatRequest.t) (w : World) :
  let cid := RenameChatRequest.conversation_id data in
  (conversations w !! cid = None →
   rename_chat data w = (w, Raises (HTTPException 404 "Chat not found.")))
  ∧ (∀ c, conversations w !! cid = Some c →
       conversations (fst (rename_chat data w)) !! cid
       = Some (set_title (RenameChatRequest.new_title data) c)
       ∧ snd (get_chat_history cid (fst (rename_chat data w)))
         = snd (get_chat_history cid w)
       ∧ ∀ input,
           title <$> conversations (fst (chat env input (fst (rename_chat data w)))) !! cid
           = Some (RenameChatRequest.new_title data)).
Proof.
  intros cid. split.
  - intros Hc. unfold rename_chat. rewrite bind_get. fold cid. by rewrite Hc.
  - intros c Hc.
    assert (Hrun : fst (rename_chat data w)
                   = upd cid (set_title (RenameChatRequest.new_title data) c) w).
    { unfold rename_chat. rewrite bind_get. fold cid. rewrite Hc.
      by rewrite (bind_returns _ _ _ _ _ (on_conversation_modify _ _ _ _ Hc)). }
    rewrite Hrun. split; [apply lookup_upd |]. split.
    + unfold get_chat_history. rewrite !bind_get, lookup_upd, Hc. done.
    + intros input.
      destruct (chat_keeps_title env input cid (RenameChatRequest.new_title data)
                  (upd cid (set_title (RenameChatRequest.new_title data) c) w))
        as (c' & -> & <-); [| done].
      eexists. split; [apply lookup_upd | done].
Qed.

Lemma rename_holds_witness :
  title <$> conversations
              (fst (chat offline_env (say "c1" "/tone serious")
                      (fst (rename_chat (RenameChatRequest.Build "c1" "Work")
                              (Wld {["c1" := fresh_conversation]} []))))) !! "c1"
  = Some "Work"
  ∧ rename_chat (RenameChatRequest.Build "c1" "Work") no_events
    = (no_events, Raises (HTTPException 404 "Chat not found.")).
Proof.
  split.
  - exact (proj2 (proj2 (proj2 (rename_holds offline_env (RenameChatRequest.Build "c1" "Work")
                                  (Wld {["c1" := fresh_conversation]} []))
                           fresh_conversation eq_refl))
             (say "c1" "/tone serious")).
  - exact (proj1 (rename_holds offline_env (RenameChatRequest.Build "c1" "Work") no_events)
             eq_refl).
Defined.
